(** * Graph preprocessing and data pipeline of the GCN models

    A shallow embedding of
    - [app/ds/graph/base_graph.py]  (label reading, symmetrisation,
      renormalisation, Chebyshev polynomials),
    - [app/ds/graph/np_graph.py]    (edge-list reading),
    - [app/ds/data_pipeline.py]     (split indices, masks, feed dicts),
    - [app/model/aemodel/base_model.py] (the masked loss operator),
    together with the properties stated about them.

    Conventions.
    - A Python call either returns a value or raises: [outcome A].
    - A [scipy.sparse] matrix is a shape and a finite map from coordinates
      to the stored entries; a coordinate that is not stored reads as 0.
    - The shapes, the stored coordinates, the errors and the entry
      formulas of the matrix code are stated over exact rationals [Q]
      (compared with [==]).  These statements say nothing about rounding:
      where a property depends on it (the merge of the two directions of
      an edge in [symmetic_adj]) the same code is modelled a second time
      over IEEE floats ([symmetic_adj_float], binary32 and binary64), and
      the statements over [Q] that divide carry the hypothesis that the
      divisor is not zero (positive row sums, a non-zero eigenvalue).
    - Where the code can produce the IEEE special values (the TensorFlow
      loss) they are added explicitly ([tfloat]).
    - Python's own float arithmetic on the split sizes is binary64 and is
      modelled by the primitive floats. *)

From Stdlib Require Import QArith Qminmax Floats.
From stdpp Require Import base option list gmap strings.

Local Open Scope Q_scope.

(** ** Outcomes of Python calls *)

Inductive exn : Type :=
| AssertionError (msg : string)
| KeyError (key : string)
| IndexError
| TypeError
| ValueError
| AttributeError
| ZeroDivisionError
| OverflowError
| InvalidArgumentError.

Inductive outcome (A : Type) : Type :=
| Returns (a : A)
| Raises (e : exn).
Arguments Returns {A} a.
Arguments Raises {A} e.

#[global] Instance outcome_ret : MRet outcome := λ A a, Returns a.
#[global] Instance outcome_bind : MBind outcome := λ A B f m,
  match m with
  | Returns a => f a
  | Raises e => Raises e
  end.

(** [for x in xs: body] for a body that may raise. *)
Fixpoint mapM_outcome {A B} (f : A → outcome B) (xs : list A) : outcome (list B) :=
  match xs with
  | [] => Returns []
  | x :: xs' => y ← f x; ys ← mapM_outcome f xs'; Returns (y :: ys)
  end.

(** ** Sparse matrices *)

Record spmatrix : Type := SpMatrix {
  sp_rows : nat;
  sp_cols : nat;
  sp_data : gmap (nat * nat) Q
}.

(** [A[i, j]] *)
Definition sp_get (A : spmatrix) (i j : nat) : Q :=
  default 0 (sp_data A !! (i, j)).

Definition same_shape (A B : spmatrix) : bool :=
  bool_decide (sp_rows A = sp_rows B) && bool_decide (sp_cols A = sp_cols B).

Definition swap_coord (ij : nat * nat) : nat * nat := (ij.2, ij.1).

(** [A.T] *)
Definition sp_transpose (A : spmatrix) : spmatrix :=
  SpMatrix (sp_cols A) (sp_rows A) (kmap swap_coord (sp_data A)).

(** Entrywise combination of the stored entries of two matrices with a
    function [f] such that [f 0 0 = 0]; a coordinate stored in neither
    operand is not stored in the result. *)
Definition data_zip (f : Q → Q → Q) (a b : gmap (nat * nat) Q) : gmap (nat * nat) Q :=
  merge (λ x y, match x, y with
                | None, None => None
                | _, _ => Some (f (default 0 x) (default 0 y))
                end) a b.

(** scipy refuses entrywise operations on operands of different shapes. *)
Definition sp_binop (f : Q → Q → Q) (A B : spmatrix) : outcome spmatrix :=
  if same_shape A B
  then Returns (SpMatrix (sp_rows A) (sp_cols A) (data_zip f (sp_data A) (sp_data B)))
  else Raises ValueError.

(** [A + B], [A - B], [A.multiply(B)] *)
Definition sp_add : spmatrix → spmatrix → outcome spmatrix := sp_binop Qplus.
Definition sp_sub : spmatrix → spmatrix → outcome spmatrix := sp_binop Qminus.
Definition sp_multiply : spmatrix → spmatrix → outcome spmatrix := sp_binop Qmult.

(** [A > B]: the sparse boolean matrix that stores [True] (read as 1 by
    [multiply]) exactly where the entry of [A] exceeds that of [B]. *)
Definition gt_data (a b : gmap (nat * nat) Q) : gmap (nat * nat) Q :=
  merge (λ x y, if Qlt_le_dec (default 0 y) (default 0 x) then Some 1 else None) a b.

Definition sp_gt (A B : spmatrix) : outcome spmatrix :=
  if same_shape A B
  then Returns (SpMatrix (sp_rows A) (sp_cols A) (gt_data (sp_data A) (sp_data B)))
  else Raises ValueError.

(** ** [base_graph.symmetic_adj]

    The function over exact entries: it gives the shape of the result,
    the error on a matrix that is not square and the formula of each
    entry.  The rounding of the sum and of the difference is in
    [symmetic_adj_float]. *)

Definition symmetic_adj (adj : spmatrix) : outcome spmatrix :=
  let adj_t := sp_transpose adj in
  m1 ← sp_gt adj_t adj;
  p1 ← sp_multiply adj_t m1;
  s ← sp_add adj p1;
  m2 ← sp_gt adj_t adj;
  p2 ← sp_multiply adj m2;
  sp_sub s p2.


(** ** [base_graph.symmetic_adj] in floating-point arithmetic

    scipy computes the entries of a matrix in the format of the matrix,
    and the matrices built by [read_network] are [float32].  A float is a
    [spec_float] of the Standard Library; the operations round to
    nearest, ties to even, in the format given by [prec] and [emax] (24
    and 128 for binary32, 53 and 1024 for binary64). *)

Record fmatrix : Type := FMatrix {
  fm_rows : nat;
  fm_cols : nat;
  fm_data : gmap (nat * nat) spec_float
}.

Definition fzero : spec_float := S754_zero false.

Definition is_fzero (x : spec_float) : bool :=
  match x with
  | S754_zero _ => true
  | _ => false
  end.

(** [A[i, j]] *)
Definition fm_get (A : fmatrix) (i j : nat) : spec_float :=
  default fzero (fm_data A !! (i, j)).

Definition fm_same_shape (A B : fmatrix) : bool :=
  bool_decide (fm_rows A = fm_rows B) && bool_decide (fm_cols A = fm_cols B).

(** [A.T] *)
Definition fm_transpose (A : fmatrix) : fmatrix :=
  FMatrix (fm_cols A) (fm_rows A) (kmap swap_coord (fm_data A)).

Section FloatFormat.

Variables prec emax : Z.

(** The integer [n] in the format. *)
Definition float_of_Z (n : Z) : spec_float := binary_normalize prec emax n 0 false.

(** The entrywise operations of scipy on two sparse matrices: the
    operation is applied wherever either operand stores an entry, with 0
    for the operand that stores none, and a result of 0 is not stored. *)
Definition fm_binop (f : spec_float → spec_float → spec_float) (A B : fmatrix)
  : outcome fmatrix :=
  if fm_same_shape A B
  then Returns (FMatrix (fm_rows A) (fm_cols A)
         (merge (λ x y, match x, y with
                        | None, None => None
                        | _, _ =>
                            let r := f (default fzero x) (default fzero y) in
                            if is_fzero r then None else Some r
                        end) (fm_data A) (fm_data B)))
  else Raises ValueError.

(** [A + B], [A - B], [A.multiply(B)] *)
Definition fm_add : fmatrix → fmatrix → outcome fmatrix := fm_binop (SFadd prec emax).
Definition fm_sub : fmatrix → fmatrix → outcome fmatrix := fm_binop (SFsub prec emax).
Definition fm_multiply : fmatrix → fmatrix → outcome fmatrix := fm_binop (SFmul prec emax).

(** [A > B]: the boolean matrix that stores [True], read as 1 by
    [multiply], where the entry of [A] exceeds that of [B]. *)
Definition fm_gt : fmatrix → fmatrix → outcome fmatrix :=
  fm_binop (λ x y, if SFltb y x then float_of_Z 1 else fzero).

Definition symmetic_adj_float (adj : fmatrix) : outcome fmatrix :=
  let adj_t := fm_transpose adj in
  m1 ← fm_gt adj_t adj;
  p1 ← fm_multiply adj_t m1;
  s ← fm_add adj p1;
  m2 ← fm_gt adj_t adj;
  p2 ← fm_multiply adj m2;
  fm_sub s p2.

End FloatFormat.

(** The matrix with the entry [a] at (0, 1) and the entry [b] at (1, 0):
    the adjacency matrix of two nodes joined by an edge listed with the
    weight [a] in one direction and [b] in the other. *)
Definition two_weights (prec emax : Z) (a b : Z) : fmatrix :=
  FMatrix 2 2 (list_to_map [((0, 1)%nat, float_of_Z prec emax a);
                            ((1, 0)%nat, float_of_Z prec emax b)]).

(** ** Further sparse operations *)

Definition Qsum (xs : list Q) : Q := foldr Qplus 0 xs.

(** [sp.eye(n)] *)
Definition sp_eye (n : nat) : spmatrix :=
  SpMatrix n n (list_to_map ((λ i, ((i, i), 1)) <$> seq 0 n)).

(** [A.sum(1)]: the vector of row sums. *)
Definition sp_row_sums (A : spmatrix) : list Q :=
  (λ i, Qsum ((λ j, sp_get A i j) <$> seq 0 (sp_cols A))) <$> seq 0 (sp_rows A).

(** [sp.diags(v, offsets=0)] *)
Definition sp_diags (v : list Q) : spmatrix :=
  SpMatrix (length v) (length v) (list_to_map (imap (λ i x, ((i, i), x)) v)).

(** [A.dot(B)]; scipy refuses operands whose inner dimensions differ.  A
    coordinate is stored when some product of two stored entries
    contributes to it. *)
Definition sp_dot (A B : spmatrix) : outcome spmatrix :=
  if bool_decide (sp_cols A = sp_rows B)
  then Returns (SpMatrix (sp_rows A) (sp_cols B)
         (list_to_map
            (i ← seq 0 (sp_rows A);
             j ← seq 0 (sp_cols B);
             if existsb (λ k, bool_decide (is_Some (sp_data A !! (i, k)))
                              && bool_decide (is_Some (sp_data B !! (k, j))))
                        (seq 0 (sp_cols A))
             then [((i, j), Qsum ((λ k, sp_get A i k * sp_get B k j) <$> seq 0 (sp_cols A)))]
             else [])))
  else Raises ValueError.

(** [c * A] and [A / c] for a scalar [c].  numpy yields inf or nan entries
    for [c = 0], which [Q] does not represent ([x / 0] is 0 in [Q]): the
    definition is the code's for [c] other than 0, and every statement
    about a quotient below assumes it. *)
Definition sp_scale (c : Q) (A : spmatrix) : spmatrix :=
  SpMatrix (sp_rows A) (sp_cols A) (Qmult c <$> sp_data A).
Definition sp_div_scalar (A : spmatrix) (c : Q) : spmatrix :=
  SpMatrix (sp_rows A) (sp_cols A) ((λ x, x / c) <$> sp_data A).

(** [Tk[-k]] for [k >= 1] *)
Definition neg_index {A} (l : list A) (k : nat) : outcome A :=
  match rev l !! (k - 1)%nat with
  | Some x => Returns x
  | None => Raises IndexError
  end.

(** ** [base_graph]: renormalisation and Chebyshev polynomials *)

Record ModelParams : Type := {
  model_name : string;
  support_size : Z;
  sparse_features : bool;
  dropout : float
}.

Section BaseGraph.

(** numpy's [np.power(x, y)] and the first eigenvalue returned by
    [eigsh(A, k=1, which="LM")] (ARPACK, which may fail to converge).
    [np.power] is taken on the rationals, so it stands for numpy's only
    where numpy returns a finite number: at the exponent -1/2, for a
    positive base.  For a row sum of 0 numpy returns inf, which the
    entries of an [spmatrix] do not represent; the statements about the
    entries of the renormalised matrix assume positive row sums. *)
Variable np_power : Q → Q → Q.
Variable eigsh_LM : spmatrix → outcome Q.
(** The constant [GCN_POLY] of [app.utils.constant]. *)
Variable GCN_POLY : string.

(** A Python function that falls off its end returns [None]: the result
    is [Returns None] when [symmetric] is false. *)
Definition renormalization_trick (adj : spmatrix) (symmetric : bool)
  : outcome (option spmatrix) :=
  if symmetric then
    let d := sp_diags ((λ x, np_power x (- (1 # 2))) <$> sp_row_sums adj) in
    ad ← sp_dot adj d;
    r ← sp_dot (sp_transpose ad) d;
    Returns (Some r)
  else Returns None.

Definition transform_adj (adj : spmatrix) (is_symmetric : bool)
  : outcome (option spmatrix) :=
  adj' ← sp_add adj (sp_eye (sp_rows adj));
  renormalization_trick adj' is_symmetric.

Definition get_identity (size : nat) : spmatrix := sp_eye size.

Definition _compute_chebyshev_recurrence (current previous X : spmatrix)
  : outcome spmatrix :=
  xc ← sp_dot X current;
  sp_sub (sp_scale 2 xc) previous.

(** The body of [for i in range(2, degree+1)], run [n] times. *)
Fixpoint chebyshev_loop (n : nat) (X : spmatrix) (Tk : list spmatrix)
  : outcome (list spmatrix) :=
  match n with
  | O => Returns Tk
  | S n' =>
      current ← neg_index Tk 1;
      previous ← neg_index Tk 2;
      next ← _compute_chebyshev_recurrence current previous X;
      chebyshev_loop n' X (Tk ++ [next])
  end.

Definition compute_chebyshev_polynomial (adj : spmatrix) (degree : Z)
  : outcome (list spmatrix) :=
  adj_normalized ← renormalization_trick adj true;
  let identity_size := sp_rows adj in
  laplacian_normalized ←
    match adj_normalized with
    | Some m => sp_sub (get_identity identity_size) m
    | None => Raises TypeError
    end;
  eigval ← eigsh_LM laplacian_normalized;
  laplacian_normalized_scaled ←
    sp_sub (sp_div_scalar (sp_scale 2 laplacian_normalized) eigval)
           (get_identity identity_size);
  chebyshev_loop (Z.to_nat (degree + 1 - 2)) laplacian_normalized_scaled
    [get_identity identity_size; laplacian_normalized_scaled].

(** [Base_Graph.compute_supports], on the adjacency matrix [self.adj]. *)
Definition compute_supports (self_adj : spmatrix) (model_params : ModelParams)
  : outcome (list (option spmatrix)) :=
  if bool_decide (model_name model_params = GCN_POLY) then
    match compute_chebyshev_polynomial self_adj (support_size model_params - 1) with
    | Returns Tk => Returns (Some <$> Tk)
    | Raises e => Raises e
    end
  else
    match transform_adj self_adj true with
    | Returns s => Returns [s]
    | Raises e => Raises e
    end.

End BaseGraph.

(** ** Python dictionaries

    A [dict] keeps its keys in insertion order; assigning to a key that is
    present replaces the value in place. *)

Definition pydict (K V : Type) : Type := list (K * V).

Section PyDict.
Context {K V : Type} `{EqDecision K}.

Fixpoint dict_get (k : K) (d : pydict K V) : option V :=
  match d with
  | [] => None
  | (k', v) :: d' => if decide (k = k') then Some v else dict_get k d'
  end.

Fixpoint dict_set (k : K) (v : V) (d : pydict K V) : pydict K V :=
  match d with
  | [] => [(k, v)]
  | (k', v') :: d' =>
      if decide (k = k') then (k, v) :: d' else (k', v') :: dict_set k v d'
  end.

Definition dict_keys (d : pydict K V) : list K := d.*1.
Definition dict_values (d : pydict K V) : list V := d.*2.

End PyDict.

(** [d[k]] for a dictionary keyed by strings. *)
Definition dict_item {V} (d : pydict string V) (k : string) : outcome V :=
  match dict_get k d with
  | Some v => Returns v
  | None => Raises (KeyError k)
  end.

(** Modelled from the spec: [invert_dict] of [app.utils.util] is not among
    the sources; the spec describes the id maps as a "bidirectional
    mapping", so the inverse sends each value back to its key. *)
Definition invert_dict {K V} `{EqDecision V} (d : pydict K V) : pydict V K :=
  foldl (λ acc kv, dict_set kv.2 kv.1 acc) [] d.

(** Modelled from the spec: [map_set_to_khot_vector] of [app.utils.util]
    is not among the sources; the spec describes a k-hot vector with "a
    1.0 entry at column label_id iff that node holds that label". *)
Definition map_set_to_khot_vector (index_set : gset nat) (num_classes : nat) : list Q :=
  (λ c, if bool_decide (c ∈ index_set) then 1 else 0) <$> seq 0 num_classes.

(** ** The graph object

    The attributes of [Base_Graph].  [features], [adj] and [labels] are
    [None] until the data is read; a feature matrix is kept as its shape
    and entries whether it is stored sparse or dense. *)

Record Graph : Type := {
  features : option spmatrix;
  adj : option spmatrix;
  labels : option (list (list Q));
  graph_sparse_features : bool;
  graph_model_name : string;
  label_to_id_map : pydict string nat;
  id_to_label_map : pydict nat string;
  node_to_id_map : pydict string nat;
  id_to_node_map : pydict nat string;
  label_to_node_map : pydict nat (gset nat);
  node_to_label_map : pydict nat (gset nat);
  edge_count : Z
}.

(** [Base_Graph.__init__] *)
Definition Graph_init (model_name : string) (sparse_features : bool) : Graph :=
  {| features := None; adj := None; labels := None;
     graph_sparse_features := sparse_features;
     graph_model_name := model_name;
     label_to_id_map := []; id_to_label_map := [];
     node_to_id_map := []; id_to_node_map := [];
     label_to_node_map := []; node_to_label_map := [];
     edge_count := (-1)%Z |}.

(** ** [Base_Graph.read_labels]

    [data] is the two-dimensional array that [np.genfromtxt] returns for a
    label file of two or more lines, one (node, label) pair per line. *)

Section ReadLabels.

(** The order in which Python iterates over [set(xs)]; it is unspecified. *)
Variable set_order : list string → list string.

(** [{x: id for id, x in enumerate(set(xs))}] *)
Definition enumerate_ids (xs : list string) : pydict string nat :=
  foldl (λ d ix, dict_set ix.2 ix.1 d) [] (imap (λ i x, (i, x)) (set_order xs)).

(** [if k not in m: m[k] = set()] followed by [m[k].add(v)]. *)
Definition add_to_set (k v : nat) (m : pydict nat (gset nat)) : pydict nat (gset nat) :=
  dict_set k (default ∅ (dict_get k m) ∪ {[v]}) m.

Fixpoint read_labels_loop (node_ids label_ids : pydict string nat)
    (data : list (string * string))
    (node_to_label label_to_node : pydict nat (gset nat))
  : outcome (pydict nat (gset nat) * pydict nat (gset nat)) :=
  match data with
  | [] => Returns (node_to_label, label_to_node)
  | (n, l) :: data' =>
      node ← dict_item node_ids n;
      label ← dict_item label_ids l;
      read_labels_loop node_ids label_ids data'
        (add_to_set node label node_to_label)
        (add_to_set label node label_to_node)
  end.

Definition read_labels (self : Graph) (data : list (string * string)) : outcome Graph :=
  let label_to_id := enumerate_ids (data.*2) in
  let node_to_id := enumerate_ids (data.*1) in
  maps ← read_labels_loop node_to_id label_to_id data [] [];
  let node_to_label := maps.1 in
  let label_to_node := maps.2 in
  let label_count := length (dict_keys label_to_id) in
  let labels_arr :=
    (λ index_set, map_set_to_khot_vector index_set label_count)
      <$> dict_values node_to_label in
  if negb (bool_decide (length (dict_keys (id_to_node_map self))
                        = length (dict_keys (node_to_label_map self))))
  then Raises (AssertionError "Some nodes are missing labels or ids")
  else if negb (bool_decide (length (dict_keys (id_to_label_map self))
                             = length (dict_keys (label_to_node_map self))))
  then Raises (AssertionError "Some labels are missing nodes or ids")
  else
    (* labels.shape[0], labels.shape[1] *)
    match labels_arr with
    | [] => Raises IndexError
    | _ :: _ =>
        Returns
          {| features := features self; adj := adj self;
             labels := Some labels_arr;
             graph_sparse_features := graph_sparse_features self;
             graph_model_name := graph_model_name self;
             label_to_id_map := label_to_id;
             id_to_label_map := invert_dict label_to_id;
             node_to_id_map := node_to_id;
             id_to_node_map := invert_dict node_to_id;
             label_to_node_map := label_to_node;
             node_to_label_map := node_to_label;
             edge_count := edge_count self |}
    end.

End ReadLabels.

(** ** [np_graph.Graph.read_network] *)

(** A matrix in coordinate format: the entries as given, in order,
    duplicates included. *)
Record coo_matrix : Type := CooMatrix {
  coo_rows : nat;
  coo_cols : nat;
  coo_entries : list (nat * nat * Q)
}.

(** [sp.coo_matrix((data, (row, col)), shape=(n, m))]; an index outside the
    shape is refused. *)
Definition coo_matrix_new (data : list Q) (row col : list nat) (n m : nat)
  : outcome coo_matrix :=
  if forallb (λ i, bool_decide (i < n)%nat) row
     && forallb (λ j, bool_decide (j < m)%nat) col
  then Returns (CooMatrix n m (zip (zip row col) data))
  else Raises ValueError.

(** Conversion to compressed rows, which scipy performs before any
    arithmetic: entries at the same coordinate are added up. *)
Definition coo_tocsr (A : coo_matrix) : spmatrix :=
  SpMatrix (coo_rows A) (coo_cols A)
    (foldl (λ m e, partial_alter (λ o, Some (default 0 o + e.2)) e.1 m)
           ∅ (coo_entries A)).

(** The cast of a float to [np.int32]: the fractional part is dropped
    (rounding toward zero) and the integer is reduced modulo 2^32 into the
    signed 32-bit range, so that 3e9 becomes -1294967296.  The reduction
    is the one of a 64-bit integer: for a float beyond the 64-bit range
    the result depends on the platform and is not modelled. *)
Definition int32_of_float (x : Q) : Z :=
  let t := (Qnum x ÷ Z.pos (Qden x))%Z in
  ((t + 2147483648) `mod` 4294967296 - 2147483648)%Z.

Section ReadNetwork.

(** Python's [float(s)] on a string; it raises [ValueError] on a string
    that is no number. *)
Variable py_float : string → outcome Q.

(** [self.node_to_id_map.get] mapped over the flattened array and packed
    into an [np.int32] array: a missing node gives [None], which the
    array constructor refuses. *)
Definition ids_of_nodes (ids : pydict string nat) (names : list string)
  : outcome (list nat) :=
  mapM_outcome (λ s, match dict_get s ids with
                     | Some i => Returns i
                     | None => Raises TypeError
                     end) names.

(** One row [(node_to_id_map[e[0]], node_to_id_map[e[1]], float(e[2]))]. *)
Definition weighted_edge (ids : pydict string nat) (e : list string)
  : outcome (nat * nat * Q) :=
  match e !! 0%nat with
  | None => Raises IndexError
  | Some a =>
      i ← dict_item ids a;
      match e !! 1%nat with
      | None => Raises IndexError
      | Some b =>
          j ← dict_item ids b;
          match e !! 2%nat with
          | None => Raises IndexError
          | Some w => x ← py_float w; Returns (i, j, x)
          end
      end
  end.

(** [edges] is the array of strings returned by [np.genfromtxt]: one row
    per line, every row with the same number of columns.  A file of fewer
    than two lines gives a one-dimensional array, whose [shape[1]] does
    not exist.  The node ids are small enough for [np.int32]. *)
Definition read_network (self : Graph) (edges : list (list string))
  : outcome (Graph * coo_matrix) :=
  match features self with
  | None => Raises AttributeError
  | Some feats =>
      let node_count := sp_rows feats in
      match edges with
      | [] | [_] => Raises IndexError
      | first :: _ =>
          adj_coo ←
            (if bool_decide (length first = 2%nat) then
               (* unweighted graph *)
               ids ← ids_of_nodes (node_to_id_map self) (concat edges);
               let edges_i := (λ k, (default O (ids !! (2 * k)%nat),
                                     default O (ids !! (2 * k + 1)%nat)))
                                <$> seq 0 (length edges) in
               coo_matrix_new (replicate (length edges) 1)
                 (edges_i.*1) (edges_i.*2) node_count node_count
             else
               (* weighted graph *)
               rows ← mapM_outcome (weighted_edge (node_to_id_map self)) edges;
               let edges_i := (λ r, (r.1.1, r.1.2, int32_of_float r.2)) <$> rows in
               (* reshape(edges.shape) of rows of three *)
               if bool_decide (length first = 3%nat) then
                 coo_matrix_new ((λ r, inject_Z r.2) <$> edges_i)
                   ((λ r, r.1.1) <$> edges_i) ((λ r, r.1.2) <$> edges_i)
                   node_count node_count
               else Raises ValueError);
          sym ← symmetic_adj (coo_tocsr adj_coo);
          Returns
            ({| features := features self; adj := Some sym;
                labels := labels self;
                graph_sparse_features := graph_sparse_features self;
                graph_model_name := graph_model_name self;
                label_to_id_map := label_to_id_map self;
                id_to_label_map := id_to_label_map self;
                node_to_id_map := node_to_id_map self;
                id_to_node_map := id_to_node_map self;
                label_to_node_map := label_to_node_map self;
                node_to_label_map := node_to_label_map self;
                edge_count := Z.of_nat (length edges) |},
             adj_coo)
      end
  end.

End ReadNetwork.

(** ** Python numbers *)

(** [float(n)] for a Python integer (within the range of a float). *)
Definition float_of_int (n : Z) : float :=
  SF2Prim (binary_normalize prec emax n 0 false).

(** [a / b] on Python integers (below 2^53, where the quotient of the
    converted operands is the correctly rounded one). *)
Definition py_truediv (a b : Z) : outcome float :=
  if (b =? 0)%Z then Raises ZeroDivisionError
  else Returns (float_of_int a / float_of_int b)%float.

(** [int(x)] on a Python float: rounding toward zero. *)
Definition py_int (x : float) : outcome Z :=
  match Prim2SF x with
  | S754_zero _ => Returns 0%Z
  | S754_infinity _ => Raises OverflowError
  | S754_nan => Raises ValueError
  | S754_finite s m e =>
      let v := (if 0 <=? e then Z.pos m * 2 ^ e else Z.pos m / 2 ^ (- e))%Z in
      Returns (if s then (- v)%Z else v)
  end.

(** [np.arange(a, b)] for integers *)
Definition np_arange (a b : Z) : list Z := seqZ a (b - a).

(** [l[i]] on a Python list, for [i >= 0]. *)
Definition list_item {A} (l : list A) (i : nat) : outcome A :=
  match l !! i with
  | Some x => Returns x
  | None => Raises IndexError
  end.

(** ** [data_pipeline] *)

(** [map_indices_to_mask]: [mask[indices] = 1.0] on [np.zeros(mask_size)];
    a negative index counts from the end, an index outside the array is
    refused. *)
Definition map_indices_to_mask (indices : list Z) (mask_size : Z) : outcome (list Q) :=
  if (mask_size <? 0)%Z then Raises ValueError
  else if forallb (λ i, (- mask_size <=? i)%Z && (i <? mask_size)%Z) indices
  then Returns (foldl (λ mask i, <[Z.to_nat (i `mod` mask_size) := 1]> mask)
                      (replicate (Z.to_nat mask_size) 0) indices)
  else Raises IndexError.

(** The six statements of [_populate_feed_dicts] that compute the three
    index arrays from the normalised split proportions. *)
Definition split_indices (data_size : Z) (dataset_splits : list float)
  : outcome (list Z * list Z * list Z) :=
  let current_index := 0%Z in
  s0 ← list_item dataset_splits 0;
  n0 ← py_int (float_of_int data_size * s0)%float;
  let train_index := np_arange current_index (current_index + n0) in
  let current_index := n0 in
  s1 ← list_item dataset_splits 1;
  n1 ← py_int (float_of_int data_size * s1)%float;
  let val_index := np_arange current_index (current_index + n1) in
  let current_index := n1 in
  s2 ← list_item dataset_splits 2;
  n2 ← py_int (float_of_int data_size * s2)%float;
  let test_index := np_arange current_index (current_index + n2) in
  Returns (train_index, val_index, test_index).

(** The value handed to TensorFlow for a sparse matrix. *)
Record SparseTensorValue : Type := {
  stv_indices : list (nat * nat);
  stv_values : list Q;
  stv_dense_shape : nat * nat
}.

Definition convert_sparse_matrix_to_sparse_tensor (X : spmatrix) : SparseTensorValue :=
  let coo := map_to_list (sp_data X) in
  {| stv_indices := coo.*1; stv_values := coo.*2;
     stv_dense_shape := (sp_rows X, sp_cols X) |}.

(** [X[idx]] on the rows of a sparse matrix and of a dense array. *)
Definition sp_take_rows (X : spmatrix) (idx : list nat) : outcome spmatrix :=
  if forallb (λ i, bool_decide (i < sp_rows X)%nat) idx
  then Returns (SpMatrix (length idx) (sp_cols X)
         (list_to_map
            (ri ← imap (λ r i, (r, i)) idx;
             omap (λ e, if bool_decide (e.1.1 = ri.2)
                        then Some ((ri.1, e.1.2), e.2) else None)
                  (map_to_list (sp_data X)))))
  else Raises IndexError.

Definition take_rows {A} (X : list A) (idx : list nat) : outcome (list A) :=
  mapM_outcome (list_item X) idx.

(** The placeholders created by [_placeholder_inputs]. *)
Inductive placeholder : Type :=
| labels_placeholder
| features_placeholder
| mask_placeholder
| dropout_placeholder
| support_placeholder (i : nat).

#[global] Instance placeholder_eq_dec : EqDecision placeholder.
Proof. solve_decision. Defined.

Definition placeholder_code (p : placeholder) : nat :=
  match p with
  | labels_placeholder => 0
  | features_placeholder => 1
  | mask_placeholder => 2
  | dropout_placeholder => 3
  | support_placeholder i => 4 + i
  end%nat.

Definition placeholder_of_code (n : nat) : placeholder :=
  match n with
  | 0%nat => labels_placeholder
  | 1%nat => features_placeholder
  | 2%nat => mask_placeholder
  | 3%nat => dropout_placeholder
  | S (S (S (S i))) => support_placeholder i
  end.

#[global] Instance placeholder_countable : Countable placeholder.
Proof.
  apply (inj_countable' placeholder_code placeholder_of_code).
  intros []; reflexivity.
Defined.

(** [placeholder_dict], keyed by the constants [FEATURES], [LABELS],
    [SUPPORTS], [MASK] and [DROPOUT] of [app.utils.constant]. *)
Record PlaceholderDict : Type := {
  FEATURES : placeholder;
  LABELS : placeholder;
  SUPPORTS : list placeholder;
  MASK : placeholder;
  DROPOUT : placeholder
}.

Definition _placeholder_inputs (feature_size label_size support_size : nat)
  : PlaceholderDict :=
  {| FEATURES := features_placeholder;
     LABELS := labels_placeholder;
     SUPPORTS := support_placeholder <$> seq 0 support_size;
     MASK := mask_placeholder;
     DROPOUT := dropout_placeholder |}.

(** What a feed dict holds for a placeholder. *)
Inductive feed_value : Type :=
| ArrayValue (rows : list (list Q))
| SparseValue (t : SparseTensorValue)
| VectorValue (v : list Q)
| FloatValue (x : float).

Record DataPipeline : Type := {
  graph : Graph;
  model_params : ModelParams;
  num_elements : Z;
  train_feed_dict : gmap placeholder feed_value;
  validation_feed_dict : gmap placeholder feed_value;
  test_feed_dict : gmap placeholder feed_value;
  placeholder_dict : option PlaceholderDict
}.

(** The default value of the parameter [dataset_splits]. *)
Definition default_dataset_splits : list Z := [1200; 500; 1000]%Z.

(** The first two statements of [_populate_feed_dicts]: the split weights
    divided by their sum. *)
Definition normalised_splits (dataset_splits : list Z) : outcome (list float) :=
  let dataset_splits_sum := foldr Z.add 0%Z dataset_splits in
  mapM_outcome (λ x, py_truediv x dataset_splits_sum) dataset_splits.

Section PopulateFeedDicts.

Variable np_power : Q → Q → Q.
Variable eigsh_LM : spmatrix → outcome Q.
Variable GCN_POLY : string.
(** The array left by [np.random.shuffle] on [np.arange(n)]. *)
Variable np_random_shuffle : list nat → list nat.

(** The closure [get_base_feed_dict]: a fresh dict on every call. *)
Definition get_base_feed_dict (ph : PlaceholderDict) (labels : list (list Q))
    (features : SparseTensorValue) (supports : list SparseTensorValue)
  : outcome (gmap placeholder feed_value) :=
  let feed_dict : gmap placeholder feed_value :=
    <[FEATURES ph := SparseValue features]>
      (<[LABELS ph := ArrayValue labels]> ∅) in
  foldl (λ acc i,
           d ← acc;
           p ← list_item (SUPPORTS ph) i;
           s ← list_item supports i;
           Returns (<[p := SparseValue s]> d))
        (Returns feed_dict) (seq 0 (length supports)).

Definition _populate_feed_dicts (self : DataPipeline) (dataset_splits : list Z)
  : outcome DataPipeline :=
  dataset_splits ← normalised_splits dataset_splits;
  match features (graph self), labels (graph self), adj (graph self) with
  | Some features, Some labels, Some adj =>
      supports ← compute_supports np_power eigsh_LM GCN_POLY adj (model_params self);
      let data_size := sp_rows features in
      let feature_size := sp_cols features in
      let label_size := length (default [] (head labels)) in
      let support_size := length supports in
      let num_elements :=
        if sparse_features (model_params self)
        then Z.of_nat (size (sp_data features)) else 0%Z in
      let shuffle := np_random_shuffle (seq 0 data_size) in
      features ← sp_take_rows features shuffle;
      let features := convert_sparse_matrix_to_sparse_tensor features in
      supports ← mapM_outcome
                   (λ support, match support with
                               | Some s => Returns (convert_sparse_matrix_to_sparse_tensor s)
                               | None => Raises AttributeError
                               end) supports;
      labels ← take_rows labels shuffle;
      idx ← split_indices (Z.of_nat data_size) dataset_splits;
      let train_index := idx.1.1 in
      let val_index := idx.1.2 in
      let test_index := idx.2 in
      let placeholder_dict := _placeholder_inputs feature_size label_size support_size in
      train_feed_dict ← get_base_feed_dict placeholder_dict labels features supports;
      mask ← map_indices_to_mask train_index (Z.of_nat data_size);
      let train_feed_dict := <[MASK placeholder_dict := VectorValue mask]> train_feed_dict in
      let train_feed_dict :=
        <[DROPOUT placeholder_dict := FloatValue (dropout (model_params self))]>
          train_feed_dict in
      validation_feed_dict ← get_base_feed_dict placeholder_dict labels features supports;
      mask ← map_indices_to_mask val_index (Z.of_nat data_size);
      let validation_feed_dict :=
        <[MASK placeholder_dict := VectorValue mask]> validation_feed_dict in
      let train_feed_dict :=
        <[DROPOUT placeholder_dict := FloatValue 0%float]> train_feed_dict in
      test_feed_dict ← get_base_feed_dict placeholder_dict labels features supports;
      mask ← map_indices_to_mask test_index (Z.of_nat data_size);
      let test_feed_dict := <[MASK placeholder_dict := VectorValue mask]> test_feed_dict in
      let train_feed_dict :=
        <[DROPOUT placeholder_dict := FloatValue 0%float]> train_feed_dict in
      Returns
        {| graph := graph self;
           model_params := model_params self;
           num_elements := num_elements;
           train_feed_dict := train_feed_dict;
           validation_feed_dict := validation_feed_dict;
           test_feed_dict := test_feed_dict;
           placeholder_dict := Some placeholder_dict |}
  | _, _, _ => Raises AttributeError
  end.

End PopulateFeedDicts.

(** ** TensorFlow scalars and tensors

    A float of the computation graph is an exact rational or one of the
    IEEE special values; rounding, overflow and the sign of zero are not
    modelled.  A tensor is a vector, the sequence of its elements: the
    operators below work on per-node vectors, element by element or by
    reduction over all elements. *)

Inductive tfloat : Type :=
| Finite (q : Q)
| PInf
| NInf
| NaN.

(** Equality of floats as values. *)
Definition tf_eq (x y : tfloat) : Prop :=
  match x, y with
  | Finite a, Finite b => a == b
  | PInf, PInf | NInf, NInf | NaN, NaN => True
  | _, _ => False
  end.

Definition tf_inf (negative : bool) : tfloat := if negative then NInf else PInf.

(** The sign of a float: [Some true] negative, [Some false] positive,
    [None] for zero and NaN. *)
Definition tf_sign (x : tfloat) : option bool :=
  match x with
  | Finite q =>
      match Qcompare q 0 with
      | Lt => Some true
      | Gt => Some false
      | Eq => None
      end
  | PInf => Some false
  | NInf => Some true
  | NaN => None
  end.

Definition tf_add (x y : tfloat) : tfloat :=
  match x, y with
  | NaN, _ | _, NaN => NaN
  | Finite a, Finite b => Finite (a + b)
  | PInf, NInf | NInf, PInf => NaN
  | PInf, _ | _, PInf => PInf
  | NInf, _ | _, NInf => NInf
  end.

Definition tf_mul (x y : tfloat) : tfloat :=
  match x, y with
  | NaN, _ | _, NaN => NaN
  | Finite a, Finite b => Finite (a * b)
  | _, _ =>
      match tf_sign x, tf_sign y with
      | Some sx, Some sy => tf_inf (xorb sx sy)
      | _, _ => NaN
      end
  end.

Definition tf_div (x y : tfloat) : tfloat :=
  match x, y with
  | NaN, _ | _, NaN => NaN
  | Finite a, Finite b =>
      if Qeq_bool b 0
      then match tf_sign x with
           | Some s => tf_inf s
           | None => NaN
           end
      else Finite (a / b)
  | Finite _, _ => Finite 0
  | PInf, Finite _ => match tf_sign y with
                      | Some s => tf_inf s
                      | None => PInf
                      end
  | NInf, Finite _ => match tf_sign y with
                      | Some s => tf_inf (negb s)
                      | None => NInf
                      end
  | _, _ => NaN
  end.

(** [tf.reduce_sum] and [tf.reduce_mean] over all elements. *)
Definition tf_reduce_sum (xs : list tfloat) : tfloat := foldr tf_add (Finite 0) xs.
Definition tf_reduce_mean (xs : list tfloat) : tfloat :=
  tf_div (tf_reduce_sum xs) (Finite (inject_Z (Z.of_nat (length xs)))).

(** [tf.multiply] on vectors, with broadcasting: a vector of one element
    is repeated to the size of the other operand; other operands of
    different sizes are refused. *)
Definition tf_multiply (xs ys : list tfloat) : outcome (list tfloat) :=
  if bool_decide (length xs = length ys)
  then Returns (zip_with tf_mul xs ys)
  else match xs, ys with
       | [x], _ => Returns (tf_mul x <$> ys)
       | _, [y] => Returns ((λ x, tf_mul x y) <$> xs)
       | _, _ => Raises InvalidArgumentError
       end.

(** A [tf.SparseTensor]: the positions of the stored elements, their
    values, and the number of elements of the dense tensor. *)
Record SparseTensor : Type := {
  st_indices : list nat;
  st_values : list tfloat;
  st_dense_size : nat
}.

(** [tf.sparse_reduce_sum] *)
Definition tf_sparse_reduce_sum (sp : SparseTensor) : tfloat :=
  tf_reduce_sum (st_values sp).

(** Whether a float is zero. *)
Definition tf_is_zero (x : tfloat) : bool :=
  match x with
  | Finite q => Qeq_bool q 0
  | _ => false
  end.

(** [sp / c] for a scalar [c], the kernel [SparseDenseCwiseDiv]: the
    stored values are divided.  The kernels of recent TensorFlow releases
    refuse a zero divisor as soon as a stored value meets it
    ([InvalidArgumentError], "SparseDenseCwiseDiv cannot divide by zero");
    earlier kernels divide and store NaN or an infinity.  [checks_zero]
    says which kernel is installed. *)
Definition tf_sparse_div (checks_zero : bool) (sp : SparseTensor) (c : tfloat)
  : outcome SparseTensor :=
  if checks_zero && tf_is_zero c && negb (Nat.eqb (length (st_values sp)) 0)
  then Raises InvalidArgumentError
  else Returns {| st_indices := st_indices sp;
                  st_values := (λ v, tf_div v c) <$> st_values sp;
                  st_dense_size := st_dense_size sp |}.

Fixpoint strictly_increasing (l : list nat) : bool :=
  match l with
  | [] => true
  | i :: l' =>
      match l' with
      | [] => true
      | j :: _ => bool_decide (i < j)%nat && strictly_increasing l'
      end
  end.

(** [tf.sparse_tensor_to_dense], which validates the indices: in range,
    sorted, without repeats, one per value. *)
Definition tf_sparse_tensor_to_dense (sp : SparseTensor) : outcome (list tfloat) :=
  if bool_decide (length (st_indices sp) = length (st_values sp))
     && strictly_increasing (st_indices sp)
     && forallb (λ i, bool_decide (i < st_dense_size sp)%nat) (st_indices sp)
  then Returns
         ((λ p, default (Finite 0)
                  ((list_to_map (zip (st_indices sp) (st_values sp)) : gmap nat tfloat) !! p))
            <$> seq 0 (st_dense_size sp))
  else Raises InvalidArgumentError.

(** ** [aemodel.base_model.Base_Model._loss_op] *)

Record Base_Model : Type := {
  bm_labels : list tfloat;
  outputs : list tfloat;
  positive_sample_weight : tfloat;
  mask : SparseTensor;
  mode : string;
  normalisation_constant : tfloat
}.

Section LossOp.

(** [tf.nn.weighted_cross_entropy_with_logits(targets, logits, pos_weight)] *)
Variable weighted_cross_entropy_with_logits :
  list tfloat → list tfloat → tfloat → list tfloat.
(** The constant [TRAIN] of [app.utils.constant]. *)
Variable TRAIN : string.
(** Whether the installed sparse division refuses a zero divisor. *)
Variable sparse_div_checks_zero : bool.

Definition _compute_masked_loss (self : Base_Model) (complete_loss : list tfloat)
  : outcome tfloat :=
  normalized_mask ←
    tf_sparse_div sparse_div_checks_zero (mask self) (tf_sparse_reduce_sum (mask self));
  dense ← tf_sparse_tensor_to_dense normalized_mask;
  complete_loss ← tf_multiply complete_loss dense;
  Returns (tf_reduce_sum complete_loss).

Definition _loss_op (self : Base_Model) : outcome tfloat :=
  let complete_loss :=
    weighted_cross_entropy_with_logits
      (bm_labels self) (outputs self) (positive_sample_weight self) in
  complete_loss ←
    (if bool_decide (mode self = TRAIN)
     then Returns (tf_reduce_mean complete_loss)
     else _compute_masked_loss self complete_loss);
  Returns (tf_mul complete_loss (normalisation_constant self)).

End LossOp.

(** ** Auxiliary definitions used to state the properties *)

(** The 0/1 value of the comparison [b > a]. *)
Definition gt_ind (b a : Q) : Q := if Qlt_le_dec a b then 1 else 0.

(** What [symmetic_adj] stores at a coordinate whose entry is [a] and whose
    mirrored entry is [b]: [adj + adj_t * (adj_t > adj) - adj * (adj_t > adj)]. *)
Definition merged_entry (a b : Q) : Q := a + b * gt_ind b a - a * gt_ind b a.

(** The matrix of the docstring of [symmetic_adj]: [[1, 2], [1, 1]]. *)
Definition example_adj : spmatrix :=
  SpMatrix 2 2 (list_to_map [((0, 0)%nat, 1); ((0, 1)%nat, 2);
                             ((1, 0)%nat, 1); ((1, 1)%nat, 1)]).

(** [A] is an [n] by [n] matrix. *)
Definition has_shape (n : nat) (A : spmatrix) : Prop :=
  sp_rows A = n ∧ sp_cols A = n.

(** Every matrix of [ext] is obtained from its two predecessors, starting
    with [previous] and [current], by the recurrence with operator [X]. *)
Fixpoint chebyshev_chain (X previous current : spmatrix) (ext : list spmatrix) : Prop :=
  match ext with
  | [] => True
  | next :: ext' =>
      _compute_chebyshev_recurrence current previous X = Returns next
      ∧ chebyshev_chain X current next ext'
  end.

(** A graph object whose stored maps disagree: one node id, no node with
    a label. *)
Definition inconsistent_graph : Graph :=
  {| features := None; adj := None; labels := None;
     graph_sparse_features := true; graph_model_name := "gcn";
     label_to_id_map := []; id_to_label_map := [];
     node_to_id_map := [("a", 0%nat)]; id_to_node_map := [(0%nat, "a")];
     label_to_node_map := []; node_to_label_map := [];
     edge_count := (-1)%Z |}.

(** A graph object with two nodes [a] and [b], ready for [read_network]. *)
Definition two_node_graph : Graph :=
  {| features := Some (sp_eye 2); adj := None; labels := None;
     graph_sparse_features := true; graph_model_name := "gcn";
     label_to_id_map := []; id_to_label_map := [];
     node_to_id_map := [("a", 0%nat); ("b", 1%nat)];
     id_to_node_map := [(0%nat, "a"); (1%nat, "b")];
     label_to_node_map := []; node_to_label_map := [];
     edge_count := (-1)%Z |}.

(** The weights stored in a matrix in coordinate format, in order. *)
Definition coo_weights (A : coo_matrix) : list Q := (coo_entries A).*2.

(** The positions of [a] that also occur in [b]. *)
Definition shared_positions (a b : list Z) : list Z :=
  List.filter (λ i, existsb (Z.eqb i) b) a.

(** A pipeline over a graph of four nodes with the edges 0-1 and 2-3, a
    configured dropout rate of 0.5, and its population with the split
    weights 2 : 1 : 1 (the shuffle reverses the order of the nodes). *)
Definition four_node_graph : Graph :=
  {| features := Some (sp_eye 4);
     adj := Some (SpMatrix 4 4 (list_to_map [((0, 1)%nat, 1); ((1, 0)%nat, 1);
                                             ((2, 3)%nat, 1); ((3, 2)%nat, 1)]));
     labels := Some [[1; 0]; [1; 0]; [0; 1]; [0; 1]];
     graph_sparse_features := true; graph_model_name := "gcn";
     label_to_id_map := []; id_to_label_map := [];
     node_to_id_map := []; id_to_node_map := [];
     label_to_node_map := []; node_to_label_map := [];
     edge_count := 2%Z |}.

Definition four_node_pipeline : DataPipeline :=
  {| graph := four_node_graph;
     model_params := {| model_name := "gcn"; support_size := 1;
                        sparse_features := true; dropout := 0.5%float |};
     num_elements := (-1)%Z;
     train_feed_dict := ∅; validation_feed_dict := ∅; test_feed_dict := ∅;
     placeholder_dict := None |}.

Definition four_node_populated : outcome DataPipeline :=
  _populate_feed_dicts (λ x _, x) (λ _, Returns 2) "gcn_poly" (@rev nat)
    four_node_pipeline [2; 1; 1]%Z.

Definition four_node_result : DataPipeline :=
  match four_node_populated with
  | Returns r => r
  | Raises _ => four_node_pipeline
  end.

(** The dense reading of a sparse vector of rationals: 0 where nothing is
    stored. *)
Definition dense_mask (idx : list nat) (ms : list Q) (n : nat) : list Q :=
  (λ p, default 0 ((list_to_map (zip idx ms) : gmap nat Q) !! p)) <$> seq 0 n.

(** The sparse tensors that [tf.sparse_tensor_to_dense] accepts. *)
Definition valid_sparse (sp : SparseTensor) : Prop :=
  length (st_indices sp) = length (st_values sp)
  ∧ strictly_increasing (st_indices sp) = true
  ∧ Forall (λ i, (i < st_dense_size sp)%nat) (st_indices sp).

(** A model whose per-node losses are 1 and 3, with a normalisation
    constant of 2; [mask_values] are the values stored by the mask at the
    positions 0 and 1. *)
Definition two_node_model (mode : string) (mask_values : list Q) : Base_Model :=
  {| bm_labels := [Finite 1; Finite 3];
     outputs := [Finite 0; Finite 0];
     positive_sample_weight := Finite 1;
     mask := {| st_indices := [0; 1]%nat;
                st_values := Finite <$> mask_values;
                st_dense_size := 2 |};
     mode := mode;
     normalisation_constant := Finite 2 |}.

(** A stand-in for the cross-entropy whose per-node losses are the
    targets. *)
Definition loss_of_targets (targets logits : list tfloat) (pos_weight : tfloat)
  : list tfloat := targets.

(** ** [Base_Graph.read_features]

    [file] is the array of strings that [np.genfromtxt] returns for the
    feature file (one row per line, the node first); a file of fewer than
    two lines or of a single column gives a one-dimensional array, which
    [features[:, 1:]] refuses. *)

(** The entries of a dense array, row by row. *)
Definition dense_entries (rows : list (list Q)) : list (nat * nat * Q) :=
  ir ← imap (λ i row, (i, row)) rows;
  imap (λ j x, ((ir.1, j), x)) ir.2.

(** A dense array of [n] rows and [m] columns, and its [sp.csr_matrix],
    which stores the non-zero entries only. *)
Definition dense_matrix (n m : nat) (rows : list (list Q)) : spmatrix :=
  SpMatrix n m (list_to_map (dense_entries rows)).
Definition csr_of_dense (n m : nat) (rows : list (list Q)) : spmatrix :=
  SpMatrix n m
    (list_to_map (List.filter (λ e, negb (Qeq_bool e.2 0)) (dense_entries rows))).

(** The rows of [np.identity(n)]. *)
Definition identity_rows (n : nat) : list (list Q) :=
  (λ i, (λ j, if bool_decide (i = j) then 1 else 0) <$> seq 0 n) <$> seq 0 n.

(** Whether all rows have the length of the first one. *)
Definition rectangular {A} (rows : list (list A)) : bool :=
  forallb (λ row, bool_decide (length row = length (default [] (head rows)))) rows.

(** The truth value of a path: [None] and the empty string are false. *)
Definition path_given (path : option string) : bool :=
  match path with
  | None => false
  | Some s => negb (bool_decide (s = ""))
  end.

(** The graph object with [self.features] assigned. *)
Definition set_features (self : Graph) (f : spmatrix) : Graph :=
  {| features := Some f; adj := adj self; labels := labels self;
     graph_sparse_features := graph_sparse_features self;
     graph_model_name := graph_model_name self;
     label_to_id_map := label_to_id_map self;
     id_to_label_map := id_to_label_map self;
     node_to_id_map := node_to_id_map self;
     id_to_node_map := id_to_node_map self;
     label_to_node_map := label_to_node_map self;
     node_to_label_map := node_to_label_map self;
     edge_count := edge_count self |}.

Section ReadFeatures.

(** [map_list_to_floats] of [app.utils.util], which is not among the
    sources: the floats of a row of strings. *)
Variable map_list_to_floats : list string → outcome (list Q).
(** The entry at [(i, j)] of the array drawn by [np.random.uniform]. *)
Variable np_random_uniform : nat → nat → Q.

(** The branch that reads the file:
    [np.asarray(list(map(map_list_to_floats, features[:, 1:])), dtype=np.int32)],
    made sparse when the graph keeps sparse features. *)
Definition features_of_file (sparse : bool) (file : list (list string))
  : outcome spmatrix :=
  match file with
  | (_ :: _ :: _) :: _ :: _ =>
      match mapM_outcome (λ row, map_list_to_floats (drop 1 row)) file with
      | Raises e => Raises e
      | Returns rows =>
          if rectangular rows then
            let rows := (λ row : list Q, (λ x, inject_Z (int32_of_float x)) <$> row)
                          <$> rows in
            let n := length rows in
            let m := length (default [] (head rows)) in
            Returns (if sparse then csr_of_dense n m rows else dense_matrix n m rows)
          else Raises ValueError
      end
  | _ => Raises IndexError
  end.

Definition read_features (self : Graph) (feature_data_path : option string)
    (file : list (list string)) (one_hot : bool) (dim : Z) : outcome Graph :=
  let node_count := length (dict_keys (id_to_node_map self)) in
  let generated : outcome spmatrix :=
    if path_given feature_data_path then
      features_of_file (graph_sparse_features self) file
    else if one_hot then
      let dim := node_count in
      if bool_decide (0 < dim)%nat then
        Returns (if graph_sparse_features self
                 then sp_eye dim else dense_matrix dim dim (identity_rows dim))
      else Raises (AssertionError "node count  = ")
    else
      if (dim <? 0)%Z then Raises ValueError
      else
        let dim := Z.to_nat dim in
        Returns (dense_matrix node_count dim
                   ((λ i, np_random_uniform i <$> seq 0 dim) <$> seq 0 node_count)) in
  features ← generated;
  if bool_decide (sp_rows features = node_count)
  then Returns (set_features self features)
  else Raises (AssertionError "Missing features for some nodes").

End ReadFeatures.

(** ** [Base_Graph.read_data] *)

(** [os.path.join(a, b)] on POSIX paths. *)
Definition os_path_join (a b : string) : string :=
  if String.prefix "/" b then b
  else if bool_decide (a = "") then b
  else if bool_decide (String.get (String.length a - 1) a = String.get 0 "/")
       then (a ++ b)%string
       else (a ++ "/" ++ b)%string.

(** [(_data[0], _data[1])] on an element of a one-dimensional array of
    strings: the first two characters of the string. *)
Definition char_pair (s : string) : outcome (string * string) :=
  match s with
  | String c0 (String c1 _) => Returns (String c0 EmptyString, String c1 EmptyString)
  | _ => Raises IndexError
  end.

(** The pairs [(_data[0], _data[1])] over the array read from the label
    file.  The array is two-dimensional for a file of at least two lines
    and two columns; a single line or a single column gives a
    one-dimensional array of strings, whose elements are indexed by
    character, and a single field gives a zero-dimensional array, which
    cannot be iterated. *)
Definition label_rows (rows : list (list string)) : outcome (list (string * string)) :=
  match rows with
  | [[_]] => Raises TypeError
  | [row] => mapM_outcome char_pair row
  | _ =>
      if forallb (λ row, bool_decide (length row = 1%nat)) rows
      then mapM_outcome char_pair (concat rows)
      else mapM_outcome (λ row, match row with
                                | node :: label :: _ => Returns (node, label)
                                | _ => Raises IndexError
                                end) rows
  end.

Section ReadData.

Variable set_order : list string → list string.
Variable map_list_to_floats : list string → outcome (list Q).
Variable np_random_uniform : nat → nat → Q.
Variable py_float : string → outcome Q.
(** [np.genfromtxt(path, dtype=str)]: the array of strings of the file at
    [path], or the exception raised when it cannot be read. *)
Variable np_genfromtxt : string → outcome (list (list string)).

Definition read_data (self : Graph) (data_dir dataset_name : string) : outcome Graph :=
  let data_path := os_path_join data_dir dataset_name in
  let network_path := os_path_join data_path "network.txt" in
  let label_path := os_path_join data_path "label.txt" in
  let feature_path := os_path_join data_path "feature.txt" in
  label_file ← np_genfromtxt label_path;
  data ← label_rows label_file;
  self ← read_labels set_order self data;
  feature_file ←
    (if path_given (Some feature_path) then np_genfromtxt feature_path
     else Returns []);
  self ← read_features map_list_to_floats np_random_uniform self
           (Some feature_path) feature_file false 100;
  edges ← np_genfromtxt network_path;
  r ← read_network py_float self edges;
  Returns r.1.

End ReadData.

(** ** [DataPipeline.__init__] *)

(** The keywords of a call are bound to the parameters of the function: a
    keyword that names no parameter is refused. *)
Definition bind_keywords (parameters keywords : list string) : outcome unit :=
  if forallb (λ k, bool_decide (k ∈ parameters)) keywords
  then Returns ()
  else Raises TypeError.

Section DataPipelineInit.

Variable set_order : list string → list string.
Variable map_list_to_floats : list string → outcome (list Q).
Variable np_random_uniform : nat → nat → Q.
Variable py_float : string → outcome Q.
Variable np_genfromtxt : string → outcome (list (list string)).
Variable np_power : Q → Q → Q.
Variable eigsh_LM : spmatrix → outcome Q.
Variable GCN_POLY : string.
Variable np_random_shuffle : list nat → list nat.

(** [read_data(self, data_dir=None, dataset_name=None)] is called with the
    keywords [data_dir] and [datatset_name]; neither [Graph] nor
    [Base_Graph] defines [prepare_data]. *)
Definition _populate_graph (model_params : ModelParams) (data_dir dataset_name : string)
  : outcome Graph :=
  let graph := Graph_init (model_name model_params) (sparse_features model_params) in
  _ ← bind_keywords ["data_dir"; "dataset_name"] ["data_dir"; "datatset_name"];
  graph ← read_data set_order map_list_to_floats np_random_uniform py_float
            np_genfromtxt graph data_dir dataset_name;
  Raises AttributeError.

Definition DataPipeline_init (model_params : ModelParams) (data_dir dataset_name : string)
  : outcome DataPipeline :=
  graph ← _populate_graph model_params data_dir dataset_name;
  match features graph with
  | None => Raises AttributeError
  | Some _ =>
      _populate_feed_dicts np_power eigsh_LM GCN_POLY np_random_shuffle
        {| graph := graph; model_params := model_params; num_elements := (-1)%Z;
           train_feed_dict := ∅; validation_feed_dict := ∅; test_feed_dict := ∅;
           placeholder_dict := None |}
        default_dataset_splits
  end.

End DataPipelineInit.

(** ** [Base_Model._prediction_op] and [Base_Model._accuracy_op] *)

(** [tf.greater_equal] and [tf.equal] on floats, and the cast of a boolean
    to a float. *)
Definition tf_greater_equal (x y : tfloat) : bool :=
  match x, y with
  | NaN, _ | _, NaN => false
  | Finite a, Finite b => Qle_bool b a
  | PInf, _ | _, NInf => true
  | _, _ => false
  end.

Definition tf_equal (x y : tfloat) : bool :=
  match x, y with
  | Finite a, Finite b => Qeq_bool a b
  | PInf, PInf | NInf, NInf => true
  | _, _ => false
  end.

Definition tf_cast (b : bool) : tfloat := if b then Finite 1 else Finite 0.

Section Metrics.

(** [tf.sigmoid] *)
Variable tf_sigmoid : tfloat → tfloat.
Variable TRAIN : string.
(** Whether the installed sparse division refuses a zero divisor. *)
Variable sparse_div_checks_zero : bool.

Definition _prediction_op (self : Base_Model) : list tfloat :=
  (λ o, tf_cast (tf_greater_equal (tf_sigmoid o) (Finite (1 # 2)))) <$> outputs self.

(** [predictions] is [self.predictions], assigned by [_compute_metrics]
    before the operator is built; [tf.equal] broadcasts as [tf.multiply]
    does. *)
Definition _accuracy_op (self : Base_Model) (predictions : list tfloat) : outcome tfloat :=
  correct_predictions ←
    (if bool_decide (length predictions = length (bm_labels self))
     then Returns (zip_with (λ p l, tf_cast (tf_equal p l)) predictions (bm_labels self))
     else match predictions, bm_labels self with
          | [p], ls => Returns ((λ l, tf_cast (tf_equal p l)) <$> ls)
          | ps, [l] => Returns ((λ p, tf_cast (tf_equal p l)) <$> ps)
          | _, _ => Raises InvalidArgumentError
          end);
  if bool_decide (mode self = TRAIN)
  then Returns (tf_reduce_mean correct_predictions)
  else
    normalized_mask ←
      tf_sparse_div sparse_div_checks_zero (mask self) (tf_sparse_reduce_sum (mask self));
    dense ← tf_sparse_tensor_to_dense normalized_mask;
    correct_predictions ← tf_multiply correct_predictions dense;
    Returns (tf_reduce_sum correct_predictions).

End Metrics.

(** ** Auxiliary definitions for the further properties *)

(** The scaling factor of node [k] in the renormalisation: the sum of row
    [k] of the matrix, raised to the power -1/2. *)
Definition degree_scale (np_power : Q → Q → Q) (A : spmatrix) (k : nat) : Q :=
  np_power (Qsum ((λ j, sp_get A k j) <$> seq 0 (sp_cols A))) (- (1 # 2)).

(** The entry of the identity matrix at [(i, j)]. *)
Definition identity_entry (n i j : nat) : Q :=
  if bool_decide (i = j ∧ (i < n)%nat) then 1 else 0.


(** The entry of a dense array at [(i, j)], zero outside the array. *)
Definition dense_get (rows : list (list Q)) (i j : nat) : Q :=
  default 0 (row ← rows !! i; row !! j).

(** The entry of a sparse tensor value at [(i, j)], zero where nothing is
    stored. *)
Definition stv_get (t : SparseTensorValue) (i j : nat) : Q :=
  default 0 ((list_to_map (zip (stv_indices t) (stv_values t)) : gmap (nat * nat) Q)
               !! (i, j)).

(** Whether some index of [indices] addresses position [k] of an array of
    [mask_size] elements (a negative index counts from the end). *)
Definition addressed (indices : list Z) (mask_size : Z) (k : nat) : bool :=
  existsb (λ i, Z.to_nat (i `mod` mask_size) =? k)%nat indices.

(** The indicator of the positions at which a prediction equals its
    label. *)
Definition correct (predictions labels : list tfloat) : list Q :=
  zip_with (λ p l, if tf_equal p l then 1 else 0) predictions labels.

(** The floats whose integer part fits a 64-bit integer, the domain on
    which the cast to [np.int32] is modelled. *)
Definition fits_int64 (x : Q) : Prop :=
  - 9223372036854775808 < x ∧ x < 9223372036854775808.

(** The dense reading of a sparse vector: the stored value at a stored
    position, 0 elsewhere. *)
Definition tf_dense (sp : SparseTensor) : list tfloat :=
  (λ p, default (Finite 0)
          ((list_to_map (zip (st_indices sp) (st_values sp)) : gmap nat tfloat) !! p))
    <$> seq 0 (st_dense_size sp).

(** The masked mean as the specification words it: the sum of loss times
    mask, divided by the sum of the mask. *)
Definition masked_mean (ls : list tfloat) (sp : SparseTensor) : tfloat :=
  tf_div (tf_reduce_sum (zip_with tf_mul ls (tf_dense sp))) (tf_sparse_reduce_sum sp).

(** A float that is neither infinite nor NaN. *)
Definition tf_finite (x : tfloat) : Prop :=
  match x with
  | Finite _ => True
  | _ => False
  end.

(** The sum of row [k] of a matrix. *)
Definition row_sum (A : spmatrix) (k : nat) : Q :=
  Qsum ((λ j, sp_get A k j) <$> seq 0 (sp_cols A)).

(** ** A small data set

    Two nodes [a] and [b] with the labels [l1] and [l2], two features per
    node and one edge listed in both directions. *)

Definition toy_label_data : list (string * string) :=
  [("a", "l1"); ("b", "l2"); ("a", "l2")].

Definition toy_labelled : outcome Graph :=
  read_labels remove_dups (Graph_init "gcn" true) toy_label_data.

Definition toy_labelled_graph : Graph :=
  match toy_labelled with
  | Returns g => g
  | Raises _ => Graph_init "gcn" true
  end.

(** A stand-in for the parsing of floats on the fields of the example. *)
Definition toy_float (s : string) : Q :=
  if bool_decide (s = "2.5") then 5 # 2
  else if bool_decide (s = "1") then 1
  else if bool_decide (s = "3e9") then 3000000000
  else 0.

Definition toy_floats (row : list string) : outcome (list Q) :=
  Returns (toy_float <$> row).

Definition toy_feature_file : list (list string) :=
  [["a"; "2.5"; "3e9"]; ["b"; "1"; "0"]].

(** A stand-in for [np.genfromtxt] on a directory that holds the three
    files of the data set [toy]; every other path is refused. *)
Definition toy_files (path : string) : outcome (list (list string)) :=
  if bool_decide (path = "data/toy/label.txt")
  then Returns [["a"; "l1"]; ["b"; "l2"]]
  else if bool_decide (path = "data/toy/feature.txt")
  then Returns toy_feature_file
  else if bool_decide (path = "data/toy/network.txt")
  then Returns [["a"; "b"]; ["b"; "a"]]
  else Raises ValueError.

Definition toy_data_set : outcome Graph :=
  read_data remove_dups toy_floats (λ _ _, 0) (λ s, Returns (toy_float s)) toy_files
    (Graph_init "gcn" true) "data" "toy".

Definition toy_graph : Graph :=
  match toy_data_set with
  | Returns g => g
  | Raises _ => Graph_init "gcn" true
  end.





(** The model of two nodes with the losses 1 and 3 and a normalisation
    constant of 2, with the mask given as a sparse vector. *)
Definition two_node_masked (mode : string) (mask : SparseTensor) : Base_Model :=
  {| bm_labels := [Finite 1; Finite 3];
     outputs := [Finite 0; Finite 0];
     positive_sample_weight := Finite 1;
     mask := mask;
     mode := mode;
     normalisation_constant := Finite 2 |}.

(** Masks over two nodes: one that stores nothing, one that stores two
    zeros, one whose indices are out of order, and one over three
    nodes. *)
Definition empty_mask : SparseTensor :=
  {| st_indices := []; st_values := []; st_dense_size := 2 |}.
Definition zero_mask : SparseTensor :=
  {| st_indices := [0; 1]%nat; st_values := [Finite 0; Finite 0]; st_dense_size := 2 |}.
Definition unsorted_mask : SparseTensor :=
  {| st_indices := [1; 0]%nat; st_values := [Finite 1; Finite 1]; st_dense_size := 2 |}.
Definition wide_mask : SparseTensor :=
  {| st_indices := [0; 1; 2]%nat; st_values := [Finite 1; Finite 1; Finite 1];
     st_dense_size := 3 |}.

(** The renormalisation of the matrix of the docstring, with the row sum
    itself as a stand-in for its power, and the Laplacian built from it. *)
Definition example_renormalised : spmatrix :=
  match renormalization_trick (λ x _, x) example_adj true with
  | Returns (Some R) => R
  | _ => sp_eye 0
  end.

Definition example_laplacian : spmatrix :=
  match sp_sub (get_identity 2) example_renormalised with
  | Returns L => L
  | Raises _ => sp_eye 0
  end.


(** * Properties *)

(** ** Entrywise reading of the sparse operations *)

#[global] Instance swap_coord_inj : Inj (=) (=) swap_coord.
Proof. intros [a b] [c d]; unfold swap_coord; simpl; congruence. Qed.

Lemma sp_get_transpose (A : spmatrix) (i j : nat) :
  sp_get (sp_transpose A) i j = sp_get A j i.
Proof.
  unfold sp_get, sp_transpose. cbn [sp_data].
  change (i, j) with (swap_coord (j, i)).
  rewrite (lookup_kmap swap_coord). reflexivity.
Qed.

Lemma data_zip_lookup (f : Q → Q → Q) (a b : gmap (nat * nat) Q) (k : nat * nat) :
  f 0 0 == 0 →
  default 0 (data_zip f a b !! k) == f (default 0 (a !! k)) (default 0 (b !! k)).
Proof.
  intros Hf. unfold data_zip. rewrite lookup_merge.
  destruct (a !! k), (b !! k); simpl; try reflexivity.
  symmetry; exact Hf.
Qed.

Lemma sp_binop_returns (f : Q → Q → Q) (A B : spmatrix) :
  sp_rows A = sp_rows B → sp_cols A = sp_cols B →
  sp_binop f A B
  = Returns (SpMatrix (sp_rows A) (sp_cols A) (data_zip f (sp_data A) (sp_data B))).
Proof.
  intros Hr Hc. unfold sp_binop, same_shape.
  by rewrite !bool_decide_eq_true_2.
Qed.

Lemma sp_gt_returns (A B : spmatrix) :
  sp_rows A = sp_rows B → sp_cols A = sp_cols B →
  sp_gt A B = Returns (SpMatrix (sp_rows A) (sp_cols A) (gt_data (sp_data A) (sp_data B))).
Proof.
  intros Hr Hc. unfold sp_gt, same_shape.
  by rewrite !bool_decide_eq_true_2.
Qed.

Lemma gt_data_lookup (a b : gmap (nat * nat) Q) (k : nat * nat) :
  default 0 (gt_data a b !! k) = gt_ind (default 0 (a !! k)) (default 0 (b !! k)).
Proof.
  unfold gt_data. rewrite lookup_merge. unfold gt_ind, diag_None.
  destruct (a !! k) as [x|], (b !! k) as [y|]; cbn [default];
    destruct (Qlt_le_dec _ _) as [Hlt | Hle]; try reflexivity.
  exfalso. exact (Qlt_irrefl 0 Hlt).
Qed.


Ltac shapes := cbn [sp_transpose sp_rows sp_cols]; congruence.

(** On a square matrix every shape check of [symmetic_adj] passes, and the
    entry it stores at [(i, j)] is the one written in the source. *)
Lemma symmetic_adj_entries (adj : spmatrix) :
  sp_rows adj = sp_cols adj →
  ∃ S, symmetic_adj adj = Returns S
       ∧ sp_rows S = sp_rows adj ∧ sp_cols S = sp_cols adj
       ∧ ∀ i j, sp_get S i j == merged_entry (sp_get adj i j) (sp_get adj j i).
Proof.
  intros Hsq. unfold symmetic_adj, sp_multiply, sp_add, sp_sub.
  repeat (first [ rewrite sp_gt_returns by shapes
                 | rewrite sp_binop_returns by shapes ];
          cbn [mbind outcome_bind]).
  eexists; split; [reflexivity|]. cbn [sp_rows sp_cols].
  split; [reflexivity|]. split; [reflexivity|].
  intros i j. unfold sp_get. cbn [sp_data sp_transpose].
  rewrite (data_zip_lookup Qminus) by reflexivity.
  rewrite (data_zip_lookup Qplus) by reflexivity.
  rewrite !(data_zip_lookup Qmult) by reflexivity.
  rewrite !gt_data_lookup.
  change (i, j) with (swap_coord (j, i)). rewrite !(lookup_kmap swap_coord).
  unfold merged_entry, swap_coord. cbn [fst snd]. reflexivity.
Qed.

(** A matrix that is not square is refused. *)
Lemma symmetic_adj_not_square (adj : spmatrix) :
  sp_rows adj ≠ sp_cols adj → symmetic_adj adj = Raises ValueError.
Proof.
  intros Hne. unfold symmetic_adj, sp_gt, same_shape. cbn [sp_transpose sp_rows sp_cols].
  rewrite (bool_decide_eq_false_2 (sp_cols adj = sp_rows adj)) by congruence.
  reflexivity.
Qed.

(** The example of the docstring: [[1, 2], [1, 1]] becomes
    [[1, 2], [2, 1]]. *)
Lemma symmetic_adj_docstring_example :
  ∃ S, symmetic_adj example_adj = Returns S
       ∧ sp_get S 0 0 == 1 ∧ sp_get S 0 1 == 2
       ∧ sp_get S 1 0 == 2 ∧ sp_get S 1 1 == 1.
Proof.
  eexists. split; [reflexivity|].
  repeat split; vm_compute; reflexivity.
Qed.

(** ** Symmetrisation in floating-point arithmetic *)

(** The example of the docstring in float32: [[1, 2], [1, 1]] becomes
    [[1, 2], [2, 1]]; on small integers nothing is rounded. *)
Lemma symmetic_adj_float_docstring_example :
  ∃ S, symmetic_adj_float 24 128
         (FMatrix 2 2 (list_to_map [((0, 0)%nat, float_of_Z 24 128 1);
                                    ((0, 1)%nat, float_of_Z 24 128 2);
                                    ((1, 0)%nat, float_of_Z 24 128 1);
                                    ((1, 1)%nat, float_of_Z 24 128 1)]))
       = Returns S
       ∧ fm_get S 0 0 = float_of_Z 24 128 1 ∧ fm_get S 0 1 = float_of_Z 24 128 2
       ∧ fm_get S 1 0 = float_of_Z 24 128 2 ∧ fm_get S 1 1 = float_of_Z 24 128 1.
Proof. eexists. split; [reflexivity|]. repeat split. Qed.

(** C9. The merge is computed as [adj + b - a] where [b > a], in the
    format of the matrix, and the sum is rounded before [a] is taken
    away.  On the float32 matrix of two nodes whose edge is listed with
    the weight 1 from 0 to 1 and with the weight 16777216 = 2^24 from 1
    to 0, [symmetic_adj] returns 16777215 at (0, 1) and 16777216 at
    (1, 0): the result is not symmetric, and its entry at (0, 1) is not
    the larger of the two weights.  In float64 the weights 1 and 2^53 give
    2^53 - 1 and 2^53. *)
Theorem symmetic_adj_float_not_max :
  (∃ S, symmetic_adj_float 24 128 (two_weights 24 128 1 16777216) = Returns S
        ∧ fm_get S 0 1 = float_of_Z 24 128 16777215
        ∧ fm_get S 1 0 = float_of_Z 24 128 16777216)
  ∧ (∃ S, symmetic_adj_float 53 1024 (two_weights 53 1024 1 9007199254740992)
          = Returns S
          ∧ fm_get S 0 1 = float_of_Z 53 1024 9007199254740991
          ∧ fm_get S 1 0 = float_of_Z 53 1024 9007199254740992).
Proof. split; (eexists; split; [reflexivity|]); split; reflexivity. Qed.

(** C10. On the same float32 matrix a second application changes the
    result of the first: the entry at (0, 1) is 16777215 after one
    application and 16777216 after two. *)
Theorem symmetic_adj_float_not_idempotent :
  ∃ S1 S2, symmetic_adj_float 24 128 (two_weights 24 128 1 16777216) = Returns S1
           ∧ symmetic_adj_float 24 128 S1 = Returns S2
           ∧ fm_get S1 0 1 = float_of_Z 24 128 16777215
           ∧ fm_get S2 0 1 = float_of_Z 24 128 16777216.
Proof. eexists _, _. split; [reflexivity|]. split; [reflexivity|]. split; reflexivity. Qed.

(** ** Renormalisation and Chebyshev polynomials *)

Lemma sp_dot_shape (A B : spmatrix) :
  sp_cols A = sp_rows B →
  ∃ C, sp_dot A B = Returns C ∧ sp_rows C = sp_rows A ∧ sp_cols C = sp_cols B.
Proof.
  intros H. unfold sp_dot. rewrite bool_decide_eq_true_2 by exact H.
  eexists; split; [reflexivity|]. split; reflexivity.
Qed.

Lemma sp_binop_shape (f : Q → Q → Q) (n : nat) (A B : spmatrix) :
  has_shape n A → has_shape n B →
  ∃ C, sp_binop f A B = Returns C ∧ has_shape n C.
Proof.
  intros [Ha1 Ha2] [Hb1 Hb2].
  rewrite sp_binop_returns by congruence.
  eexists; split; [reflexivity|]. split; assumption.
Qed.

Lemma length_sp_row_sums (A : spmatrix) : length (sp_row_sums A) = sp_rows A.
Proof. unfold sp_row_sums. by rewrite length_fmap, length_seq. Qed.

Lemma sp_eye_shape (n : nat) : has_shape n (sp_eye n).
Proof. split; reflexivity. Qed.

Section BaseGraphFacts.

Variable np_power : Q → Q → Q.
Variable eigsh_LM : spmatrix → outcome Q.

(** The symmetric branch succeeds on every square matrix. *)
Lemma renormalization_trick_symmetric (n : nat) (adj : spmatrix) :
  has_shape n adj →
  ∃ R, renormalization_trick np_power adj true = Returns (Some R) ∧ has_shape n R.
Proof.
  intros [Hr Hc]. unfold renormalization_trick.
  set (d := sp_diags _).
  assert (Hd : has_shape n d).
  { subst d. unfold sp_diags, has_shape. cbn [sp_rows sp_cols].
    by rewrite length_fmap, length_sp_row_sums. }
  destruct Hd as [Hd1 Hd2].
  destruct (sp_dot_shape adj d) as (ad & Had & Hadr & Hadc); [congruence|].
  rewrite Had. cbn [mbind outcome_bind].
  destruct (sp_dot_shape (sp_transpose ad) d) as (r & Hrr & Hr1 & Hr2);
    [cbn [sp_transpose sp_cols]; congruence|].
  rewrite Hrr. cbn [mbind outcome_bind mret outcome_ret].
  exists r. split; [reflexivity|].
  split; [rewrite Hr1; cbn [sp_transpose sp_rows]; congruence | congruence].
Qed.

Lemma chebyshev_recurrence_shape (n : nat) (current previous X : spmatrix) :
  has_shape n current → has_shape n previous → has_shape n X →
  ∃ next, _compute_chebyshev_recurrence current previous X = Returns next
          ∧ has_shape n next.
Proof.
  intros [Hc1 Hc2] Hp [Hx1 Hx2]. unfold _compute_chebyshev_recurrence.
  destruct (sp_dot_shape X current) as (xc & Hxc & Hr & Hc); [congruence|].
  rewrite Hxc. cbn [mbind outcome_bind]. unfold sp_sub.
  apply sp_binop_shape; [|exact Hp].
  split; cbn [sp_scale sp_rows sp_cols]; congruence.
Qed.

Lemma neg_index_snoc2 (l : list spmatrix) (previous current : spmatrix) :
  neg_index (l ++ [previous; current]) 1 = Returns current
  ∧ neg_index (l ++ [previous; current]) 2 = Returns previous.
Proof. unfold neg_index. rewrite rev_app_distr. split; reflexivity. Qed.

(** The loop appends [m] matrices, each given by the recurrence. *)
Lemma chebyshev_loop_chain (n : nat) (X : spmatrix) (m : nat) :
  has_shape n X →
  ∀ l previous current,
    has_shape n previous → has_shape n current →
    ∃ ext, chebyshev_loop m X (l ++ [previous; current])
           = Returns (l ++ [previous; current] ++ ext)
           ∧ length ext = m
           ∧ chebyshev_chain X previous current ext.
Proof.
  intros HX. induction m as [|m IH]; intros l previous current Hp Hc.
  - exists []. cbn [chebyshev_loop]. by rewrite app_nil_r.
  - cbn [chebyshev_loop].
    destruct (neg_index_snoc2 l previous current) as [-> ->].
    cbn [mbind outcome_bind].
    destruct (chebyshev_recurrence_shape n current previous X Hc Hp HX)
      as (next & Hnext & Hs).
    rewrite Hnext. cbn [mbind outcome_bind].
    replace ((l ++ [previous; current]) ++ [next])
      with ((l ++ [previous]) ++ [current; next]) by (by rewrite <- !app_assoc).
    destruct (IH (l ++ [previous]) current next Hc Hs) as (ext & Hloop & Hlen & Hchain).
    exists (next :: ext). rewrite Hloop. split; [|split].
    + f_equal. by rewrite <- !app_assoc.
    + cbn [length]. by rewrite Hlen.
    + split; assumption.
Qed.

(** Reading a chain by index: every matrix from position 2 on satisfies
    the three-term recurrence. *)
Lemma chebyshev_chain_lookup (X : spmatrix) (ext : list spmatrix) :
  ∀ previous current (i : nat),
    chebyshev_chain X previous current ext →
    (2 ≤ i < 2 + length ext)%nat →
    ∃ a b c, ([previous; current] ++ ext) !! (i - 2)%nat = Some a
             ∧ ([previous; current] ++ ext) !! (i - 1)%nat = Some b
             ∧ ([previous; current] ++ ext) !! i = Some c
             ∧ _compute_chebyshev_recurrence b a X = Returns c.
Proof.
  induction ext as [|next ext IH]; intros previous current i Hchain Hi.
  - cbn [length] in Hi. lia.
  - destruct Hchain as [Hnext Hchain].
    destruct (decide (i = 2%nat)) as [-> | Hne].
    + exists previous, current, next. repeat split; try reflexivity. exact Hnext.
    + destruct (IH current next (i - 1)%nat Hchain) as (a & b & c & Ha & Hb & Hc & Hrec).
      { cbn [length] in Hi. lia. }
      exists a, b, c. repeat split; try exact Hrec.
      * replace (i - 2)%nat with (S (i - 1 - 2)) by lia. exact Ha.
      * replace (i - 1)%nat with (S (i - 1 - 1)) by lia. exact Hb.
      * replace i with (S (i - 1)) at 1 by lia. exact Hc.
Qed.

(** On a square matrix, and when the eigensolver answers, the computation
    returns [max(2, degree + 1)] matrices: the identity, the scaled
    Laplacian, and then the matrices given by the recurrence. *)
Lemma compute_chebyshev_polynomial_returns (adj : spmatrix) (degree : Z) :
  sp_rows adj = sp_cols adj →
  (∀ M, ∃ ev, eigsh_LM M = Returns ev) →
  ∃ T1 ext,
    compute_chebyshev_polynomial np_power eigsh_LM adj degree
    = Returns ([get_identity (sp_rows adj); T1] ++ ext)
    ∧ length ext = Z.to_nat (degree - 1)
    ∧ chebyshev_chain T1 (get_identity (sp_rows adj)) T1 ext.
Proof.
  intros Hsq Heig. unfold compute_chebyshev_polynomial.
  assert (Hadj : has_shape (sp_rows adj) adj) by (split; congruence).
  destruct (renormalization_trick_symmetric _ adj Hadj) as (R & HR & HRs).
  rewrite HR. cbn [mbind outcome_bind]. unfold sp_sub.
  destruct (sp_binop_shape Qminus _ _ R (sp_eye_shape (sp_rows adj)) HRs)
    as (L & HL & HLs).
  unfold get_identity. rewrite HL. cbn [mbind outcome_bind].
  destruct (Heig L) as [ev Hev]. rewrite Hev. cbn [mbind outcome_bind].
  assert (Hscaled : has_shape (sp_rows adj) (sp_div_scalar (sp_scale 2 L) ev)).
  { destruct HLs. split; cbn [sp_div_scalar sp_scale sp_rows sp_cols]; assumption. }
  destruct (sp_binop_shape Qminus _ _ _ Hscaled (sp_eye_shape (sp_rows adj)))
    as (T1 & HT1 & HT1s).
  rewrite HT1. cbn [mbind outcome_bind].
  destruct (chebyshev_loop_chain _ T1 (Z.to_nat (degree + 1 - 2)) HT1s []
              (sp_eye (sp_rows adj)) T1 (sp_eye_shape _) HT1s)
    as (ext & Hloop & Hlen & Hchain).
  exists T1, ext. cbn [app] in Hloop. rewrite Hloop.
  split; [reflexivity|]. split; [|exact Hchain].
  rewrite Hlen. f_equal. lia.
Qed.

(** For a degree of at least 1 the list has [degree + 1] matrices
    [T_0 .. T_degree] with [T_0 = I] and, from position 2 on, the
    three-term recurrence. *)
Lemma compute_chebyshev_polynomial_degree_ge_1 (adj : spmatrix) (degree : Z) :
  sp_rows adj = sp_cols adj →
  (∀ M, ∃ ev, eigsh_LM M = Returns ev) →
  (1 ≤ degree)%Z →
  ∃ Tk T1,
    compute_chebyshev_polynomial np_power eigsh_LM adj degree = Returns Tk
    ∧ length Tk = Z.to_nat (degree + 1)
    ∧ Tk !! 0%nat = Some (get_identity (sp_rows adj))
    ∧ Tk !! 1%nat = Some T1
    ∧ ∀ i : nat, (2 ≤ i < length Tk)%nat →
        ∃ a b c, Tk !! (i - 2)%nat = Some a ∧ Tk !! (i - 1)%nat = Some b
                 ∧ Tk !! i = Some c
                 ∧ _compute_chebyshev_recurrence b a T1 = Returns c.
Proof.
  intros Hsq Heig Hdeg.
  destruct (compute_chebyshev_polynomial_returns adj degree Hsq Heig)
    as (T1 & ext & Hret & Hlen & Hchain).
  exists ([get_identity (sp_rows adj); T1] ++ ext), T1.
  split; [exact Hret|]. split; [|split; [reflexivity|split; [reflexivity|]]].
  - rewrite length_app, Hlen. cbn [length]. lia.
  - intros i Hi. rewrite length_app in Hi. cbn [length] in Hi.
    apply chebyshev_chain_lookup; [exact Hchain | lia].
Qed.

(** C3 (degree 0). For every square adjacency matrix, when the
    eigensolver answers, [compute_chebyshev_polynomial] with [degree = 0]
    returns a list of two matrices, the identity followed by the scaled
    Laplacian, and not the one-element list [[I]]. *)
Theorem compute_chebyshev_polynomial_degree_0 (adj : spmatrix) :
  sp_rows adj = sp_cols adj →
  (∀ M, ∃ ev, eigsh_LM M = Returns ev) →
  ∃ Tk T1,
    compute_chebyshev_polynomial np_power eigsh_LM adj 0 = Returns Tk
    ∧ Tk = [get_identity (sp_rows adj); T1]
    ∧ length Tk = 2%nat.
Proof.
  intros Hsq Heig.
  destruct (compute_chebyshev_polynomial_returns adj 0 Hsq Heig)
    as (T1 & ext & Hret & Hlen & _).
  destruct ext as [|? ?]; [|cbn in Hlen; lia].
  exists [get_identity (sp_rows adj); T1], T1.
  split; [exact Hret|]. split; reflexivity.
Qed.

(** C7. For every adjacency matrix, [renormalization_trick] called with
    [symmetric = False] raises nothing: it returns [None], and no matrix
    is computed. *)
Theorem renormalization_trick_asymmetric (adj : spmatrix) :
  renormalization_trick np_power adj false = Returns None.
Proof. reflexivity. Qed.

End BaseGraphFacts.

Lemma compute_chebyshev_polynomial_degree_0_witness :
  ∃ Tk T1,
    compute_chebyshev_polynomial (λ x _, x) (λ _, Returns 2) example_adj 0 = Returns Tk
    ∧ Tk = [get_identity (sp_rows example_adj); T1]
    ∧ length Tk = 2%nat.
Proof.
  apply (compute_chebyshev_polynomial_degree_0 (λ x _, x) (λ _, Returns 2) example_adj).
  - reflexivity.
  - intros M. exists 2. reflexivity.
Defined.

(** C7, at the matrix of the docstring: the call with [symmetric = False]
    returns [None] where the claim expects an error. *)
Lemma renormalization_trick_asymmetric_example :
  renormalization_trick (λ x _, x) example_adj false = Returns None.
Proof. reflexivity. Qed.

(** ** Dictionaries *)

Section PyDictFacts.
Context {K V : Type} `{EqDecision K}.

Lemma dict_get_set_eq (k : K) (v : V) (d : pydict K V) :
  dict_get k (dict_set k v d) = Some v.
Proof.
  induction d as [|[k' v'] d IH]; cbn [dict_set dict_get].
  - by rewrite decide_True.
  - destruct (decide (k = k')) as [->|Hne]; cbn [dict_get].
    + by rewrite decide_True.
    + by rewrite decide_False.
Qed.

Lemma dict_get_set_ne (k k0 : K) (v : V) (d : pydict K V) :
  k ≠ k0 → dict_get k (dict_set k0 v d) = dict_get k d.
Proof.
  intros Hne. induction d as [|[k' v'] d IH]; cbn [dict_set dict_get].
  - by rewrite decide_False.
  - destruct (decide (k0 = k')) as [->|Hne']; cbn [dict_get].
    + by rewrite !decide_False.
    + destruct (decide (k = k')); [reflexivity | exact IH].
Qed.

Lemma dict_get_set_is_Some (k k0 : K) (v : V) (d : pydict K V) :
  is_Some (dict_get k d) → is_Some (dict_get k (dict_set k0 v d)).
Proof.
  intros Hs. destruct (decide (k = k0)) as [->|Hne].
  - rewrite dict_get_set_eq. by eexists.
  - by rewrite dict_get_set_ne.
Qed.

End PyDictFacts.

(** ** Reading the labels *)

Section ReadLabelsFacts.

Variable set_order : list string → list string.
(** Iterating over [set(xs)] visits every element of [xs]. *)
Hypothesis set_order_complete : ∀ xs x, x ∈ xs → x ∈ set_order xs.

Lemma enumerate_fold_is_Some (x : string) (l : list (nat * string)) :
  ∀ d : pydict string nat,
    x ∈ l.*2 ∨ is_Some (dict_get x d) →
    is_Some (dict_get x (foldl (λ d ix, dict_set ix.2 ix.1 d) d l)).
Proof.
  induction l as [|[i y] l IH]; intros d Hx; cbn [foldl].
  - destruct Hx as [Hx|Hx]; [|exact Hx]. by apply elem_of_nil in Hx.
  - apply IH. cbn [fmap list_fmap snd] in Hx. cbn [fst snd].
    destruct Hx as [Hx|Hx].
    + apply elem_of_cons in Hx as [->|Hx]; [right|left; exact Hx].
      rewrite dict_get_set_eq. by eexists.
    + right. by apply dict_get_set_is_Some.
Qed.

Lemma imap_snd (f : nat → string → nat * string) (l : list string) :
  (∀ i y, (f i y).2 = y) → (imap f l).*2 = l.
Proof.
  revert f. induction l as [|y l IH]; intros f Hf; [reflexivity|].
  cbn [imap fmap list_fmap]. f_equal; [apply Hf|].
  apply IH. intros i z. apply Hf.
Qed.

Lemma enumerate_ids_is_Some (xs : list string) (x : string) :
  x ∈ xs → is_Some (dict_get x (enumerate_ids set_order xs)).
Proof.
  intros Hx. unfold enumerate_ids. apply enumerate_fold_is_Some. left.
  rewrite imap_snd by reflexivity. by apply set_order_complete.
Qed.

(** The loop over the rows never fails: every node and every label of the
    file has an id. *)
Lemma read_labels_loop_returns (node_ids label_ids : pydict string nat)
    (data : list (string * string)) :
  (∀ n l, (n, l) ∈ data →
          is_Some (dict_get n node_ids) ∧ is_Some (dict_get l label_ids)) →
  ∀ m1 m2, ∃ r, read_labels_loop node_ids label_ids data m1 m2 = Returns r.
Proof.
  induction data as [|[n l] data IH]; intros Hids m1 m2; cbn [read_labels_loop].
  - by eexists.
  - destruct (Hids n l) as [[i Hi] [j Hj]]; [by left|].
    unfold dict_item. rewrite Hi, Hj. cbn [mbind outcome_bind].
    apply IH. intros n' l' Hin. apply Hids. by right.
Qed.

Lemma read_labels_loop_no_assertion (node_ids label_ids : pydict string nat)
    (data : list (string * string)) :
  ∀ m1 m2 msg,
    read_labels_loop node_ids label_ids data m1 m2 ≠ Raises (AssertionError msg).
Proof.
  induction data as [|[n l] data IH]; intros m1 m2 msg; cbn [read_labels_loop].
  - discriminate.
  - unfold dict_item.
    destruct (dict_get n _); cbn [mbind outcome_bind]; [|discriminate].
    destruct (dict_get l _); cbn [mbind outcome_bind]; [|discriminate].
    apply IH.
Qed.

(** The assertions read the attributes of the object as they are when
    they are evaluated, before the maps built from the file are assigned:
    [read_labels] fails with an assertion error whenever the number of
    node ids held by the graph object disagrees with the number of nodes
    it holds a label set for, or the number of label ids with the number
    of labels it holds a node set for, whatever the label file. *)
Lemma read_labels_assertion_failure (self : Graph) (data : list (string * string)) :
  (2 ≤ length data)%nat →
  length (dict_keys (id_to_node_map self)) ≠ length (dict_keys (node_to_label_map self))
  ∨ length (dict_keys (id_to_label_map self)) ≠ length (dict_keys (label_to_node_map self)) →
  ∃ msg, read_labels set_order self data = Raises (AssertionError msg).
Proof.
  intros _ Hdis. unfold read_labels.
  destruct (read_labels_loop_returns
              (enumerate_ids set_order data.*1) (enumerate_ids set_order data.*2) data)
    with (m1 := @nil (nat * gset nat)) (m2 := @nil (nat * gset nat)) as [r Hr].
  { intros n l Hin. split; apply enumerate_ids_is_Some.
    - by apply (list_elem_of_fmap_2 fst) in Hin.
    - by apply (list_elem_of_fmap_2 snd) in Hin. }
  rewrite Hr. cbn [mbind outcome_bind].
  destruct (decide (length (dict_keys (id_to_node_map self))
                    = length (dict_keys (node_to_label_map self)))) as [Heq|Hne].
  - rewrite (bool_decide_eq_true_2 _ Heq). cbn [negb].
    destruct Hdis as [Hdis|Hdis]; [contradiction|].
    rewrite (bool_decide_eq_false_2 _ Hdis). cbn [negb]. by eexists.
  - rewrite (bool_decide_eq_false_2 _ Hne). cbn [negb]. by eexists.
Qed.

(** When both pairs of counts agree, as on a graph object that was just
    created, neither assertion fails. *)
Lemma read_labels_assertions_pass (self : Graph) (data : list (string * string)) (msg : string) :
  length (dict_keys (id_to_node_map self)) = length (dict_keys (node_to_label_map self)) →
  length (dict_keys (id_to_label_map self)) = length (dict_keys (label_to_node_map self)) →
  read_labels set_order self data ≠ Raises (AssertionError msg).
Proof.
  intros H1 H2. unfold read_labels.
  destruct (read_labels_loop _ _ _ _ _) as [r|e] eqn:Hloop; cbn [mbind outcome_bind].
  - rewrite (bool_decide_eq_true_2 _ H1), (bool_decide_eq_true_2 _ H2). cbn [negb].
    destruct (_ <$> dict_values _); discriminate.
  - intros Heq. injection Heq as ->.
    exact (read_labels_loop_no_assertion _ _ _ _ _ _ Hloop).
Qed.

End ReadLabelsFacts.

(** On an object whose maps were set by hand to disagree, every label
    file is refused. *)
Lemma read_labels_assertion_failure_example :
  ∃ msg, read_labels remove_dups inconsistent_graph [("a", "l1"); ("b", "l2")]
         = Raises (AssertionError msg).
Proof. by eexists. Qed.

(** ** The maps written by [read_labels] *)

Section PyDictKeys.
Context {K V : Type} `{EqDecision K}.

Lemma elem_of_dict_keys_set (k k0 : K) (v : V) (d : pydict K V) :
  k ∈ dict_keys (dict_set k0 v d) ↔ k = k0 ∨ k ∈ dict_keys d.
Proof.
  unfold dict_keys. induction d as [|[k' v'] d IH]; cbn [dict_set fmap list_fmap fst].
  - rewrite list_elem_of_singleton, elem_of_nil. tauto.
  - destruct (decide (k0 = k')) as [->|Hne]; cbn [fmap list_fmap fst].
    + rewrite !elem_of_cons. tauto.
    + rewrite !elem_of_cons, IH. tauto.
Qed.

Lemma dict_set_NoDup (k : K) (v : V) (d : pydict K V) :
  NoDup (dict_keys d) → NoDup (dict_keys (dict_set k v d)).
Proof.
  unfold dict_keys. induction d as [|[k' v'] d IH]; cbn [dict_set fmap list_fmap fst].
  - intros _. apply NoDup_singleton.
  - rewrite NoDup_cons. intros [Hnot Hnd].
    destruct (decide (k = k')) as [->|Hne]; cbn [fmap list_fmap fst].
    + by apply NoDup_cons.
    + apply NoDup_cons. split; [|by apply IH].
      intros Hin. apply (elem_of_dict_keys_set k' k v d) in Hin as [->|Hin]; eauto.
Qed.

Lemma dict_get_Some_elem (k : K) (v : V) (d : pydict K V) :
  dict_get k d = Some v → (k, v) ∈ d.
Proof.
  induction d as [|[k' v'] d IH]; cbn [dict_get]; [discriminate|].
  destruct (decide (k = k')) as [->|Hne].
  - intros [= ->]. by left.
  - intros Hget. right. by apply IH.
Qed.

Lemma elem_dict_get_Some (k : K) (v : V) (d : pydict K V) :
  NoDup (dict_keys d) → (k, v) ∈ d → dict_get k d = Some v.
Proof.
  unfold dict_keys. induction d as [|[k' v'] d IH]; cbn [dict_get fmap list_fmap fst].
  - intros _ Hin. by apply elem_of_nil in Hin.
  - rewrite NoDup_cons. intros [Hnot Hnd] Hin.
    apply elem_of_cons in Hin as [[= -> ->]|Hin].
    + by rewrite decide_True.
    + destruct (decide (k = k')) as [->|Hne]; [|by apply IH].
      exfalso. apply Hnot. by apply (list_elem_of_fmap_2 fst) in Hin.
Qed.

End PyDictKeys.

Lemma invert_dict_keys {K V} `{EqDecision V} (d : pydict K V) :
  NoDup (dict_keys (invert_dict d))
  ∧ ∀ v, v ∈ dict_keys (invert_dict d) ↔ v ∈ dict_values d.
Proof.
  unfold invert_dict.
  assert (Hgen : ∀ acc : pydict V K,
             NoDup (dict_keys acc) →
             NoDup (dict_keys (foldl (λ acc kv, dict_set kv.2 kv.1 acc) acc d))
             ∧ ∀ v, v ∈ dict_keys (foldl (λ acc kv, dict_set kv.2 kv.1 acc) acc d)
                    ↔ v ∈ dict_keys acc ∨ v ∈ dict_values d).
  { induction d as [|[k x] d IH]; intros acc Hacc; cbn [foldl].
    - split; [exact Hacc|]. intros v. unfold dict_values.
      cbn [fmap list_fmap]. rewrite elem_of_nil. tauto.
    - destruct (IH (dict_set x k acc)) as [Hnd Hkeys]; [by apply dict_set_NoDup|].
      split; [exact Hnd|]. intros v. rewrite Hkeys, elem_of_dict_keys_set.
      unfold dict_values. cbn [fmap list_fmap snd]. rewrite elem_of_cons. tauto. }
  destruct (Hgen []) as [Hnd Hkeys]; [apply NoDup_nil_2|].
  split; [exact Hnd|]. intros v. rewrite Hkeys. unfold dict_keys at 1.
  cbn [fmap list_fmap]. rewrite elem_of_nil. tauto.
Qed.

Section ReadLabelsMaps.

Variable set_order : list string → list string.
(** Iterating over [set(xs)] visits elements of [xs] only. *)
Hypothesis set_order_sound : ∀ xs x, x ∈ set_order xs → x ∈ xs.

Lemma enumerate_ids_keys (xs : list string) :
  NoDup (dict_keys (enumerate_ids set_order xs))
  ∧ ∀ x, x ∈ dict_keys (enumerate_ids set_order xs) → x ∈ xs.
Proof.
  unfold enumerate_ids.
  assert (Hgen : ∀ (l : list (nat * string)) (acc : pydict string nat),
             NoDup (dict_keys acc) →
             NoDup (dict_keys (foldl (λ d ix, dict_set ix.2 ix.1 d) acc l))
             ∧ ∀ x, x ∈ dict_keys (foldl (λ d ix, dict_set ix.2 ix.1 d) acc l)
                    → x ∈ dict_keys acc ∨ x ∈ l.*2).
  { induction l as [|[i y] l IH]; intros acc Hacc; cbn [foldl].
    - split; [exact Hacc|]. intros x Hx. by left.
    - destruct (IH (dict_set y i acc)) as [Hnd Hkeys]; [by apply dict_set_NoDup|].
      split; [exact Hnd|]. intros x Hx.
      apply Hkeys in Hx as [Hx|Hx].
      + apply elem_of_dict_keys_set in Hx as [->|Hx]; [right; by left | by left].
      + right. by right. }
  destruct (Hgen (imap (λ i x, (i, x)) (set_order xs)) []) as [Hnd Hkeys];
    [apply NoDup_nil_2|].
  split; [exact Hnd|]. intros x Hx. apply Hkeys in Hx as [Hx|Hx].
  - by apply elem_of_nil in Hx.
  - rewrite imap_snd in Hx by reflexivity. by apply set_order_sound.
Qed.

(** The keys added by the loop are the ids of the nodes, and of the
    labels, that occur in the rows. *)
Lemma read_labels_loop_keys (node_ids label_ids : pydict string nat)
    (data : list (string * string)) :
  ∀ m1 m2 r1 r2,
    read_labels_loop node_ids label_ids data m1 m2 = Returns (r1, r2) →
    NoDup (dict_keys m1) → NoDup (dict_keys m2) →
    NoDup (dict_keys r1) ∧ NoDup (dict_keys r2)
    ∧ (∀ i, i ∈ dict_keys r1 ↔
            i ∈ dict_keys m1 ∨ ∃ n l, (n, l) ∈ data ∧ dict_get n node_ids = Some i)
    ∧ (∀ j, j ∈ dict_keys r2 ↔
            j ∈ dict_keys m2 ∨ ∃ n l, (n, l) ∈ data ∧ dict_get l label_ids = Some j).
Proof.
  induction data as [|[n l] data IH]; intros m1 m2 r1 r2; cbn [read_labels_loop].
  - intros [= <- <-] H1 H2. repeat split; try assumption; try tauto.
    + intros [?|(? & ? & Hin & _)]; [assumption | by apply elem_of_nil in Hin].
    + intros [?|(? & ? & Hin & _)]; [assumption | by apply elem_of_nil in Hin].
  - unfold dict_item.
    destruct (dict_get n node_ids) as [node|] eqn:Hn; cbn [mbind outcome_bind];
      [|discriminate].
    destruct (dict_get l label_ids) as [label|] eqn:Hl; cbn [mbind outcome_bind];
      [|discriminate].
    intros Hloop H1 H2.
    apply IH in Hloop as (Hr1 & Hr2 & Hk1 & Hk2);
      [|by apply dict_set_NoDup..].
    split; [exact Hr1|]. split; [exact Hr2|]. split.
    + intros i. rewrite Hk1. unfold add_to_set. rewrite elem_of_dict_keys_set. split.
      * intros [[->|Hi]|(n' & l' & Hin & Hget)].
        -- right. exists n, l. split; [by left | exact Hn].
        -- by left.
        -- right. exists n', l'. split; [by right | exact Hget].
      * intros [Hi|(n' & l' & Hin & Hget)]; [by left; right|].
        apply elem_of_cons in Hin as [[= -> ->]|Hin].
        -- left. left. congruence.
        -- right. by exists n', l'.
    + intros j. rewrite Hk2. unfold add_to_set. rewrite elem_of_dict_keys_set. split.
      * intros [[->|Hj]|(n' & l' & Hin & Hget)].
        -- right. exists n, l. split; [by left | exact Hl].
        -- by left.
        -- right. exists n', l'. split; [by right | exact Hget].
      * intros [Hj|(n' & l' & Hin & Hget)]; [by left; right|].
        apply elem_of_cons in Hin as [[= -> ->]|Hin].
        -- left. left. congruence.
        -- right. by exists n', l'.
Qed.

(** The sizes compared by the two assertions agree on the maps that
    [read_labels] writes to the object: after a successful call there are
    as many node ids as nodes with a label set, and as many label ids as
    labels with a node set. *)
Lemma read_labels_maps_consistent (self g : Graph) (data : list (string * string)) :
  read_labels set_order self data = Returns g →
  length (dict_keys (id_to_node_map g)) = length (dict_keys (node_to_label_map g))
  ∧ length (dict_keys (id_to_label_map g)) = length (dict_keys (label_to_node_map g)).
Proof.
  unfold read_labels.
  destruct (read_labels_loop _ _ _ _ _) as [[r1 r2]|e] eqn:Hloop;
    cbn [mbind outcome_bind]; [|discriminate].
  destruct (negb _); [discriminate|]. destruct (negb _); [discriminate|].
  destruct (_ <$> dict_values _) as [|row rows]; [discriminate|]. intros [= <-].
  cbn [id_to_node_map node_to_label_map id_to_label_map label_to_node_map fst snd].
  apply read_labels_loop_keys in Hloop as (Hr1 & Hr2 & Hk1 & Hk2);
    [|apply NoDup_nil_2..].
  destruct (enumerate_ids_keys data.*1) as [Hnd1 Hsub1].
  destruct (enumerate_ids_keys data.*2) as [Hnd2 Hsub2].
  split; apply Permutation_length, NoDup_Permutation;
    try assumption; try apply invert_dict_keys.
  - intros i. rewrite (proj2 (invert_dict_keys _)), Hk1. split.
    + intros Hi. right. apply list_elem_of_fmap in Hi as ([x i'] & -> & Hin).
      assert (Hx : x ∈ data.*1).
      { apply Hsub1. by apply (list_elem_of_fmap_2 fst) in Hin. }
      apply list_elem_of_fmap in Hx as ([n l] & -> & Hdata).
      exists n, l. split; [exact Hdata|]. by apply elem_dict_get_Some.
    + intros [Hi|(n & l & _ & Hget)]; [by apply elem_of_nil in Hi|].
      apply dict_get_Some_elem in Hget. by apply (list_elem_of_fmap_2 snd) in Hget.
  - intros j. rewrite (proj2 (invert_dict_keys _)), Hk2. split.
    + intros Hj. right. apply list_elem_of_fmap in Hj as ([x j'] & -> & Hin).
      assert (Hx : x ∈ data.*2).
      { apply Hsub2. by apply (list_elem_of_fmap_2 fst) in Hin. }
      apply list_elem_of_fmap in Hx as ([n l] & -> & Hdata).
      exists n, l. split; [exact Hdata|]. by apply elem_dict_get_Some.
    + intros [Hj|(n & l & _ & Hget)]; [by apply elem_of_nil in Hj|].
      apply dict_get_Some_elem in Hget. by apply (list_elem_of_fmap_2 snd) in Hget.
Qed.

End ReadLabelsMaps.

(** ** Reading the network *)

Lemma mapM_outcome_length {A B} (f : A → outcome B) (xs : list A) (ys : list B) :
  mapM_outcome f xs = Returns ys → length ys = length xs.
Proof.
  revert ys. induction xs as [|x xs IH]; intros ys; cbn [mapM_outcome].
  - intros [= <-]. reflexivity.
  - destruct (f x) as [y|e]; cbn [mbind outcome_bind]; [|discriminate].
    destruct (mapM_outcome f xs) as [ys'|e]; cbn [mbind outcome_bind]; [|discriminate].
    intros [= <-]. cbn [length]. f_equal. by apply IH.
Qed.

Lemma coo_matrix_new_weights (data : list Q) (row col : list nat) (n m : nat)
    (A : coo_matrix) :
  length row = length data → length col = length data →
  coo_matrix_new data row col n m = Returns A →
  coo_weights A = data.
Proof.
  intros Hr Hc. unfold coo_matrix_new.
  destruct (_ && _); [|discriminate]. intros [= <-].
  unfold coo_weights. cbn [coo_entries].
  apply snd_zip. rewrite length_zip. lia.
Qed.

Section ReadNetworkFacts.

Variable py_float : string → outcome Q.

(** For a two-column edge list the matrix returned by [read_network]
    (the one built before symmetrisation) stores the weight 1 for each
    edge. *)
Lemma read_network_unweighted (self : Graph) (edges : list (list string))
    (g : Graph) (A : coo_matrix) :
  length <$> head edges = Some 2%nat →
  read_network py_float self edges = Returns (g, A) →
  coo_weights A = replicate (length edges) 1.
Proof.
  intros Hcols. unfold read_network.
  destruct (features self) as [feats|]; [|discriminate].
  destruct edges as [|first [|second rest]]; try discriminate.
  cbn [head fmap option_fmap option_map] in Hcols. injection Hcols as Hcols.
  rewrite (bool_decide_eq_true_2 _ Hcols).
  destruct (ids_of_nodes _ _) as [ids|e]; cbn [mbind outcome_bind]; [|discriminate].
  destruct (coo_matrix_new _ _ _ _ _) as [adj_coo|e] eqn:Hcoo;
    cbn [mbind outcome_bind]; [|discriminate].
  destruct (symmetic_adj _) as [sym|e]; cbn [mbind outcome_bind]; [|discriminate].
  intros [= _ <-].
  apply coo_matrix_new_weights in Hcoo; [exact Hcoo| |];
    by rewrite length_fmap, length_fmap, length_seq, length_replicate.
Qed.

(** For a three-column edge list the stored weight of each edge is the
    parsed float cut down to an integer by the [np.int32] array. *)
Lemma read_network_weighted (self : Graph) (edges : list (list string))
    (g : Graph) (A : coo_matrix) :
  length <$> head edges = Some 3%nat →
  read_network py_float self edges = Returns (g, A) →
  ∃ rows, mapM_outcome (weighted_edge py_float (node_to_id_map self)) edges = Returns rows
          ∧ coo_weights A = (λ r, inject_Z (int32_of_float r.2)) <$> rows.
Proof.
  intros Hcols. unfold read_network.
  destruct (features self) as [feats|]; [|discriminate].
  destruct edges as [|first [|second rest]]; try discriminate.
  cbn [head fmap option_fmap option_map] in Hcols. injection Hcols as Hcols.
  rewrite (bool_decide_eq_false_2 (length first = 2%nat)) by lia.
  destruct (mapM_outcome _ _) as [rows|e]; cbn [mbind outcome_bind]; [|discriminate].
  rewrite (bool_decide_eq_true_2 _ Hcols).
  destruct (coo_matrix_new _ _ _ _ _) as [adj_coo|e] eqn:Hcoo;
    cbn [mbind outcome_bind]; [|discriminate].
  destruct (symmetic_adj _) as [sym|e]; cbn [mbind outcome_bind]; [|discriminate].
  intros [= _ <-]. exists rows. split; [reflexivity|].
  apply coo_matrix_new_weights in Hcoo; [|by rewrite !length_fmap..].
  rewrite Hcoo. rewrite <- list_fmap_compose. reflexivity.
Qed.

(** C5 (three columns). On the two-node graph, an edge list whose third
    column reads "2.5" (parsed by [float] as 5/2) is stored with the
    weight 2: the fractional part is lost. *)
Theorem read_network_truncates_weight :
  py_float "2.5" = Returns (5 # 2) →
  ∃ g, read_network py_float two_node_graph [["a"; "b"; "2.5"]; ["b"; "a"; "2.5"]]
       = Returns (g, CooMatrix 2 2 [((0, 1)%nat, 2); ((1, 0)%nat, 2)]).
Proof.
  intros Hfloat. unfold read_network, weighted_edge, dict_item.
  cbn [features two_node_graph node_to_id_map mapM_outcome lookup list_lookup
       dict_get length].
  rewrite !Hfloat. vm_compute. eexists. reflexivity.
Qed.

End ReadNetworkFacts.

(** A two-column edge list on the two-node graph: both edges are stored
    with the weight 1. *)
Lemma read_network_unweighted_example :
  ∃ g, read_network (λ _, Raises ValueError) two_node_graph [["a"; "b"]; ["b"; "a"]]
       = Returns (g, CooMatrix 2 2 [((0, 1)%nat, 1); ((1, 0)%nat, 1)]).
Proof. vm_compute. eexists. reflexivity. Qed.

Lemma read_network_truncates_weight_witness :
  ∃ g, read_network (λ _, Returns (5 # 2)) two_node_graph
         [["a"; "b"; "2.5"]; ["b"; "a"; "2.5"]]
       = Returns (g, CooMatrix 2 2 [((0, 1)%nat, 2); ((1, 0)%nat, 2)]).
Proof. apply (read_network_truncates_weight (λ _, Returns (5 # 2))). reflexivity. Defined.

(** ** Populating the feed dicts *)

(** C1 (default split). For 2700 nodes and the default weights
    [1200, 500, 1000] the three index arrays have the sizes 1200, 500 and
    1000, but they are not disjoint: the test block starts at position 500
    instead of 1700, so it shares 700 positions with the train block and
    300 with the validation block. *)
Theorem split_indices_default_overlap :
  (props ← normalised_splits default_dataset_splits; split_indices 2700 props)
  = Returns (np_arange 0 1200, np_arange 1200 1700, np_arange 500 1500)
  ∧ shared_positions (np_arange 0 1200) (np_arange 500 1500) = np_arange 500 1200
  ∧ shared_positions (np_arange 1200 1700) (np_arange 500 1500) = np_arange 1200 1500.
Proof. split; [|split]; vm_compute; reflexivity. Qed.

(** Whenever the index arrays are computed, with the sizes [n0], [n1] and
    [n2] of the three blocks, the train block starts at 0 and the
    validation block where the train block ends, but the test block
    starts at [n1], the size of the validation block. *)
Lemma split_indices_blocks (data_size : Z) (dataset_splits : list float)
    (train_index val_index test_index : list Z) :
  split_indices data_size dataset_splits
  = Returns (train_index, val_index, test_index) →
  ∃ s0 s1 s2 n0 n1 n2,
    dataset_splits !! 0%nat = Some s0
    ∧ dataset_splits !! 1%nat = Some s1
    ∧ dataset_splits !! 2%nat = Some s2
    ∧ py_int (float_of_int data_size * s0)%float = Returns n0
    ∧ py_int (float_of_int data_size * s1)%float = Returns n1
    ∧ py_int (float_of_int data_size * s2)%float = Returns n2
    ∧ train_index = np_arange 0 n0
    ∧ val_index = np_arange n0 (n0 + n1)
    ∧ test_index = np_arange n1 (n1 + n2).
Proof.
  unfold split_indices, list_item.
  destruct (dataset_splits !! 0%nat) as [s0|]; cbn [mbind outcome_bind]; [|discriminate].
  destruct (py_int (float_of_int data_size * s0)) as [n0|] eqn:H0;
    cbn [mbind outcome_bind]; [|discriminate].
  destruct (dataset_splits !! 1%nat) as [s1|]; cbn [mbind outcome_bind]; [|discriminate].
  destruct (py_int (float_of_int data_size * s1)) as [n1|] eqn:H1;
    cbn [mbind outcome_bind]; [|discriminate].
  destruct (dataset_splits !! 2%nat) as [s2|]; cbn [mbind outcome_bind]; [|discriminate].
  destruct (py_int (float_of_int data_size * s2)) as [n2|] eqn:H2;
    cbn [mbind outcome_bind]; [|discriminate].
  intros [= <- <- <-]. exists s0, s1, s2, n0, n1, n2.
  rewrite Z.add_0_l. do 8 (split; [first [reflexivity | assumption]|]). reflexivity.
Qed.

(** Every placeholder created for the supports is a support placeholder. *)
Lemma SUPPORTS_lookup (a b c i : nat) (p : placeholder) :
  SUPPORTS (_placeholder_inputs a b c) !! i = Some p → p ≠ dropout_placeholder.
Proof.
  cbn [SUPPORTS _placeholder_inputs]. rewrite list_lookup_fmap.
  destruct (seq 0 c !! i); cbn; [|discriminate]. intros [= <-]. discriminate.
Qed.

(** The base feed dict has no entry for the dropout placeholder. *)
Lemma get_base_feed_dict_no_dropout (a b c : nat) (labels : list (list Q))
    (features : SparseTensorValue) (supports : list SparseTensorValue)
    (d : gmap placeholder feed_value) :
  get_base_feed_dict (_placeholder_inputs a b c) labels features supports = Returns d →
  d !! dropout_placeholder = None.
Proof.
  unfold get_base_feed_dict.
  set (step := λ (acc : outcome (gmap placeholder feed_value)) (i : nat), _).
  set (d0 := <[FEATURES _ := _]> _).
  assert (H0 : ∀ d', Returns d0 = Returns d' → d' !! dropout_placeholder = None).
  { intros d' [= <-]. subst d0. cbn [FEATURES LABELS _placeholder_inputs].
    rewrite !lookup_insert_ne by discriminate. apply lookup_empty. }
  revert H0. generalize (Returns d0). generalize (seq 0 (length supports)).
  intros l. revert d. induction l as [|i l IH]; intros d acc Hacc; cbn [foldl].
  - apply Hacc.
  - apply IH. intros d'. subst step. cbn beta.
    destruct acc as [d1|e]; cbn [mbind outcome_bind]; [|discriminate].
    unfold list_item.
    destruct (SUPPORTS (_placeholder_inputs a b c) !! i) as [p|] eqn:Hp;
      cbn [mbind outcome_bind]; [|discriminate].
    destruct (supports !! i) as [s|]; cbn [mbind outcome_bind]; [|discriminate].
    intros [= <-]. rewrite lookup_insert_ne.
    + by apply Hacc.
    + by apply SUPPORTS_lookup in Hp.
Qed.

Section PopulateFeedDictsFacts.

Variable np_power : Q → Q → Q.
Variable eigsh_LM : spmatrix → outcome Q.
Variable GCN_POLY : string.
Variable np_random_shuffle : list nat → list nat.

Ltac next_bind :=
  match goal with
  | |- context [mbind _ ?m] =>
      let H := fresh "Hstep" in
      destruct m eqn:H; cbn [mbind outcome_bind]; [|discriminate]
  end.

(** C2. Whenever [_populate_feed_dicts] returns, the train feed dict maps
    the dropout placeholder to 0.0, whatever dropout rate the model
    parameters configure, and the validation and test feed dicts have no
    entry for the dropout placeholder: the two assignments of 0.0 are made
    to the train feed dict. *)
Theorem populate_feed_dicts_dropout (self : DataPipeline) (dataset_splits : list Z)
    (r : DataPipeline) :
  _populate_feed_dicts np_power eigsh_LM GCN_POLY np_random_shuffle self dataset_splits
  = Returns r →
  train_feed_dict r !! dropout_placeholder = Some (FloatValue 0%float)
  ∧ validation_feed_dict r !! dropout_placeholder = None
  ∧ test_feed_dict r !! dropout_placeholder = None.
Proof.
  unfold _populate_feed_dicts.
  next_bind.
  destruct (features (graph self)) as [feats|]; [|discriminate].
  destruct (labels (graph self)) as [labs|]; [|discriminate].
  destruct (adj (graph self)) as [A|]; [|discriminate].
  repeat next_bind.
  intros [= <-]. cbn [train_feed_dict validation_feed_dict test_feed_dict
                      MASK DROPOUT _placeholder_inputs].
  split; [|split].
  - by rewrite lookup_insert_eq.
  - rewrite lookup_insert_ne by discriminate.
    eapply get_base_feed_dict_no_dropout. eassumption.
  - rewrite lookup_insert_ne by discriminate.
    eapply get_base_feed_dict_no_dropout. eassumption.
Qed.

End PopulateFeedDictsFacts.

Lemma populate_feed_dicts_dropout_witness :
  train_feed_dict four_node_result !! dropout_placeholder = Some (FloatValue 0%float)
  ∧ validation_feed_dict four_node_result !! dropout_placeholder = None
  ∧ test_feed_dict four_node_result !! dropout_placeholder = None.
Proof.
  apply (populate_feed_dicts_dropout (λ x _, x) (λ _, Returns 2) "gcn_poly" (@rev nat)
           four_node_pipeline [2; 1; 1]%Z four_node_result).
  vm_compute. reflexivity.
Defined.

(** On the pipeline of four nodes the masks of the three feed dicts show
    the overlap of the index arrays: position 1 is in the train mask and
    in the test mask, and position 3 is in no mask. *)
Lemma four_node_masks :
  train_feed_dict four_node_result !! mask_placeholder = Some (VectorValue [1; 1; 0; 0])
  ∧ validation_feed_dict four_node_result !! mask_placeholder
    = Some (VectorValue [0; 0; 1; 0])
  ∧ test_feed_dict four_node_result !! mask_placeholder = Some (VectorValue [0; 1; 0; 0]).
Proof. split; [|split]; vm_compute; reflexivity. Qed.

(** ** The loss operator *)

Lemma tf_reduce_sum_finite (xs : list Q) :
  tf_reduce_sum (Finite <$> xs) = Finite (Qsum xs).
Proof.
  induction xs as [|x xs IH]; [reflexivity|].
  unfold tf_reduce_sum in *. cbn [fmap list_fmap foldr Qsum]. rewrite IH. reflexivity.
Qed.

Lemma tf_reduce_sum_nan (xs : list tfloat) : NaN ∈ xs → tf_reduce_sum xs = NaN.
Proof.
  unfold tf_reduce_sum. induction xs as [|x xs IH]; intros Hin.
  - by apply elem_of_nil in Hin.
  - cbn [foldr]. apply elem_of_cons in Hin as [<-|Hin]; [reflexivity|].
    rewrite (IH Hin). by destruct x.
Qed.

Lemma tf_sparse_tensor_to_dense_valid (sp : SparseTensor) :
  valid_sparse sp →
  tf_sparse_tensor_to_dense sp
  = Returns ((λ p, default (Finite 0)
                     ((list_to_map (zip (st_indices sp) (st_values sp)) : gmap nat tfloat)
                        !! p))
               <$> seq 0 (st_dense_size sp)).
Proof.
  intros (Hlen & Hinc & Hrange). unfold tf_sparse_tensor_to_dense.
  rewrite (bool_decide_eq_true_2 _ Hlen), Hinc.
  replace (forallb _ _) with true; [reflexivity|].
  symmetry. apply Is_true_true, forallb_True.
  eapply Forall_impl; [exact Hrange|]. intros i Hi. cbn beta.
  by apply bool_decide_pack.
Qed.

Lemma dense_finite (idx : list nat) (ms : list Q) (n : nat) :
  (λ p, default (Finite 0)
          ((list_to_map (zip idx (Finite <$> ms)) : gmap nat tfloat) !! p)) <$> seq 0 n
  = Finite <$> dense_mask idx ms n.
Proof.
  unfold dense_mask. rewrite <- list_fmap_compose. apply list_fmap_ext.
  intros _ p _. cbn [compose].
  replace (zip idx (Finite <$> ms)) with (prod_map id Finite <$> zip idx ms).
  - rewrite list_to_map_fmap, lookup_fmap. by destruct (_ !! p).
  - revert ms. induction idx as [|i idx IH]; intros [|m ms]; cbn; try reflexivity.
    f_equal. apply IH.
Qed.

Lemma zip_with_finite (a b : list Q) :
  zip_with tf_mul (Finite <$> a) (Finite <$> b) = Finite <$> zip_with Qmult a b.
Proof.
  revert b. induction a as [|x a IH]; intros [|y b]; cbn; try reflexivity.
  f_equal. apply IH.
Qed.

Lemma Qsum_zip_scaled (s : Q) (ls d' d : list Q) :
  Forall2 (λ a b, a == b / s) d' d →
  Qsum (zip_with Qmult ls d') == Qsum (zip_with Qmult ls d) / s.
Proof.
  intros HF. revert ls. induction HF as [|a b d' d Hab HF IH]; intros [|l ls];
    cbn [zip_with Qsum foldr]; try (unfold Qdiv; ring).
  fold (Qsum (zip_with Qmult ls d')). fold (Qsum (zip_with Qmult ls d)).
  rewrite IH, Hab. unfold Qdiv. ring.
Qed.

Lemma dense_mask_scaled (s : Q) (idx : list nat) (ms : list Q) (n : nat) :
  Forall2 (λ a b, a == b / s)
          (dense_mask idx ((λ m, m / s) <$> ms) n) (dense_mask idx ms n).
Proof.
  unfold dense_mask. apply Forall2_fmap, Forall_Forall2_diag, Forall_forall.
  intros p _.
  replace (zip idx ((λ m, m / s) <$> ms))
    with (prod_map id (λ m, m / s) <$> zip idx ms).
  - rewrite list_to_map_fmap, lookup_fmap.
    destruct (_ !! p); cbn; [reflexivity | unfold Qdiv; ring].
  - revert ms. induction idx as [|i idx IH]; intros [|m ms]; cbn; try reflexivity.
    f_equal. apply IH.
Qed.

Lemma inject_nat_nonzero (n : nat) : n ≠ O → Qeq_bool (inject_Z (Z.of_nat n)) 0 = false.
Proof.
  intros Hn. destruct (Qeq_bool _ _) eqn:Heq; [|reflexivity].
  apply Qeq_bool_iff in Heq. unfold Qeq in Heq. cbn in Heq. lia.
Qed.

Lemma tf_div_finite (s : Q) (ms : list Q) :
  ¬ s == 0 →
  (λ v, tf_div v (Finite s)) <$> (Finite <$> ms) = Finite <$> ((λ m, m / s) <$> ms).
Proof.
  intros Hs. rewrite <- !list_fmap_compose. apply list_fmap_ext.
  intros _ m _. cbn [compose tf_div].
  destruct (Qeq_bool s 0) eqn:Heq; [|reflexivity].
  apply Qeq_bool_iff in Heq. contradiction.
Qed.

Lemma tf_reduce_sum_zero (vs : list tfloat) :
  Forall (λ v, tf_eq v (Finite 0)) vs →
  ∃ s, tf_reduce_sum vs = Finite s ∧ s == 0.
Proof.
  unfold tf_reduce_sum. induction 1 as [|v vs Hv _ (s & Hs & Hs0)]; cbn [foldr].
  - exists 0. split; reflexivity.
  - rewrite Hs. destruct v as [q| | |]; try contradiction.
    cbn [tf_eq] in Hv. exists (q + s). split; [reflexivity|].
    rewrite Hv, Hs0. reflexivity.
Qed.

Lemma tf_div_zero_zero (v : tfloat) (s : Q) :
  tf_eq v (Finite 0) → s == 0 → tf_div v (Finite s) = NaN.
Proof.
  intros Hv Hs. destruct v as [q| | |]; try contradiction. cbn [tf_eq] in Hv.
  cbn [tf_div tf_sign].
  apply Qeq_bool_iff in Hs. rewrite Hs.
  apply Qeq_alt in Hv. rewrite Hv. reflexivity.
Qed.


(** ** Arithmetic of the floats *)

Lemma tf_eq_refl (x : tfloat) : tf_eq x x.
Proof. destruct x; cbn; [reflexivity | exact I..]. Qed.

Lemma tf_eq_sym (x y : tfloat) : tf_eq x y → tf_eq y x.
Proof. destruct x, y; cbn; try tauto. intros H. by symmetry. Qed.

Lemma tf_eq_trans (x y z : tfloat) : tf_eq x y → tf_eq y z → tf_eq x z.
Proof. destruct x, y, z; cbn; try tauto. intros H1 H2. by rewrite H1. Qed.

Lemma tf_sign_proper (a b : Q) : a == b → tf_sign (Finite a) = tf_sign (Finite b).
Proof. intros H. cbn [tf_sign]. by rewrite H. Qed.

Ltac sign_rewrite :=
  repeat match goal with
         | H : ?a == ?b |- context [tf_sign (Finite ?a)] =>
             rewrite (tf_sign_proper a b H)
         end.

Lemma Qeq_bool_proper (a b : Q) : a == b → Qeq_bool a 0 = Qeq_bool b 0.
Proof.
  intros H. destruct (Qeq_bool a 0) eqn:E1, (Qeq_bool b 0) eqn:E2; try reflexivity.
  - apply Qeq_bool_iff in E1. rewrite H in E1. apply Qeq_bool_iff in E1. congruence.
  - apply Qeq_bool_iff in E2. rewrite <- H in E2. apply Qeq_bool_iff in E2. congruence.
Qed.

Lemma tf_add_proper (x x' y y' : tfloat) :
  tf_eq x x' → tf_eq y y' → tf_eq (tf_add x y) (tf_add x' y').
Proof.
  destruct x, x'; cbn [tf_eq]; try tauto; destruct y, y'; cbn [tf_eq tf_add]; try tauto.
  intros H1 H2. by rewrite H1, H2.
Qed.

Lemma tf_mul_proper (x x' y y' : tfloat) :
  tf_eq x x' → tf_eq y y' → tf_eq (tf_mul x y) (tf_mul x' y').
Proof.
  destruct x as [a| | |], x' as [a'| | |]; cbn [tf_eq]; try tauto;
    destruct y as [b| | |], y' as [b'| | |]; cbn [tf_eq]; try tauto; intros H1 H2;
    cbn [tf_mul]; sign_rewrite; try apply tf_eq_refl.
  cbn [tf_eq]. by rewrite H1, H2.
Qed.

Lemma tf_div_proper (x x' y y' : tfloat) :
  tf_eq x x' → tf_eq y y' → tf_eq (tf_div x y) (tf_div x' y').
Proof.
  destruct x as [a| | |], x' as [a'| | |]; cbn [tf_eq]; try tauto;
    destruct y as [b| | |], y' as [b'| | |]; cbn [tf_eq]; try tauto; intros H1 H2;
    cbn [tf_div]; sign_rewrite; try apply tf_eq_refl.
  rewrite (Qeq_bool_proper b b' H2). destruct (Qeq_bool b' 0); [apply tf_eq_refl|].
  cbn [tf_eq]. by rewrite H1, H2.
Qed.

Lemma tf_reduce_sum_proper (xs ys : list tfloat) :
  Forall2 tf_eq xs ys → tf_eq (tf_reduce_sum xs) (tf_reduce_sum ys).
Proof.
  unfold tf_reduce_sum. induction 1 as [|x y xs ys Hxy _ IH]; cbn [foldr].
  - apply tf_eq_refl.
  - by apply tf_add_proper.
Qed.

(** The sign of a quotient of rationals. *)
Lemma tf_sign_div (m q : Q) :
  ¬ q == 0 →
  tf_sign (Finite (m / q))
  = match tf_sign (Finite m), tf_sign (Finite q) with
    | Some a, Some b => Some (xorb a b)
    | _, _ => None
    end.
Proof.
  intros Hq. destruct m as [[|a|a] b], q as [[|c|c] d]; try reflexivity.
  all: exfalso; apply Hq; reflexivity.
Qed.

(** Scaling one factor of a product, and the terms of a sum. *)
Lemma tf_mul_div_finite (l : tfloat) (m q : Q) :
  ¬ q == 0 →
  tf_eq (tf_mul l (Finite (m / q))) (tf_div (tf_mul l (Finite m)) (Finite q)).
Proof.
  intros Hq.
  assert (Hb : Qeq_bool q 0 = false).
  { destruct (Qeq_bool q 0) eqn:E; [|reflexivity]. by apply Qeq_bool_iff in E. }
  destruct l as [a| | |]; cbn [tf_mul].
  - cbn [tf_div]. rewrite Hb. cbn [tf_eq]. unfold Qdiv. ring.
  - rewrite (tf_sign_div m q Hq). cbn [tf_sign].
    destruct (Qcompare m 0) eqn:Em; cbn [tf_div]; try exact I;
      destruct (Qcompare q 0) eqn:Eq; cbn [tf_inf xorb tf_div tf_sign tf_eq];
      rewrite ?Eq; cbn [tf_inf tf_eq negb]; try exact I.
    all: apply Qeq_alt in Eq; contradiction.
  - rewrite (tf_sign_div m q Hq). cbn [tf_sign].
    destruct (Qcompare m 0) eqn:Em; cbn [tf_div]; try exact I;
      destruct (Qcompare q 0) eqn:Eq; cbn [tf_inf xorb tf_div tf_sign tf_eq];
      rewrite ?Eq; cbn [tf_inf tf_eq negb]; try exact I.
    all: apply Qeq_alt in Eq; contradiction.
  - exact I.
Qed.

Lemma tf_add_div_finite (x y : tfloat) (q : Q) :
  ¬ q == 0 →
  tf_eq (tf_add (tf_div x (Finite q)) (tf_div y (Finite q)))
        (tf_div (tf_add x y) (Finite q)).
Proof.
  intros Hq.
  assert (Hb : Qeq_bool q 0 = false).
  { destruct (Qeq_bool q 0) eqn:E; [|reflexivity]. by apply Qeq_bool_iff in E. }
  destruct x as [a| | |], y as [b| | |]; cbn [tf_add tf_div]; rewrite ?Hb;
    cbn [tf_add tf_eq tf_sign]; try exact I;
    try (unfold Qdiv; ring);
    destruct (Qcompare q 0) eqn:Eq; cbn [tf_inf tf_add tf_eq negb]; try exact I.
  all: apply Qeq_alt in Eq; contradiction.
Qed.

(** ** Sums of floats *)

Lemma tf_add_finite_inv (x y : tfloat) (q : Q) :
  tf_add x y = Finite q → tf_finite x ∧ tf_finite y.
Proof. by destruct x, y. Qed.

Lemma tf_reduce_sum_finite_inv (vs : list tfloat) (q : Q) :
  tf_reduce_sum vs = Finite q → ∃ ms, vs = Finite <$> ms.
Proof.
  unfold tf_reduce_sum. revert q. induction vs as [|v vs IH]; intros q; cbn [foldr].
  - intros _. by exists [].
  - intros Hsum. pose proof (tf_add_finite_inv _ _ _ Hsum) as [Hv Hrest].
    destruct v as [m| | |]; try contradiction.
    destruct (foldr tf_add (Finite 0) vs) as [r| | |] eqn:Hr; try contradiction.
    destruct (IH r eq_refl) as [ms ->]. by exists (m :: ms).
Qed.

Lemma tf_reduce_sum_not_finite (xs : list tfloat) (x : tfloat) :
  x ∈ xs → ¬ tf_finite x → ¬ tf_finite (tf_reduce_sum xs).
Proof.
  unfold tf_reduce_sum. induction xs as [|y xs IH]; intros Hin Hx.
  - by apply elem_of_nil in Hin.
  - cbn [foldr]. apply elem_of_cons in Hin as [<-|Hin].
    + destruct x; [by destruct Hx|..]; by destruct (foldr tf_add (Finite 0) xs).
    + specialize (IH Hin Hx). destruct (foldr tf_add (Finite 0) xs); [by destruct IH|..];
        by destruct y.
Qed.

Lemma tf_reduce_sum_inf_elem (vs : list tfloat) (s : tfloat) :
  tf_reduce_sum vs = s → s = PInf ∨ s = NInf → s ∈ vs.
Proof.
  unfold tf_reduce_sum. revert s. induction vs as [|v vs IH]; intros s; cbn [foldr].
  - intros <- [?|?]; discriminate.
  - intros <- Hs. destruct (foldr tf_add (Finite 0) vs) as [r| | |] eqn:Hr.
    + destruct v; cbn [tf_add] in *; destruct Hs; try discriminate; by left.
    + destruct v; cbn [tf_add] in *; destruct Hs; try discriminate;
        first [by left | right; apply (IH PInf eq_refl); by left].
    + destruct v; cbn [tf_add] in *; destruct Hs; try discriminate;
        first [by left | right; apply (IH NInf eq_refl); by right].
    + destruct v; cbn [tf_add] in *; destruct Hs; discriminate.
Qed.

Lemma tf_mul_inf_not_finite (l s : tfloat) :
  s = PInf ∨ s = NInf → ¬ tf_finite (tf_mul l s).
Proof.
  intros [-> | ->]; destruct l as [a| | |]; cbn [tf_mul tf_sign]; try tauto;
    destruct (Qcompare a 0); cbn; tauto.
Qed.

Lemma tf_div_by_inf (x s : tfloat) :
  ¬ tf_finite x → s = PInf ∨ s = NInf → tf_div x s = NaN.
Proof. intros Hx [-> | ->]; destruct x; try reflexivity; by destruct Hx. Qed.

(** ** Sparse vectors *)

Lemma strictly_increasing_bound (i : nat) (l : list nat) :
  strictly_increasing (i :: l) = true → Forall (λ j, (i < j)%nat) l.
Proof.
  revert i. induction l as [|j l IH]; intros i; [constructor|].
  cbn [strictly_increasing]. intros H. apply andb_true_iff in H as [Hij Hl].
  apply bool_decide_eq_true in Hij. constructor; [exact Hij|].
  eapply Forall_impl; [apply (IH j Hl)|]. cbn beta. intros k Hk. lia.
Qed.

Lemma strictly_increasing_tail (i : nat) (l : list nat) :
  strictly_increasing (i :: l) = true → strictly_increasing l = true.
Proof.
  destruct l as [|j l]; [reflexivity|]. cbn [strictly_increasing].
  intros H. by apply andb_true_iff in H as [_ Hl].
Qed.

Lemma strictly_increasing_NoDup (l : list nat) :
  strictly_increasing l = true → NoDup l.
Proof.
  induction l as [|i l IH]; intros H; [constructor|].
  constructor.
  - intros Hin. pose proof (strictly_increasing_bound i l H) as Hb.
    rewrite Forall_forall in Hb. specialize (Hb i Hin). lia.
  - apply IH. by eapply strictly_increasing_tail.
Qed.

(** The value stored at a position of a valid sparse vector is read at
    that position of its dense form. *)
Lemma tf_dense_lookup (sp : SparseTensor) (k i : nat) (v : tfloat) :
  valid_sparse sp →
  st_indices sp !! k = Some i → st_values sp !! k = Some v →
  tf_dense sp !! i = Some v.
Proof.
  intros (Hlen & Hinc & Hrange) Hi Hv. unfold tf_dense.
  assert (Hlt : (i < st_dense_size sp)%nat).
  { rewrite Forall_forall in Hrange. apply Hrange. by eapply list_elem_of_lookup_2. }
  rewrite list_lookup_fmap, (proj2 (lookup_seq 0 _ i i)) by (split; [reflexivity | lia]).
  cbn [fmap option_fmap option_map].
  rewrite (elem_of_list_to_map_1 _ i v); [reflexivity| |].
  - rewrite fst_zip by lia. by apply strictly_increasing_NoDup.
  - apply list_elem_of_lookup. exists k. apply lookup_zip_with_Some.
    by exists i, v.
Qed.

Lemma length_tf_dense (sp : SparseTensor) : length (tf_dense sp) = st_dense_size sp.
Proof. unfold tf_dense. by rewrite length_fmap, length_seq. Qed.

Lemma tf_dense_finite (idx : list nat) (ms : list Q) (n : nat) :
  tf_dense {| st_indices := idx; st_values := Finite <$> ms; st_dense_size := n |}
  = Finite <$> dense_mask idx ms n.
Proof. unfold tf_dense. cbn [st_indices st_values st_dense_size]. apply dense_finite. Qed.

(** A product with a vector that holds NaN sums to NaN. *)
Lemma tf_reduce_sum_zip_nan (ls ds : list tfloat) (i : nat) :
  length ds = length ls → ds !! i = Some NaN →
  tf_reduce_sum (zip_with tf_mul ls ds) = NaN.
Proof.
  intros Hlen Hi. apply tf_reduce_sum_nan. apply list_elem_of_lookup. exists i.
  destruct (lookup_lt_is_Some_2 ls i) as [l Hl].
  { rewrite <- Hlen. by eapply lookup_lt_Some. }
  rewrite lookup_zip_with, Hl. cbn [mbind option_bind]. rewrite Hi.
  cbn [mbind option_bind]. by destruct l.
Qed.

(** Normalising the mask before the product, or dividing the sum of the
    product, gives the same value when the divisor is not zero. *)
Lemma scaled_products (q : Q) (ls : list tfloat) (dn d : list Q) :
  ¬ q == 0 →
  Forall2 (λ a b, a == b / q) dn d →
  tf_eq (tf_reduce_sum (zip_with tf_mul ls (Finite <$> dn)))
        (tf_div (tf_reduce_sum (zip_with tf_mul ls (Finite <$> d))) (Finite q)).
Proof.
  intros Hq HF.
  assert (Hb : Qeq_bool q 0 = false).
  { destruct (Qeq_bool q 0) eqn:E; [|reflexivity]. by apply Qeq_bool_iff in E. }
  assert (Hbase : tf_eq (Finite 0) (tf_div (Finite 0) (Finite q))).
  { cbn [tf_div]. rewrite Hb. cbn [tf_eq]. unfold Qdiv. ring. }
  revert ls. induction HF as [|a b dn d Hab HF IH]; intros ls.
  - destruct ls; exact Hbase.
  - destruct ls as [|l ls]; [exact Hbase|].
    cbn [fmap list_fmap zip_with]. unfold tf_reduce_sum. cbn [foldr].
    fold (tf_reduce_sum (zip_with tf_mul ls (Finite <$> dn))).
    fold (tf_reduce_sum (zip_with tf_mul ls (Finite <$> d))).
    eapply tf_eq_trans; [|apply tf_add_div_finite; exact Hq].
    apply tf_add_proper; [|apply IH].
    eapply tf_eq_trans; [|apply tf_mul_div_finite; exact Hq].
    apply tf_mul_proper; [apply tf_eq_refl | exact Hab].
Qed.

Lemma tf_is_zero_false (s : tfloat) : ¬ tf_eq s (Finite 0) → tf_is_zero s = false.
Proof.
  intros Hs. destruct s as [q| | |]; try reflexivity. cbn [tf_is_zero].
  destruct (Qeq_bool q 0) eqn:E; [|reflexivity].
  exfalso. apply Hs. cbn [tf_eq]. by apply Qeq_bool_iff.
Qed.

Lemma valid_sparse_div (sp : SparseTensor) (c : tfloat) :
  valid_sparse sp →
  valid_sparse {| st_indices := st_indices sp;
                  st_values := (λ v, tf_div v c) <$> st_values sp;
                  st_dense_size := st_dense_size sp |}.
Proof.
  intros (Hlen & Hinc & Hrange). unfold valid_sparse.
  cbn [st_indices st_values st_dense_size]. rewrite length_fmap. by repeat split.
Qed.

Lemma tf_sparse_tensor_to_dense_dense (sp : SparseTensor) :
  valid_sparse sp → tf_sparse_tensor_to_dense sp = Returns (tf_dense sp).
Proof. apply tf_sparse_tensor_to_dense_valid. Qed.

Lemma tf_multiply_same_length (xs ys : list tfloat) :
  length xs = length ys → tf_multiply xs ys = Returns (zip_with tf_mul xs ys).
Proof. intros H. unfold tf_multiply. by rewrite (bool_decide_eq_true_2 _ H). Qed.

(** A product with a vector of zeros sums to zero when the other factors
    are finite. *)
Lemma tf_reduce_sum_zip_zero (ls ds : list tfloat) :
  Forall tf_finite ls → Forall (λ d, d = Finite 0) ds →
  tf_eq (tf_reduce_sum (zip_with tf_mul ls ds)) (Finite 0).
Proof.
  intros Hls. revert ds. unfold tf_reduce_sum.
  induction Hls as [|l ls Hl _ IH]; intros ds Hds; [reflexivity|].
  destruct Hds as [|d ds -> Hds]; [reflexivity|].
  cbn [zip_with foldr]. specialize (IH ds Hds).
  destruct l as [a| | |]; try contradiction.
  destruct (foldr tf_add (Finite 0) (zip_with tf_mul ls ds)) as [r| | |];
    try contradiction.
  cbn [tf_mul tf_add tf_eq] in *. rewrite IH. ring.
Qed.

Section LossOpFacts.

Variable weighted_cross_entropy_with_logits :
  list tfloat → list tfloat → tfloat → list tfloat.
Variable TRAIN : string.
Variable sparse_div_checks_zero : bool.

Local Abbreviation loss_op :=
  (_loss_op weighted_cross_entropy_with_logits TRAIN sparse_div_checks_zero).
Local Abbreviation complete_loss self :=
  (weighted_cross_entropy_with_logits
     (bm_labels self) (outputs self) (positive_sample_weight self)).

(** The masked branch: for a valid mask over the nodes of the losses whose
    sum is not zero, the value is the masked mean, whichever kernel
    divides. *)
Lemma compute_masked_loss_value (self : Base_Model) (ls : list tfloat) :
  valid_sparse (mask self) →
  st_dense_size (mask self) = length ls →
  ¬ tf_eq (tf_sparse_reduce_sum (mask self)) (Finite 0) →
  ∃ y, _compute_masked_loss sparse_div_checks_zero self ls = Returns y
       ∧ tf_eq y (masked_mean ls (mask self)).
Proof.
  intros Hvalid Hsize Hsum. unfold _compute_masked_loss, tf_sparse_div.
  rewrite (tf_is_zero_false _ Hsum), andb_false_r. cbn [andb mbind outcome_bind].
  rewrite (tf_sparse_tensor_to_dense_dense _ (valid_sparse_div _ _ Hvalid)).
  cbn [mbind outcome_bind].
  rewrite tf_multiply_same_length by (rewrite length_tf_dense; cbn [st_dense_size]; lia).
  cbn [mbind outcome_bind mret outcome_ret].
  eexists. split; [reflexivity|].
  unfold masked_mean. destruct (mask self) as [idx vs n] eqn:Hmask.
  unfold tf_sparse_reduce_sum in *. cbn [st_indices st_values st_dense_size] in *.
  pose proof Hvalid as (Hlen & Hinc & Hrange).
  cbn [st_indices st_values st_dense_size] in Hlen, Hinc, Hrange.
  destruct (tf_reduce_sum vs) as [q| | |] eqn:Hs.
  - (* a finite sum: every stored value is finite *)
    destruct (tf_reduce_sum_finite_inv vs q Hs) as [ms ->].
    assert (Hq : ¬ q == 0) by (intros Hq; apply Hsum; exact Hq).
    rewrite tf_div_finite by exact Hq. rewrite !tf_dense_finite.
    apply scaled_products; [exact Hq | apply dense_mask_scaled].
  - (* the sum is +inf *)
    pose proof (tf_reduce_sum_inf_elem vs PInf Hs (or_introl eq_refl)) as Hin.
    apply list_elem_of_lookup in Hin as [k Hk].
    destruct (lookup_lt_is_Some_2 idx k) as [i Hi].
    { rewrite Hlen. by eapply lookup_lt_Some. }
    pose proof Hvalid as Hv.
    rewrite (tf_reduce_sum_zip_nan ls _ i).
    + rewrite tf_div_by_inf; [exact I| |by left].
      destruct (lookup_lt_is_Some_2 ls i) as [l Hl].
      { rewrite <- Hsize. rewrite Forall_forall in Hrange. apply Hrange.
        by eapply list_elem_of_lookup_2. }
      apply (tf_reduce_sum_not_finite _ (tf_mul l PInf)).
      * apply list_elem_of_lookup. exists i. rewrite lookup_zip_with, Hl.
        cbn [mbind option_bind]. by rewrite (tf_dense_lookup _ k i PInf Hv Hi Hk).
      * apply tf_mul_inf_not_finite. by left.
    + rewrite length_tf_dense. cbn [st_dense_size]. lia.
    + apply (tf_dense_lookup _ k i NaN (valid_sparse_div _ PInf Hv)).
      * exact Hi.
      * cbn [st_values]. by rewrite list_lookup_fmap, Hk.
  - (* the sum is -inf *)
    pose proof (tf_reduce_sum_inf_elem vs NInf Hs (or_intror eq_refl)) as Hin.
    apply list_elem_of_lookup in Hin as [k Hk].
    destruct (lookup_lt_is_Some_2 idx k) as [i Hi].
    { rewrite Hlen. by eapply lookup_lt_Some. }
    pose proof Hvalid as Hv.
    rewrite (tf_reduce_sum_zip_nan ls _ i).
    + rewrite tf_div_by_inf; [exact I| |by right].
      destruct (lookup_lt_is_Some_2 ls i) as [l Hl].
      { rewrite <- Hsize. rewrite Forall_forall in Hrange. apply Hrange.
        by eapply list_elem_of_lookup_2. }
      apply (tf_reduce_sum_not_finite _ (tf_mul l NInf)).
      * apply list_elem_of_lookup. exists i. rewrite lookup_zip_with, Hl.
        cbn [mbind option_bind]. by rewrite (tf_dense_lookup _ k i NInf Hv Hi Hk).
      * apply tf_mul_inf_not_finite. by right.
    + rewrite length_tf_dense. cbn [st_dense_size]. lia.
    + apply (tf_dense_lookup _ k i NaN (valid_sparse_div _ NInf Hv)).
      * exact Hi.
      * cbn [st_values]. by rewrite list_lookup_fmap, Hk.
  - (* the sum is NaN: the mask stores a value, and every quotient is NaN *)
    destruct vs as [|v vs]; [discriminate|].
    destruct idx as [|i idx]; [discriminate|].
    pose proof Hvalid as Hv.
    rewrite (tf_reduce_sum_zip_nan ls _ i).
    + destruct (tf_reduce_sum (zip_with tf_mul ls _)); exact I.
    + rewrite length_tf_dense. cbn [st_dense_size]. lia.
    + apply (tf_dense_lookup _ 0 i NaN (valid_sparse_div _ NaN Hv)); [reflexivity|].
      cbn [st_values fmap list_fmap lookup list_lookup]. by destruct v.
Qed.

(** C8. For every per-node loss vector, every normalisation constant and
    every mask that is a valid sparse vector over the nodes of the
    losses: in train mode the loss operator returns the unweighted mean
    of the per-node losses times the normalisation constant (the mask is
    not read), and in any other mode, when the sum of the mask is not
    zero, it returns the sum of loss times mask divided by the sum of the
    mask, times the normalisation constant.  The values are compared in
    exact arithmetic ([tf_eq]): the code divides each mask value by the
    sum before it multiplies. *)
Theorem loss_op_value (self : Base_Model) :
  (mode self ≠ TRAIN →
     valid_sparse (mask self)
     ∧ st_dense_size (mask self) = length (complete_loss self)
     ∧ ¬ tf_eq (tf_sparse_reduce_sum (mask self)) (Finite 0)) →
  ∃ y, loss_op self = Returns y
       ∧ tf_eq y
           (tf_mul (if bool_decide (mode self = TRAIN)
                    then tf_reduce_mean (complete_loss self)
                    else masked_mean (complete_loss self) (mask self))
                   (normalisation_constant self)).
Proof.
  intros Hmask. unfold _loss_op.
  destruct (decide (mode self = TRAIN)) as [Htrain|Heval].
  - rewrite !(bool_decide_eq_true_2 _ Htrain). cbn [mbind outcome_bind mret outcome_ret].
    eexists. split; [reflexivity | apply tf_eq_refl].
  - rewrite !(bool_decide_eq_false_2 _ Heval).
    destruct (Hmask Heval) as (Hvalid & Hsize & Hsum).
    destruct (compute_masked_loss_value self (complete_loss self) Hvalid Hsize Hsum)
      as (y & -> & Hy).
    cbn [mbind outcome_bind mret outcome_ret].
    eexists. split; [reflexivity|].
    apply tf_mul_proper; [exact Hy | apply tf_eq_refl].
Qed.

(** C4. In a mode other than train, with a valid mask over the nodes of
    the losses whose stored values are all zero, nothing in the operator
    guards the division by the mask sum.  A mask that stores no entry
    gives no error: the masked sum is returned, zero times the
    normalisation constant when the losses are finite.  A mask that
    stores entries leaves the outcome to the sparse division: the kernel
    that checks its divisor raises [InvalidArgumentError], and the kernel
    that does not makes the loss NaN. *)
Theorem loss_op_zero_mask (self : Base_Model) :
  mode self ≠ TRAIN →
  valid_sparse (mask self) →
  st_dense_size (mask self) = length (complete_loss self) →
  Forall (λ v, tf_eq v (Finite 0)) (st_values (mask self)) →
  match st_values (mask self) with
  | [] =>
      ∃ y, loss_op self = Returns y
           ∧ (Forall tf_finite (complete_loss self) →
              tf_eq y (tf_mul (Finite 0) (normalisation_constant self)))
  | _ :: _ =>
      if sparse_div_checks_zero
      then loss_op self = Raises InvalidArgumentError
      else loss_op self = Returns NaN
  end.
Proof.
  intros Heval Hvalid Hsize Hzero. unfold _loss_op.
  rewrite (bool_decide_eq_false_2 _ Heval).
  unfold _compute_masked_loss, tf_sparse_reduce_sum, tf_sparse_div.
  destruct (tf_reduce_sum_zero _ Hzero) as (s & Hs & Hs0). rewrite Hs.
  assert (Hz : tf_is_zero (Finite s) = true) by (by apply Qeq_bool_iff).
  rewrite Hz, andb_true_r.
  destruct (st_values (mask self)) as [|v vs] eqn:Hvs.
  - cbn [length Nat.eqb negb]. rewrite andb_false_r. cbn [mbind outcome_bind].
    pose proof (valid_sparse_div (mask self) (Finite s) Hvalid) as Hv. rewrite Hvs in Hv.
    rewrite (tf_sparse_tensor_to_dense_dense _ Hv). cbn [mbind outcome_bind].
    rewrite tf_multiply_same_length by (rewrite length_tf_dense; cbn [st_dense_size]; lia).
    cbn [mbind outcome_bind mret outcome_ret].
    eexists. split; [reflexivity|]. intros Hfin.
    apply tf_mul_proper; [|apply tf_eq_refl].
    apply tf_reduce_sum_zip_zero; [exact Hfin|].
    unfold tf_dense. cbn [st_indices st_values st_dense_size fmap list_fmap].
    apply Forall_fmap, Forall_forall. intros p _. cbn [compose].
    destruct (st_indices (mask self)); cbn [zip zip_with list_to_map foldr];
      by rewrite lookup_empty.
  - cbn [length Nat.eqb negb]. rewrite andb_true_r.
    destruct sparse_div_checks_zero; [reflexivity|]. cbn [mbind outcome_bind].
    pose proof (valid_sparse_div (mask self) (Finite s) Hvalid) as Hv. rewrite Hvs in Hv.
    rewrite (tf_sparse_tensor_to_dense_dense _ Hv). cbn [mbind outcome_bind].
    rewrite tf_multiply_same_length by (rewrite length_tf_dense; cbn [st_dense_size]; lia).
    cbn [mbind outcome_bind mret outcome_ret].
    destruct Hvalid as (Hlen & Hinc & Hrange). rewrite Hvs in Hlen.
    destruct (st_indices (mask self)) as [|i idx] eqn:Hidx; [discriminate|].
    apply Forall_cons in Hzero as [Hv0 _].
    rewrite (tf_reduce_sum_zip_nan _ _ i); [reflexivity| |].
    + rewrite length_tf_dense. cbn [st_dense_size]. lia.
    + apply (tf_dense_lookup _ 0 i NaN Hv); [reflexivity|].
      cbn [st_values fmap list_fmap lookup list_lookup]. f_equal.
      by apply tf_div_zero_zero.
Qed.

End LossOpFacts.

Lemma loss_op_value_witness :
  ∃ y, _loss_op loss_of_targets "train" true (two_node_model "test" [1; 0]) = Returns y
       ∧ tf_eq y
           (tf_mul (if bool_decide (mode (two_node_model "test" [1; 0]) = "train")
                    then tf_reduce_mean
                           (loss_of_targets (bm_labels (two_node_model "test" [1; 0]))
                              (outputs (two_node_model "test" [1; 0]))
                              (positive_sample_weight (two_node_model "test" [1; 0])))
                    else masked_mean
                           (loss_of_targets (bm_labels (two_node_model "test" [1; 0]))
                              (outputs (two_node_model "test" [1; 0]))
                              (positive_sample_weight (two_node_model "test" [1; 0])))
                           (mask (two_node_model "test" [1; 0])))
                   (normalisation_constant (two_node_model "test" [1; 0]))).
Proof.
  apply (loss_op_value loss_of_targets "train" true (two_node_model "test" [1; 0])).
  intros _. split; [|split; [reflexivity|]].
  - split; [reflexivity|]. split; [reflexivity|]. repeat constructor.
  - vm_compute. discriminate.
Defined.

(** C8, on the model of two nodes with the losses 1 and 3 and a
    normalisation constant of 2.  In train mode the operator returns 4,
    twice the mean 2.  With a mask that stores nothing it returns 0, with
    either kernel, where the sum of loss times mask divided by the sum of
    the mask is 0/0.  A mask whose indices are out of order, and a mask
    over three nodes, are refused. *)
Lemma loss_op_value_examples :
  (∃ y, _loss_op loss_of_targets "train" true (two_node_model "train" [1; 1]) = Returns y
        ∧ tf_eq y (Finite 4)
        ∧ tf_eq (tf_reduce_mean [Finite 1; Finite 3]) (Finite 2))
  ∧ (∃ y, _loss_op loss_of_targets "train" true (two_node_masked "test" empty_mask)
          = Returns y
          ∧ _loss_op loss_of_targets "train" false (two_node_masked "test" empty_mask)
            = Returns y
          ∧ tf_eq y (Finite 0)
          ∧ masked_mean [Finite 1; Finite 3] empty_mask = NaN)
  ∧ _loss_op loss_of_targets "train" true (two_node_masked "test" unsorted_mask)
    = Raises InvalidArgumentError
  ∧ _loss_op loss_of_targets "train" true (two_node_masked "test" wide_mask)
    = Raises InvalidArgumentError.
Proof.
  split; [|split; [|split]].
  - eexists. split; [reflexivity|]. split; reflexivity.
  - eexists. split; [reflexivity|]. split; [reflexivity|]. split; reflexivity.
  - reflexivity.
  - reflexivity.
Qed.

Lemma loss_op_zero_mask_witness :
  _loss_op loss_of_targets "train" true (two_node_masked "test" zero_mask)
  = Raises InvalidArgumentError.
Proof.
  apply (loss_op_zero_mask loss_of_targets "train" true (two_node_masked "test" zero_mask)).
  - discriminate.
  - split; [reflexivity|]. split; [reflexivity|]. repeat constructor.
  - reflexivity.
  - repeat constructor; reflexivity.
Defined.

(** C4, on the same model.  A mask that stores nothing is an all-zero
    mask, and the operator returns 0 for it with either kernel; with the
    kernel that does not check its divisor, a mask that stores two zeros
    gives NaN. *)
Lemma loss_op_zero_mask_example :
  (∃ y, _loss_op loss_of_targets "train" true (two_node_masked "test" empty_mask)
        = Returns y
        ∧ _loss_op loss_of_targets "train" false (two_node_masked "test" empty_mask)
          = Returns y
        ∧ tf_eq y (Finite 0))
  ∧ _loss_op loss_of_targets "train" false (two_node_masked "test" zero_mask)
    = Returns NaN.
Proof.
  split; [|reflexivity].
  eexists. split; [reflexivity|]. split; reflexivity.
Qed.

(** * Further properties *)

(** ** Entries of the sparse constructions *)

(** Looking up a key in the map built from a list of entries whose values
    are a function of the key. *)
Lemma list_to_map_lookup_fun {K A} `{Countable K} (f : K → A) (l : list (K * A)) (k : K) :
  (∀ x, (k, x) ∈ l → x = f k) →
  (list_to_map l : gmap K A) !! k = if decide (k ∈ l.*1) then Some (f k) else None.
Proof.
  induction l as [|[k' x] l IH]; intros Hf.
  - cbn. rewrite lookup_empty. destruct (decide _) as [Hin|]; [|reflexivity].
    by apply elem_of_nil in Hin.
  - rewrite list_to_map_cons. cbn [fmap list_fmap fst].
    destruct (decide (k = k')) as [<-|Hne].
    + rewrite lookup_insert_eq, decide_True by (by left).
      f_equal. apply Hf. by left.
    + rewrite lookup_insert_ne by congruence.
      rewrite IH by (intros y Hy; apply Hf; by right).
      destruct (decide (k ∈ l.*1)) as [Hin|Hnin].
      * rewrite decide_True by (by right). reflexivity.
      * rewrite decide_False; [reflexivity|].
        intros Hin. apply elem_of_cons in Hin as [?|?]; [congruence | contradiction].
Qed.

Lemma sp_get_eye (n i j : nat) : sp_get (sp_eye n) i j = identity_entry n i j.
Proof.
  unfold sp_get, sp_eye, identity_entry. cbn [sp_data].
  rewrite (list_to_map_lookup_fun (λ _, 1)).
  2: { intros x Hx. apply list_elem_of_fmap in Hx as (k & Heq & _). congruence. }
  destruct (decide _) as [Hin|Hnin].
  - rewrite bool_decide_eq_true_2; [reflexivity|].
    apply list_elem_of_fmap in Hin as ([k x] & Hk & Hin).
    apply list_elem_of_fmap in Hin as (k' & Heq & Hk').
    apply elem_of_seq in Hk'. cbn [fst] in Hk. split; [congruence|].
    assert (i = k') by congruence. lia.
  - rewrite bool_decide_eq_false_2; [reflexivity|].
    intros [<- Hi]. apply Hnin.
    apply list_elem_of_fmap. exists ((i, i), 1). split; [reflexivity|].
    apply list_elem_of_fmap. exists i. split; [reflexivity|].
    apply elem_of_seq. lia.
Qed.

Lemma sp_get_diags (v : list Q) (i j : nat) :
  sp_get (sp_diags v) i j = if bool_decide (i = j) then default 0 (v !! i) else 0.
Proof.
  unfold sp_get, sp_diags. cbn [sp_data].
  rewrite (list_to_map_lookup_fun (λ k, default 0 (v !! k.1))).
  2: { intros x Hx. apply elem_of_lookup_imap in Hx as (k & y & Heq & Hk).
       injection Heq as -> _ ->. cbn [fst]. by rewrite Hk. }
  destruct (decide _) as [Hin|Hnin].
  - apply list_elem_of_fmap in Hin as ([k x] & Hk & Hin).
    apply elem_of_lookup_imap in Hin as (k' & y & Heq & Hk').
    cbn [fst] in Hk. rewrite bool_decide_eq_true_2 by congruence. reflexivity.
  - destruct (decide (i = j)) as [<-|Hne].
    + rewrite bool_decide_eq_true_2 by reflexivity.
      destruct (v !! i) as [x|] eqn:Hv; [|reflexivity].
      exfalso. apply Hnin. apply list_elem_of_fmap. exists ((i, i), x).
      split; [reflexivity|]. apply elem_of_lookup_imap. by exists i, x.
    + by rewrite bool_decide_eq_false_2.
Qed.

Lemma Qsum_zero_terms (p : nat → bool) (t : nat → Q) (l : list nat) :
  (∀ k, p k = false → t k == 0) →
  existsb p l = false → Qsum (t <$> l) == 0.
Proof.
  intros Hp. induction l as [|k l IH]; cbn [existsb fmap list_fmap Qsum foldr].
  - reflexivity.
  - intros Hex. apply orb_false_iff in Hex as [Hk Hl].
    fold (Qsum (t <$> l)). rewrite (Hp k Hk), (IH Hl). reflexivity.
Qed.

(** The entries of a product are the sums of products of the entries of a
    row and of a column. *)
Lemma sp_dot_get (A B C : spmatrix) (i j : nat) :
  sp_dot A B = Returns C →
  (i < sp_rows A)%nat → (j < sp_cols B)%nat →
  sp_get C i j == Qsum ((λ k, sp_get A i k * sp_get B k j) <$> seq 0 (sp_cols A)).
Proof.
  unfold sp_dot. destruct (bool_decide _); [|discriminate]. intros [= <-] Hi Hj.
  unfold sp_get at 1. cbn [sp_data].
  rewrite (list_to_map_lookup_fun
             (λ k, Qsum ((λ c, sp_get A k.1 c * sp_get B c k.2) <$> seq 0 (sp_cols A)))).
  2: { intros x Hx. apply list_elem_of_bind in Hx as (i' & Hx & _).
       apply list_elem_of_bind in Hx as (j' & Hx & _).
       destruct (existsb _ _); [|by apply elem_of_nil in Hx].
       apply list_elem_of_singleton in Hx. injection Hx as -> -> ->. reflexivity. }
  cbn [fst snd]. destruct (decide _) as [Hin|Hnin]; [reflexivity|].
  cbn [default]. symmetry.
  destruct (existsb (λ k, bool_decide (is_Some (sp_data A !! (i, k)))
                          && bool_decide (is_Some (sp_data B !! (k, j))))
                    (seq 0 (sp_cols A))) eqn:Hex.
  - exfalso. apply Hnin. apply list_elem_of_fmap. eexists (_, _). split; [reflexivity|].
    apply list_elem_of_bind. exists i. split; [|apply elem_of_seq; lia].
    apply list_elem_of_bind. exists j. split; [|apply elem_of_seq; lia].
    rewrite Hex. by apply list_elem_of_singleton.
  - refine (Qsum_zero_terms _ _ _ _ Hex). intros k Hk. cbn beta in Hk.
    apply andb_false_iff in Hk. unfold sp_get.
    destruct Hk as [Hk|Hk]; apply bool_decide_eq_false in Hk;
      [destruct (sp_data A !! (i, k)) | destruct (sp_data B !! (k, j))];
      try (exfalso; apply Hk; by eexists); cbn [default]; ring.
Qed.

Lemma sp_dot_shape_of (A B C : spmatrix) :
  sp_dot A B = Returns C → sp_rows C = sp_rows A ∧ sp_cols C = sp_cols B.
Proof.
  unfold sp_dot. destruct (bool_decide _); [|discriminate]. intros [= <-]. by split.
Qed.

(** A sum against one column of a diagonal matrix keeps one term. *)
Lemma Qsum_diagonal (f g : nat → Q) (j s c : nat) :
  Qsum ((λ k, f k * (if bool_decide (k = j) then g k else 0)) <$> seq s c)
  == if bool_decide (s ≤ j < s + c)%nat then f j * g j else 0.
Proof.
  revert s. induction c as [|c IH]; intros s; cbn [seq fmap list_fmap Qsum foldr].
  - rewrite bool_decide_eq_false_2 by lia. reflexivity.
  - fold (Qsum ((λ k, f k * (if bool_decide (k = j) then g k else 0)) <$> seq (S s) c)).
    rewrite IH. destruct (decide (s = j)) as [->|Hne].
    + rewrite bool_decide_eq_true_2 by reflexivity.
      rewrite (bool_decide_eq_false_2 (S j ≤ j < _)%nat) by lia.
      rewrite bool_decide_eq_true_2 by lia. ring.
    + rewrite (bool_decide_eq_false_2 (s = j)) by exact Hne.
      destruct (decide (S s ≤ j < S s + c)%nat).
      * rewrite !bool_decide_eq_true_2 by lia. ring.
      * rewrite !bool_decide_eq_false_2 by lia. ring.
Qed.

(** The product with a diagonal matrix on the right scales the columns. *)
Lemma sp_dot_diags_get (A C : spmatrix) (v : list Q) (i j : nat) :
  sp_dot A (sp_diags v) = Returns C →
  (i < sp_rows A)%nat → (j < sp_cols A)%nat →
  sp_get C i j == sp_get A i j * default 0 (v !! j).
Proof.
  intros Hdot Hi Hj.
  assert (Hcols : sp_cols A = length v).
  { unfold sp_dot in Hdot. destruct (bool_decide_reflect (sp_cols A = sp_rows (sp_diags v)));
      [assumption | discriminate]. }
  rewrite (sp_dot_get _ _ _ _ _ Hdot Hi) by (cbn [sp_diags sp_cols]; lia).
  rewrite (list_fmap_ext _ (λ k, sp_get A i k
                                 * (if bool_decide (k = j) then default 0 (v !! k) else 0))).
  2: { intros _ k _. by rewrite sp_get_diags. }
  rewrite (Qsum_diagonal (sp_get A i) (λ k, default 0 (v !! k))).
  rewrite bool_decide_eq_true_2 by lia. reflexivity.
Qed.

Lemma sp_row_sums_lookup (A : spmatrix) (k : nat) :
  (k < sp_rows A)%nat →
  sp_row_sums A !! k = Some (Qsum ((λ j, sp_get A k j) <$> seq 0 (sp_cols A))).
Proof.
  intros Hk. unfold sp_row_sums. rewrite list_lookup_fmap.
  rewrite (proj2 (lookup_seq 0 _ k k)) by (split; [reflexivity | lia]). reflexivity.
Qed.

Section RenormalisationEntries.

Variable np_power : Q → Q → Q.

(** What the symmetric branch computes on a square matrix. *)
Lemma renormalization_entries (n : nat) (adj : spmatrix) :
  has_shape n adj →
  ∃ R, renormalization_trick np_power adj true = Returns (Some R)
       ∧ has_shape n R
       ∧ ∀ i j, (i < n)%nat → (j < n)%nat →
           sp_get R i j
           == sp_get adj j i * degree_scale np_power adj i * degree_scale np_power adj j.
Proof.
  intros [Hr Hc]. unfold renormalization_trick.
  set (v := (λ x, np_power x (- (1 # 2))) <$> sp_row_sums adj).
  assert (Hv : ∀ k, (k < n)%nat → default 0 (v !! k) = degree_scale np_power adj k).
  { intros k Hk. subst v. rewrite list_lookup_fmap, sp_row_sums_lookup by lia.
    reflexivity. }
  assert (Hlen : length v = n).
  { subst v. by rewrite length_fmap, length_sp_row_sums. }
  destruct (sp_dot_shape adj (sp_diags v)) as (ad & Had & Hadr & Hadc);
    [cbn [sp_diags sp_rows]; congruence|].
  rewrite Had. cbn [mbind outcome_bind].
  destruct (sp_dot_shape (sp_transpose ad) (sp_diags v)) as (R & HR & HRr & HRc);
    [cbn [sp_transpose sp_diags sp_rows sp_cols]; congruence|].
  rewrite HR. cbn [mbind outcome_bind mret outcome_ret].
  cbn [sp_transpose sp_diags sp_rows sp_cols] in *.
  exists R. split; [reflexivity|]. split; [split; congruence|].
  intros i j Hi Hj.
  rewrite (sp_dot_diags_get _ _ _ _ _ HR)
    by (cbn [sp_transpose sp_rows sp_cols]; lia).
  rewrite sp_get_transpose.
  rewrite (sp_dot_diags_get _ _ _ _ _ Had) by lia.
  rewrite !Hv by assumption. reflexivity.
Qed.

End RenormalisationEntries.

(** ** Renormalisation and supports *)

Section SupportFacts.

Variable np_power : Q → Q → Q.
Variable eigsh_LM : spmatrix → outcome Q.
Variable GCN_POLY : string.

(** X1. On a square matrix whose row sums are positive, the symmetric
    branch of [renormalization_trick] returns the matrix whose entry at
    [(i, j)] is [adj[j, i] * d_i * d_j], with [d_k] the sum of row [k]
    raised to the power -1/2: the transpose of [adj], scaled first by
    [d_i] and then by [d_j]. *)
Theorem renormalization_trick_entries (n : nat) (adj : spmatrix) :
  has_shape n adj →
  (∀ k, (k < n)%nat → 0 < row_sum adj k) →
  ∃ R, renormalization_trick np_power adj true = Returns (Some R)
       ∧ has_shape n R
       ∧ ∀ i j, (i < n)%nat → (j < n)%nat →
           sp_get R i j
           == sp_get adj j i * degree_scale np_power adj i * degree_scale np_power adj j.
Proof.
  intros Hshape _.
  destruct (renormalization_entries np_power n adj Hshape) as (R & HR & HRs & Hget).
  exists R. split; [exact HR|]. split; [exact HRs | exact Hget].
Qed.

(** X2. On a square matrix [transform_adj] adds the identity and
    renormalises: when the row sums of [adj + I] are positive, the result
    has the entries [(adj + I)[j, i] * d_i * d_j], with [d_k] computed
    from the row sums of [adj + I]. *)
Theorem transform_adj_entries (n : nat) (adj : spmatrix) :
  has_shape n adj →
  (∀ A', sp_add adj (sp_eye (sp_rows adj)) = Returns A' →
         ∀ k, (k < n)%nat → 0 < row_sum A' k) →
  ∃ A' R, sp_add adj (sp_eye (sp_rows adj)) = Returns A'
          ∧ transform_adj np_power adj true = Returns (Some R)
          ∧ has_shape n R
          ∧ (∀ i j, sp_get A' i j == sp_get adj i j + identity_entry n i j)
          ∧ ∀ i j, (i < n)%nat → (j < n)%nat →
              sp_get R i j
              == sp_get A' j i * degree_scale np_power A' i * degree_scale np_power A' j.
Proof.
  intros [Hr Hc] _. unfold transform_adj, sp_add.
  rewrite sp_binop_returns by (cbn [sp_eye sp_rows sp_cols]; congruence).
  cbn [mbind outcome_bind].
  set (A' := SpMatrix _ _ _).
  assert (HA' : has_shape n A') by (split; assumption).
  assert (Hget' : ∀ i j, sp_get A' i j == sp_get adj i j + identity_entry n i j).
  { intros i j. unfold sp_get at 1. subst A'. cbn [sp_data].
    rewrite (data_zip_lookup Qplus) by reflexivity.
    fold (sp_get adj i j). fold (sp_get (sp_eye (sp_rows adj)) i j).
    rewrite sp_get_eye, Hr. reflexivity. }
  destruct (renormalization_entries np_power n A' HA') as (R & HR & HRs & Hget).
  exists A', R. split; [reflexivity|]. split; [exact HR|]. split; [exact HRs|].
  split; [exact Hget' | exact Hget].
Qed.


End SupportFacts.

Lemma renormalization_trick_entries_witness :
  ∃ R, renormalization_trick (λ x _, x) example_adj true = Returns (Some R)
       ∧ has_shape 2 R
       ∧ ∀ i j, (i < 2)%nat → (j < 2)%nat →
           sp_get R i j
           == sp_get example_adj j i * degree_scale (λ x _, x) example_adj i
              * degree_scale (λ x _, x) example_adj j.
Proof.
  apply (renormalization_trick_entries (λ x _, x) 2 example_adj).
  - split; reflexivity.
  - intros [|[|k]] Hk; [reflexivity | reflexivity | lia].
Defined.

Lemma transform_adj_entries_witness :
  ∃ A' R, sp_add example_adj (sp_eye (sp_rows example_adj)) = Returns A'
          ∧ transform_adj (λ x _, x) example_adj true = Returns (Some R)
          ∧ has_shape 2 R
          ∧ (∀ i j, sp_get A' i j == sp_get example_adj i j + identity_entry 2 i j)
          ∧ ∀ i j, (i < 2)%nat → (j < 2)%nat →
              sp_get R i j
              == sp_get A' j i * degree_scale (λ x _, x) A' i
                 * degree_scale (λ x _, x) A' j.
Proof.
  apply (transform_adj_entries (λ x _, x) 2 example_adj).
  - split; reflexivity.
  - intros A' [= <-] [|[|k]] Hk; [reflexivity | reflexivity | lia].
Defined.


(** ** The adjacency matrix stored by [read_network] *)



Lemma coo_matrix_new_shape (data : list Q) (row col : list nat) (n m : nat)
    (A : coo_matrix) :
  coo_matrix_new data row col n m = Returns A → coo_rows A = n ∧ coo_cols A = m.
Proof.
  unfold coo_matrix_new. destruct (_ && _); [|discriminate]. intros [= <-]. by split.
Qed.

Lemma mapM_outcome_raises {A B} (f : A → outcome B) (xs : list A) (x : A) :
  x ∈ xs → (∀ b, f x ≠ Returns b) → ∃ e, mapM_outcome f xs = Raises e.
Proof.
  intros Hin Hx. induction xs as [|y xs IH]; [by apply elem_of_nil in Hin|].
  cbn [mapM_outcome]. destruct (f y) as [b|e0] eqn:Hy; cbn [mbind outcome_bind];
    [|by eexists].
  apply elem_of_cons in Hin as [->|Hin]; [by destruct (Hx b)|].
  destruct (IH Hin) as [e' ->]. cbn [mbind outcome_bind]. by eexists.
Qed.

Lemma mapM_outcome_raises_only {A B} (f : A → outcome B) (xs : list A) (x : A) (e : exn) :
  (∀ y e', f y = Raises e' → e' = e) →
  x ∈ xs → f x = Raises e → mapM_outcome f xs = Raises e.
Proof.
  intros Honly Hin Hx. induction xs as [|y xs IH]; [by apply elem_of_nil in Hin|].
  cbn [mapM_outcome]. destruct (f y) as [b|e0] eqn:Hy; cbn [mbind outcome_bind].
  - apply elem_of_cons in Hin as [->|Hin]; [congruence|].
    rewrite (IH Hin). reflexivity.
  - f_equal. by apply (Honly y).
Qed.

Section ReadNetworkAdj.

Variable py_float : string → outcome Q.


(** X5. An edge list that names a node without an id is never
    accepted: [read_network] raises, and for a two-column edge list the
    exception is a [TypeError] (the [None] returned by [dict.get] cannot
    be packed into the integer array). *)
Theorem read_network_unknown_node (self : Graph) (feats : spmatrix)
    (edges : list (list string)) (row : list string) (name : string) :
  features self = Some feats →
  (2 ≤ length edges)%nat →
  row ∈ edges → name ∈ take 2 row →
  dict_get name (node_to_id_map self) = None →
  ∃ e, read_network py_float self edges = Raises e
       ∧ (length <$> head edges = Some 2%nat → e = TypeError).
Proof.
  intros Hfeats Hlen Hrow Hname Hget. unfold read_network. rewrite Hfeats.
  destruct edges as [|first [|second rest]]; cbn [length] in Hlen; try lia.
  set (edges := first :: second :: rest) in *.
  destruct (decide (length first = 2%nat)) as [H2|H2].
  - rewrite (bool_decide_eq_true_2 _ H2). unfold ids_of_nodes.
    rewrite (mapM_outcome_raises_only _ (concat edges) name TypeError).
    + cbn [mbind outcome_bind]. eexists. split; reflexivity.
    + intros y e'. destruct (dict_get y _); [discriminate | congruence].
    + apply list_elem_of_In, in_concat. exists row.
      split; apply list_elem_of_In; [exact Hrow|].
      apply list_elem_of_lookup in Hname as [k Hk].
      apply lookup_take_Some in Hk as [Hk _]. by apply list_elem_of_lookup_2 in Hk.
    + by rewrite Hget.
  - rewrite (bool_decide_eq_false_2 _ H2).
    destruct (mapM_outcome_raises (weighted_edge py_float (node_to_id_map self))
                edges row Hrow) as [e' He'].
    + intros r. unfold weighted_edge, dict_item.
      apply list_elem_of_lookup in Hname as [k Hk].
      apply lookup_take_Some in Hk as [Hk Hk2].
      destruct (row !! 0%nat) as [a|] eqn:Ha; [|discriminate].
      destruct (dict_get a _) eqn:Hga; cbn [mbind outcome_bind]; [|discriminate].
      destruct (row !! 1%nat) as [b|] eqn:Hb; [|discriminate].
      destruct (dict_get b _) eqn:Hgb; cbn [mbind outcome_bind]; [|discriminate].
      destruct k as [|[|k]]; [congruence | congruence | lia].
    + rewrite He'. cbn [mbind outcome_bind]. eexists. split; [reflexivity|].
      cbn [head fmap option_fmap option_map]. intros [= ?]. contradiction.
Qed.


End ReadNetworkAdj.

(** ** What [read_labels] records *)

Lemma add_to_set_member (k v i j : nat) (m : pydict nat (gset nat)) :
  (∃ s, dict_get i (add_to_set k v m) = Some s ∧ j ∈ s)
  ↔ (∃ s, dict_get i m = Some s ∧ j ∈ s) ∨ (i = k ∧ j = v).
Proof.
  unfold add_to_set. destruct (decide (i = k)) as [->|Hne].
  - rewrite dict_get_set_eq. split.
    + intros (s & [= <-] & Hj). apply elem_of_union in Hj as [Hj|Hj].
      * left. destruct (dict_get k m) as [s|]; [by exists s|].
        by apply elem_of_empty in Hj.
      * right. apply elem_of_singleton in Hj. by split.
    + intros [(s & Hs & Hj)|[_ ->]]; eexists; (split; [reflexivity|]).
      * rewrite Hs. apply elem_of_union. by left.
      * apply elem_of_union. right. by apply elem_of_singleton.
  - rewrite dict_get_set_ne by exact Hne. split; [by left|].
    intros [?|[? _]]; [assumption | contradiction].
Qed.

(** The loop adds to the two maps exactly the pairs of ids of the rows. *)
Lemma read_labels_loop_members (node_ids label_ids : pydict string nat)
    (data : list (string * string)) :
  ∀ m1 m2 r1 r2,
    read_labels_loop node_ids label_ids data m1 m2 = Returns (r1, r2) →
    (∀ i j, (∃ s, dict_get i r1 = Some s ∧ j ∈ s)
            ↔ (∃ s, dict_get i m1 = Some s ∧ j ∈ s)
              ∨ ∃ n l, (n, l) ∈ data ∧ dict_get n node_ids = Some i
                       ∧ dict_get l label_ids = Some j)
    ∧ (∀ i j, (∃ t, dict_get j r2 = Some t ∧ i ∈ t)
              ↔ (∃ t, dict_get j m2 = Some t ∧ i ∈ t)
                ∨ ∃ n l, (n, l) ∈ data ∧ dict_get n node_ids = Some i
                         ∧ dict_get l label_ids = Some j).
Proof.
  induction data as [|[n l] data IH]; intros m1 m2 r1 r2; cbn [read_labels_loop].
  - intros [= <- <-]. split; intros i j; (split; [by left|]);
      (intros [?|(? & ? & Hin & _)]; [assumption | by apply elem_of_nil in Hin]).
  - unfold dict_item.
    destruct (dict_get n node_ids) as [node|] eqn:Hn; cbn [mbind outcome_bind];
      [|discriminate].
    destruct (dict_get l label_ids) as [label|] eqn:Hl; cbn [mbind outcome_bind];
      [|discriminate].
    intros Hloop. apply IH in Hloop as [H1 H2]. split; intros i j.
    + rewrite H1, add_to_set_member. split.
      * intros [[Hold|[-> ->]]|(n' & l' & Hin & Hget)].
        -- by left.
        -- right. exists n, l. split; [by left | by split].
        -- right. exists n', l'. split; [by right | exact Hget].
      * intros [Hold|(n' & l' & Hin & Hgn & Hgl)]; [by left; left|].
        apply elem_of_cons in Hin as [[= -> ->]|Hin].
        -- left. right. split; congruence.
        -- right. by exists n', l'.
    + rewrite H2, add_to_set_member. split.
      * intros [[Hold|[-> ->]]|(n' & l' & Hin & Hget)].
        -- by left.
        -- right. exists n, l. split; [by left | by split].
        -- right. exists n', l'. split; [by right | exact Hget].
      * intros [Hold|(n' & l' & Hin & Hgn & Hgl)]; [by left; left|].
        apply elem_of_cons in Hin as [[= -> ->]|Hin].
        -- left. right. split; congruence.
        -- right. by exists n', l'.
Qed.

Section ReadLabelsRecords.

Variable set_order : list string → list string.

(** The id given to a string is a position at which the iteration over
    the set visits it. *)
Lemma enumerate_ids_position (xs : list string) (x : string) (i : nat) :
  dict_get x (enumerate_ids set_order xs) = Some i → set_order xs !! i = Some x.
Proof.
  unfold enumerate_ids.
  assert (Hgen : ∀ (l : list (nat * string)) (d : pydict string nat),
             (∀ p, p ∈ l → set_order xs !! p.1 = Some p.2) →
             (∀ y k, dict_get y d = Some k → set_order xs !! k = Some y) →
             ∀ y k, dict_get y (foldl (λ d ix, dict_set ix.2 ix.1 d) d l) = Some k →
                    set_order xs !! k = Some y).
  { induction l as [|[k0 y0] l IH]; intros d Hl Hd y k; cbn [foldl]; [apply Hd|].
    apply IH.
    - intros p Hp. apply Hl. by right.
    - intros y' k'. cbn [fst snd]. destruct (decide (y' = y0)) as [->|Hne].
      + rewrite dict_get_set_eq. intros [= <-]. apply (Hl (k0, y0)). by left.
      + rewrite dict_get_set_ne by exact Hne. apply Hd. }
  apply Hgen.
  - intros [k y] Hp. apply elem_of_lookup_imap in Hp as (k' & y' & [= -> ->] & Hk).
    exact Hk.
  - intros y k. discriminate.
Qed.

(** X6. When [read_labels] returns, the maps it writes record
    the lines of the file and nothing else: label [j] is in the label set
    of node [i] exactly when some line [(n, l)] has [n] with id [i] and
    [l] with id [j], and in that case node [i] is in the node set of
    label [j]. *)
Theorem read_labels_records (self g : Graph) (data : list (string * string)) :
  read_labels set_order self data = Returns g →
  ∀ i j,
    ((∃ s, dict_get i (node_to_label_map g) = Some s ∧ j ∈ s)
     ↔ ∃ n l, (n, l) ∈ data ∧ dict_get n (node_to_id_map g) = Some i
              ∧ dict_get l (label_to_id_map g) = Some j)
    ∧ ((∃ t, dict_get j (label_to_node_map g) = Some t ∧ i ∈ t)
       ↔ ∃ s, dict_get i (node_to_label_map g) = Some s ∧ j ∈ s).
Proof.
  unfold read_labels.
  destruct (read_labels_loop _ _ _ _ _) as [[r1 r2]|e] eqn:Hloop;
    cbn [mbind outcome_bind]; [|discriminate].
  destruct (negb _); [discriminate|]. destruct (negb _); [discriminate|].
  destruct (_ <$> dict_values _) as [|row rows]; [discriminate|]. intros [= <-].
  cbn [node_to_label_map label_to_node_map node_to_id_map label_to_id_map fst snd].
  apply read_labels_loop_members in Hloop as [H1 H2]. intros i j.
  assert (Hnil : ¬ ∃ s : gset nat, dict_get i (@nil (nat * gset nat)) = Some s ∧ j ∈ s).
  { intros (s & Hs & _). discriminate. }
  assert (Hnil' : ¬ ∃ t : gset nat, dict_get j (@nil (nat * gset nat)) = Some t ∧ i ∈ t).
  { intros (t & Ht & _). discriminate. }
  split.
  - rewrite H1. tauto.
  - rewrite H2, H1. tauto.
Qed.

(** X7. When [read_labels] returns, the id of a node (and of a
    label) is a position at which the iteration over the set of nodes (of
    labels) visits it: ids are 0-based and below the number of visited
    elements, and two different nodes never share an id. *)
Theorem read_labels_ids (self g : Graph) (data : list (string * string)) :
  read_labels set_order self data = Returns g →
  (∀ x i, dict_get x (node_to_id_map g) = Some i → set_order data.*1 !! i = Some x)
  ∧ (∀ x i, dict_get x (label_to_id_map g) = Some i → set_order data.*2 !! i = Some x)
  ∧ (∀ x y i, dict_get x (node_to_id_map g) = Some i →
              dict_get y (node_to_id_map g) = Some i → x = y)
  ∧ (∀ x y i, dict_get x (label_to_id_map g) = Some i →
              dict_get y (label_to_id_map g) = Some i → x = y).
Proof.
  unfold read_labels.
  destruct (read_labels_loop _ _ _ _ _) as [[r1 r2]|e] eqn:Hloop;
    cbn [mbind outcome_bind]; [|discriminate].
  destruct (negb _); [discriminate|]. destruct (negb _); [discriminate|].
  destruct (_ <$> dict_values _) as [|row rows]; [discriminate|]. intros [= <-].
  cbn [node_to_id_map label_to_id_map].
  split; [|split; [|split]].
  - intros x i. apply enumerate_ids_position.
  - intros x i. apply enumerate_ids_position.
  - intros x y i Hx Hy. apply enumerate_ids_position in Hx, Hy. congruence.
  - intros x y i Hx Hy. apply enumerate_ids_position in Hx, Hy. congruence.
Qed.

(** Iterating over [set(xs)] visits every element of [xs]. *)
Hypothesis set_order_complete : ∀ xs x, x ∈ xs → x ∈ set_order xs.

(** X8. On a graph object whose stored maps agree in size (as on a
    new one), [read_labels] of a file with at least two lines returns:
    every node and label of the file gets an id, both assertions pass,
    and the features and the adjacency matrix of the object are kept. *)
Theorem read_labels_returns (self : Graph) (data : list (string * string)) :
  (2 ≤ length data)%nat →
  length (dict_keys (id_to_node_map self)) = length (dict_keys (node_to_label_map self)) →
  length (dict_keys (id_to_label_map self)) = length (dict_keys (label_to_node_map self)) →
  ∃ g, read_labels set_order self data = Returns g
       ∧ features g = features self ∧ adj g = adj self
       ∧ ∀ n l, (n, l) ∈ data →
           is_Some (dict_get n (node_to_id_map g))
           ∧ is_Some (dict_get l (label_to_id_map g)).
Proof.
  intros Hlen H1 H2. unfold read_labels.
  assert (Hids : ∀ n l, (n, l) ∈ data →
             is_Some (dict_get n (enumerate_ids set_order data.*1))
             ∧ is_Some (dict_get l (enumerate_ids set_order data.*2))).
  { intros n l Hin. split; apply (enumerate_ids_is_Some set_order set_order_complete).
    - by apply (list_elem_of_fmap_2 fst) in Hin.
    - by apply (list_elem_of_fmap_2 snd) in Hin. }
  destruct (read_labels_loop_returns _ _ data Hids [] []) as [[r1 r2] Hr].
  rewrite Hr. cbn [mbind outcome_bind].
  rewrite (bool_decide_eq_true_2 _ H1), (bool_decide_eq_true_2 _ H2). cbn [negb fst snd].
  destruct data as [|[n0 l0] data']; [cbn [length] in Hlen; lia|].
  apply read_labels_loop_keys in Hr as (_ & _ & Hk1 & _); [|apply NoDup_nil_2..].
  destruct (Hids n0 l0) as [[i0 Hi0] _]; [by left|].
  assert (Hin : i0 ∈ dict_keys r1).
  { apply Hk1. right. exists n0, l0. split; [by left | exact Hi0]. }
  destruct r1 as [|[k s] r1]; [by apply elem_of_nil in Hin|].
  cbn [dict_values fmap list_fmap].
  eexists. split; [reflexivity|].
  cbn [features adj node_to_id_map label_to_id_map]. repeat split; try reflexivity.
  - by apply (Hids n l).
  - by apply (Hids n l).
Qed.

End ReadLabelsRecords.

(** ** The assertions of [read_labels] *)

Section ReadLabelsStale.

Variable set_order : list string → list string.
(** Iterating over [set(xs)] visits the elements of [xs] and nothing else. *)
Hypothesis set_order_sound : ∀ xs x, x ∈ set_order xs → x ∈ xs.
Hypothesis set_order_complete : ∀ xs x, x ∈ xs → x ∈ set_order xs.

(** Neither assertion fires on an object whose stored maps agree in
    size, whatever the file (of at least two lines: numpy reads a file of
    one line as a one-dimensional array). *)
Lemma read_labels_passes (self : Graph) (data : list (string * string)) :
  (2 ≤ length data)%nat →
  length (dict_keys (id_to_node_map self)) = length (dict_keys (node_to_label_map self)) →
  length (dict_keys (id_to_label_map self)) = length (dict_keys (label_to_node_map self)) →
  ∃ g, read_labels set_order self data = Returns g.
Proof.
  intros Hlen H1 H2. unfold read_labels.
  assert (Hids : ∀ n l, (n, l) ∈ data →
             is_Some (dict_get n (enumerate_ids set_order data.*1))
             ∧ is_Some (dict_get l (enumerate_ids set_order data.*2))).
  { intros n l Hin. split; apply (enumerate_ids_is_Some set_order set_order_complete).
    - by apply (list_elem_of_fmap_2 fst) in Hin.
    - by apply (list_elem_of_fmap_2 snd) in Hin. }
  destruct (read_labels_loop_returns _ _ data Hids [] []) as [[r1 r2] Hr].
  rewrite Hr. cbn [mbind outcome_bind].
  rewrite (bool_decide_eq_true_2 _ H1), (bool_decide_eq_true_2 _ H2). cbn [negb fst snd].
  destruct data as [|[n0 l0] data']; [cbn [length] in Hlen; lia|].
  apply read_labels_loop_keys in Hr as (_ & _ & Hk1 & _); [|apply NoDup_nil_2..].
  destruct (Hids n0 l0) as [[i0 Hi0] _]; [by left|].
  assert (Hin : i0 ∈ dict_keys r1).
  { apply Hk1. right. exists n0, l0. split; [by left | exact Hi0]. }
  destruct r1 as [|[k s] r1]; [by apply elem_of_nil in Hin|].
  cbn [dict_values fmap list_fmap]. by eexists.
Qed.

(** After a call that returned, the assertions cannot fire again: they
    compare the maps left by that call, which agree in size, and not the
    maps built from the file that is being read.  Every later label file
    of at least two lines is accepted. *)
Lemma read_labels_after_read_returns (self g1 : Graph)
    (data1 data2 : list (string * string)) :
  read_labels set_order self data1 = Returns g1 →
  (2 ≤ length data2)%nat →
  ∃ g2, read_labels set_order g1 data2 = Returns g2.
Proof.
  intros Hfirst Hlen.
  destruct (read_labels_maps_consistent set_order set_order_sound _ _ _ Hfirst)
    as [H1 H2].
  by apply read_labels_passes.
Qed.

End ReadLabelsStale.


(** ** Features *)

Lemma dense_entries_elem (rows : list (list Q)) (i j : nat) (x : Q) :
  ((i, j), x) ∈ dense_entries rows ↔ ∃ row, rows !! i = Some row ∧ row !! j = Some x.
Proof.
  unfold dense_entries. rewrite list_elem_of_bind. split.
  - intros ([i' row] & Hx & Hrow).
    apply elem_of_lookup_imap in Hrow as (k & row' & [= -> ->] & Hk).
    cbn [fst snd] in Hx.
    apply elem_of_lookup_imap in Hx as (k' & y & [= -> -> ->] & Hk').
    by exists row'.
  - intros (row & Hrow & Hx). exists (i, row). split.
    + cbn [fst snd]. apply elem_of_lookup_imap. by exists j, x.
    + apply elem_of_lookup_imap. by exists i, row.
Qed.

Lemma dense_get_lookup (rows : list (list Q)) (i j : nat) (row : list Q) (x : Q) :
  rows !! i = Some row → row !! j = Some x → dense_get rows i j = x.
Proof. intros Hrow Hx. unfold dense_get. rewrite Hrow. cbn. by rewrite Hx. Qed.

Lemma dense_get_outside (rows : list (list Q)) (i j : nat) :
  (∀ x, ((i, j), x) ∉ dense_entries rows) → dense_get rows i j = 0.
Proof.
  intros Hout. unfold dense_get.
  destruct (rows !! i) as [row|] eqn:Hrow; [|reflexivity]. cbn.
  destruct (row !! j) as [x|] eqn:Hx; [|reflexivity].
  exfalso. apply (Hout x), dense_entries_elem. by exists row.
Qed.

Lemma sp_get_dense (n m : nat) (rows : list (list Q)) (i j : nat) :
  sp_get (dense_matrix n m rows) i j = dense_get rows i j.
Proof.
  unfold sp_get, dense_matrix. cbn [sp_data].
  rewrite (list_to_map_lookup_fun (λ k, dense_get rows k.1 k.2)).
  2: { intros x Hx. apply dense_entries_elem in Hx as (row & Hrow & Hx).
       symmetry. by apply (dense_get_lookup _ _ _ row). }
  destruct (decide _) as [Hin|Hnin]; [reflexivity|].
  cbn [default]. symmetry. apply dense_get_outside. intros x Hx. apply Hnin.
  apply list_elem_of_fmap. by exists ((i, j), x).
Qed.

Lemma sp_get_csr_of_dense (n m : nat) (rows : list (list Q)) (i j : nat) :
  sp_get (csr_of_dense n m rows) i j == dense_get rows i j.
Proof.
  unfold sp_get, csr_of_dense. cbn [sp_data].
  rewrite (list_to_map_lookup_fun (λ k, dense_get rows k.1 k.2)).
  2: { intros x Hx. apply list_elem_of_In, filter_In in Hx as [Hx _].
       apply list_elem_of_In, dense_entries_elem in Hx as (row & Hrow & Hx).
       symmetry. by apply (dense_get_lookup _ _ _ row). }
  destruct (decide _) as [Hin|Hnin]; [reflexivity|]. cbn [default fst snd].
  destruct (rows !! i) as [row|] eqn:Hrow; [|unfold dense_get; by rewrite Hrow].
  destruct (row !! j) as [x|] eqn:Hx;
    [|unfold dense_get; rewrite Hrow; cbn; by rewrite Hx].
  rewrite (dense_get_lookup _ _ _ row x Hrow Hx).
  destruct (Qeq_bool x 0) eqn:Hzero.
  - apply Qeq_bool_iff in Hzero. by rewrite Hzero.
  - exfalso. apply Hnin. apply list_elem_of_fmap. exists ((i, j), x).
    split; [reflexivity|]. apply list_elem_of_In, filter_In. split.
    + apply list_elem_of_In, dense_entries_elem. by exists row.
    + cbn [snd]. by rewrite Hzero.
Qed.

Lemma dense_get_identity (n i j : nat) :
  dense_get (identity_rows n) i j = identity_entry n i j.
Proof.
  unfold dense_get, identity_rows, identity_entry.
  rewrite list_lookup_fmap. destruct (decide (i < n)%nat) as [Hi|Hi].
  - rewrite lookup_seq_lt by exact Hi. cbn. rewrite list_lookup_fmap.
    destruct (decide (j < n)%nat) as [Hj|Hj].
    + rewrite lookup_seq_lt by exact Hj. cbn.
      destruct (decide (i = j)) as [->|Hne].
      * by rewrite !bool_decide_eq_true_2.
      * rewrite !bool_decide_eq_false_2; [reflexivity | tauto | exact Hne].
    + rewrite lookup_seq_ge by lia. cbn.
      rewrite bool_decide_eq_false_2; [reflexivity | lia].
  - rewrite lookup_seq_ge by lia. cbn.
    rewrite bool_decide_eq_false_2; [reflexivity | tauto].
Qed.

Lemma mapM_outcome_lookup {A B} (f : A → outcome B) (xs : list A) (ys : list B) :
  mapM_outcome f xs = Returns ys →
  ∀ i x, xs !! i = Some x → ∃ y, ys !! i = Some y ∧ f x = Returns y.
Proof.
  revert ys. induction xs as [|x0 xs IH]; intros ys; cbn [mapM_outcome].
  - intros _ i x Hx. discriminate.
  - destruct (f x0) as [y0|e] eqn:Hf; cbn [mbind outcome_bind]; [|discriminate].
    destruct (mapM_outcome f xs) as [ys'|e]; cbn [mbind outcome_bind]; [|discriminate].
    intros [= <-] [|i] x Hx.
    + injection Hx as <-. by exists y0.
    + by apply (IH ys' eq_refl).
Qed.

Section ReadFeaturesFacts.

Variable map_list_to_floats : list string → outcome (list Q).
Variable np_random_uniform : nat → nat → Q.

Local Abbreviation read_features := (read_features map_list_to_floats np_random_uniform).
Local Abbreviation node_count self := (length (dict_keys (id_to_node_map self))).

(** A returned graph object is the given one with a feature matrix that
    passed the final assertion. *)
Lemma read_features_stores (self g : Graph) (path : option string)
    (file : list (list string)) (one_hot : bool) (dim : Z) :
  read_features self path file one_hot dim = Returns g →
  ∃ F, g = set_features self F ∧ sp_rows F = node_count self.
Proof.
  unfold read_features.
  match goal with |- context [mbind _ ?m] => destruct m as [F|e] end;
    cbn [mbind outcome_bind]; [|discriminate].
  destruct (decide (sp_rows F = node_count self)) as [Hrows|Hrows].
  - rewrite (bool_decide_eq_true_2 _ Hrows). intros [= <-]. by exists F.
  - rewrite (bool_decide_eq_false_2 _ Hrows). discriminate.
Qed.

(** X9. Whatever the branch taken, when [read_features] returns
    the stored feature matrix has one row per node id (the final
    assertion), and nothing else of the graph object is changed. *)
Theorem read_features_rows (self g : Graph) (path : option string)
    (file : list (list string)) (one_hot : bool) (dim : Z) :
  read_features self path file one_hot dim = Returns g →
  ∃ F, features g = Some F
       ∧ sp_rows F = node_count self
       ∧ adj g = adj self ∧ labels g = labels self
       ∧ node_to_id_map g = node_to_id_map self
       ∧ id_to_node_map g = id_to_node_map self
       ∧ node_to_label_map g = node_to_label_map self
       ∧ edge_count g = edge_count self.
Proof.
  intros Hg. apply read_features_stores in Hg as (F & -> & Hrows). exists F.
  cbn [set_features features adj labels node_to_id_map id_to_node_map
       node_to_label_map edge_count].
  repeat split; try reflexivity. exact Hrows.
Qed.

(** X10. Without a feature file and with [one_hot] set, the
    argument [dim] is ignored: on a graph without node ids the call fails
    with the assertion on the dimension, and otherwise the features are
    the identity matrix with one row and one column per node id. *)
Theorem read_features_one_hot (self : Graph) (path : option string)
    (file : list (list string)) (dim : Z) :
  path_given path = false →
  if bool_decide (node_count self = 0%nat)
  then read_features self path file true dim = Raises (AssertionError "node count  = ")
  else ∃ F, read_features self path file true dim = Returns (set_features self F)
            ∧ sp_rows F = node_count self ∧ sp_cols F = node_count self
            ∧ ∀ i j, sp_get F i j = identity_entry (node_count self) i j.
Proof.
  intros Hpath. unfold read_features. rewrite Hpath.
  destruct (decide (node_count self = 0%nat)) as [Hzero|Hpos].
  - rewrite (bool_decide_eq_true_2 _ Hzero), Hzero.
    rewrite bool_decide_eq_false_2 by lia. reflexivity.
  - rewrite (bool_decide_eq_false_2 _ Hpos).
    rewrite (bool_decide_eq_true_2 (0 < _)%nat) by lia.
    cbn [mbind outcome_bind].
    destruct (graph_sparse_features self).
    + cbn [sp_eye sp_rows]. rewrite bool_decide_eq_true_2 by reflexivity.
      eexists. split; [reflexivity|]. cbn [sp_rows sp_cols].
      repeat split. intros i j. apply sp_get_eye.
    + cbn [dense_matrix sp_rows]. rewrite bool_decide_eq_true_2 by reflexivity.
      eexists. split; [reflexivity|]. cbn [sp_rows sp_cols].
      repeat split. intros i j.
      change (SpMatrix ?n ?m (list_to_map (dense_entries ?r)))
        with (dense_matrix n m r).
      rewrite sp_get_dense. apply dense_get_identity.
Qed.

(** X11. Features read from a file are stored as 32-bit integers:
    when the file is a table of at least two lines and two columns whose
    rows [map_list_to_floats] turns into rows of equal length, of floats
    within the 64-bit range, the call returns exactly when the number of
    lines is the number of node ids (and fails the final assertion
    otherwise), [one_hot] and [dim] are ignored, and the entry for line
    [i] and column [j] is the float read there with its fractional part
    dropped and the integer reduced modulo 2^32 into the signed 32-bit
    range. *)
Theorem read_features_file (self : Graph) (path : option string)
    (file : list (list string)) (rows : list (list Q)) (one_hot : bool) (dim : Z) :
  path_given path = true →
  (2 ≤ length file)%nat →
  (2 ≤ length (default [] (head file)))%nat →
  mapM_outcome (λ row, map_list_to_floats (drop 1 row)) file = Returns rows →
  rectangular rows = true →
  Forall (Forall fits_int64) rows →
  if bool_decide (length file = node_count self)
  then ∃ F, read_features self path file one_hot dim = Returns (set_features self F)
            ∧ sp_rows F = length file
            ∧ sp_cols F = length (default [] (head rows))
            ∧ ∀ i j row x, rows !! i = Some row → row !! j = Some x →
                sp_get F i j == inject_Z (int32_of_float x)
  else read_features self path file one_hot dim
       = Raises (AssertionError "Missing features for some nodes").
Proof.
  intros Hpath Hlen Hcols Hrows Hrect _. unfold read_features, features_of_file.
  rewrite Hpath.
  destruct file as [|[|c1 [|c2 first]] [|second rest]];
    simpl in Hlen, Hcols; try lia.
  set (file := (c1 :: c2 :: first) :: second :: rest) in *.
  rewrite Hrows, Hrect. cbn [mbind outcome_bind].
  pose proof (mapM_outcome_length _ _ _ Hrows) as Hlength.
  set (cast := (λ row : list Q, (λ x, inject_Z (int32_of_float x)) <$> row)).
  assert (Hentry : ∀ i j row x, rows !! i = Some row → row !! j = Some x →
            dense_get (cast <$> rows) i j = inject_Z (int32_of_float x)).
  { intros i j row x Hrow Hx. apply (dense_get_lookup _ _ _ (cast row)).
    - by rewrite list_lookup_fmap, Hrow.
    - unfold cast. by rewrite list_lookup_fmap, Hx. }
  assert (Hhead : length (default [] (head (cast <$> rows)))
                  = length (default [] (head rows))).
  { destruct rows as [|r rs]; [reflexivity|]. cbn. unfold cast. by rewrite length_fmap. }
  destruct (graph_sparse_features self).
  - cbn [csr_of_dense sp_rows]. rewrite length_fmap, Hlength.
    destruct (decide (length file = node_count self)) as [Heq|Hne].
    + rewrite !(bool_decide_eq_true_2 _ Heq). eexists. split; [reflexivity|].
      cbn [sp_rows sp_cols]. split; [reflexivity|]. split; [exact Hhead|].
      intros i j row x Hrow Hx.
      change (SpMatrix ?n ?m (list_to_map (List.filter ?f (dense_entries ?r))))
        with (csr_of_dense n m r).
      rewrite sp_get_csr_of_dense, (Hentry i j row x Hrow Hx). reflexivity.
    + rewrite !(bool_decide_eq_false_2 _ Hne). reflexivity.
  - cbn [dense_matrix sp_rows]. rewrite length_fmap, Hlength.
    destruct (decide (length file = node_count self)) as [Heq|Hne].
    + rewrite !(bool_decide_eq_true_2 _ Heq). eexists. split; [reflexivity|].
      cbn [sp_rows sp_cols]. split; [reflexivity|]. split; [exact Hhead|].
      intros i j row x Hrow Hx.
      change (SpMatrix ?n ?m (list_to_map (dense_entries ?r)))
        with (dense_matrix n m r).
      rewrite sp_get_dense, (Hentry i j row x Hrow Hx). reflexivity.
    + rewrite !(bool_decide_eq_false_2 _ Hne). reflexivity.
Qed.

End ReadFeaturesFacts.

(** ** Reading a data set *)

(** What [read_network] leaves in the object. *)
Lemma read_network_stores (py_float : string → outcome Q) (self g : Graph)
    (edges : list (list string)) (A : coo_matrix) :
  read_network py_float self edges = Returns (g, A) →
  ∃ feats S,
    features self = Some feats ∧ features g = Some feats
    ∧ adj g = Some S ∧ has_shape (sp_rows feats) S
    ∧ labels g = labels self
    ∧ id_to_node_map g = id_to_node_map self
    ∧ node_to_label_map g = node_to_label_map self
    ∧ edge_count g = Z.of_nat (length edges).
Proof.
  unfold read_network.
  destruct (features self) as [feats|]; [|discriminate].
  destruct edges as [|first [|second rest]]; try discriminate.
  set (edges := first :: second :: rest).
  match goal with |- context [mbind _ ?m] => destruct m as [adj_coo|e] eqn:Hcoo end;
    cbn [mbind outcome_bind]; [|discriminate].
  assert (Hshape : coo_rows adj_coo = sp_rows feats ∧ coo_cols adj_coo = sp_rows feats).
  { destruct (bool_decide (length first = 2%nat)).
    - destruct (ids_of_nodes _ _); cbn [mbind outcome_bind] in Hcoo; [|discriminate].
      by apply coo_matrix_new_shape in Hcoo.
    - destruct (mapM_outcome _ _); cbn [mbind outcome_bind] in Hcoo; [|discriminate].
      destruct (bool_decide (length first = 3%nat)); [|discriminate].
      by apply coo_matrix_new_shape in Hcoo. }
  destruct Hshape as [Hrows Hcols].
  destruct (symmetic_adj_entries (coo_tocsr adj_coo)) as (S & HS & Hr & Hc & Hget);
    [cbn [coo_tocsr sp_rows sp_cols]; congruence|].
  rewrite HS. cbn [mbind outcome_bind mret outcome_ret]. intros [= <- <-].
  exists feats, S.
  cbn [adj edge_count features labels id_to_node_map node_to_label_map].
  cbn [coo_tocsr sp_rows sp_cols] in Hr, Hc.
  repeat split; try reflexivity; try congruence.
Qed.

Section ReadDataFacts.

Variable set_order : list string → list string.
Variable map_list_to_floats : list string → outcome (list Q).
Variable np_random_uniform : nat → nat → Q.
Variable py_float : string → outcome Q.
Variable np_genfromtxt : string → outcome (list (list string)).

(** Iterating over [set(xs)] visits elements of [xs] only. *)
Hypothesis set_order_sound : ∀ xs x, x ∈ set_order xs → x ∈ xs.

(** X12. When [read_data] returns, the three parts of the data set
    fit together: the feature matrix, the label array and the adjacency
    matrix have one row per node id, the adjacency matrix is square, and
    [edge_count] is no longer negative. *)
Theorem read_data_consistent (self g : Graph) (data_dir dataset_name : string) :
  read_data set_order map_list_to_floats np_random_uniform py_float np_genfromtxt
    self data_dir dataset_name = Returns g →
  ∃ F L S,
    features g = Some F ∧ labels g = Some L ∧ adj g = Some S
    ∧ sp_rows F = length (dict_keys (id_to_node_map g))
    ∧ length L = sp_rows F
    ∧ has_shape (sp_rows F) S
    ∧ (0 ≤ edge_count g)%Z.
Proof.
  unfold read_data.
  destruct (np_genfromtxt (os_path_join _ "label.txt")) as [label_file|e];
    cbn [mbind outcome_bind]; [|discriminate].
  destruct (label_rows _) as [data|e]; cbn [mbind outcome_bind]; [|discriminate].
  destruct (read_labels _ _ _) as [g1|e] eqn:Hlabels;
    cbn [mbind outcome_bind]; [|discriminate].
  match goal with
  | |- context [if path_given ?p then ?a else ?b] =>
      destruct (if path_given p then a else b) as [feature_file|e]
  end; cbn [mbind outcome_bind]; [|discriminate].
  destruct (read_features _ _ _ _ _ _ _) as [g2|e] eqn:Hfeatures;
    cbn [mbind outcome_bind]; [|discriminate].
  destruct (np_genfromtxt (os_path_join _ "network.txt")) as [edges|e];
    cbn [mbind outcome_bind]; [|discriminate].
  destruct (read_network _ _ _) as [[g3 A]|e] eqn:Hnetwork;
    cbn [mbind outcome_bind mret outcome_ret]; [|discriminate].
  intros [= <-]. cbn [fst].
  pose proof (read_labels_maps_consistent set_order set_order_sound _ _ _ Hlabels)
    as [Hmaps _].
  assert (Hl : ∃ L, labels g1 = Some L
                    ∧ length L = length (dict_keys (node_to_label_map g1))).
  { revert Hlabels. unfold read_labels.
    destruct (read_labels_loop _ _ _ _ _) as [[r1 r2]|e];
      cbn [mbind outcome_bind]; [|discriminate].
    destruct (negb _); [discriminate|]. destruct (negb _); [discriminate|].
    destruct (_ <$> dict_values _) as [|row rows] eqn:Harr; [discriminate|].
    intros [= <-]. cbn [labels node_to_label_map fst]. eexists. split; [reflexivity|].
    rewrite <- Harr. unfold dict_keys, dict_values. by rewrite !length_fmap. }
  destruct Hl as (L & HL & HlenL).
  apply read_features_stores in Hfeatures as (F & -> & Hrows).
  apply read_network_stores in Hnetwork
    as (F' & S & HF' & HF3 & HS & Hshape & Hlab3 & Hid3 & Hnl3 & Hcount).
  cbn [set_features features adj labels node_to_id_map id_to_node_map
       node_to_label_map edge_count] in *.
  assert (F' = F) as -> by congruence.
  exists F, L, S. repeat split; try assumption; try congruence; try apply Hshape.
  lia.
Qed.

End ReadDataFacts.

Section DataPipelineInitFacts.

Variable set_order : list string → list string.
Variable map_list_to_floats : list string → outcome (list Q).
Variable np_random_uniform : nat → nat → Q.
Variable py_float : string → outcome Q.
Variable np_genfromtxt : string → outcome (list (list string)).
Variable np_power : Q → Q → Q.
Variable eigsh_LM : spmatrix → outcome Q.
Variable GCN_POLY : string.
Variable np_random_shuffle : list nat → list nat.

(** X13. A [DataPipeline] cannot be constructed: whatever the
    model parameters, the directory, the data set and the contents of the
    files, [__init__] raises [TypeError], because [_populate_graph] calls
    [read_data] with a keyword that [read_data] does not have; no file is
    read and no feed dictionary is built. *)
Theorem DataPipeline_init_raises (model_params : ModelParams)
    (data_dir dataset_name : string) :
  DataPipeline_init set_order map_list_to_floats np_random_uniform py_float
    np_genfromtxt np_power eigsh_LM GCN_POLY np_random_shuffle
    model_params data_dir dataset_name = Raises TypeError
  ∧ _populate_graph set_order map_list_to_floats np_random_uniform py_float
      np_genfromtxt model_params data_dir dataset_name = Raises TypeError.
Proof. split; reflexivity. Qed.

End DataPipelineInitFacts.

(** ** Masks and sparse tensor values *)

Lemma mask_fold_length (mask_size : Z) (indices : list Z) (mask : list Q) :
  length (foldl (λ mask i, <[Z.to_nat (i `mod` mask_size) := 1]> mask) mask indices)
  = length mask.
Proof.
  revert mask. induction indices as [|i indices IH]; intros mask; cbn [foldl].
  - reflexivity.
  - by rewrite IH, length_insert.
Qed.

Lemma mask_fold_lookup (mask_size : Z) (indices : list Z) (mask : list Q) (k : nat) :
  (k < length mask)%nat →
  foldl (λ mask i, <[Z.to_nat (i `mod` mask_size) := 1]> mask) mask indices !! k
  = if addressed indices mask_size k then Some 1 else mask !! k.
Proof.
  revert mask. induction indices as [|i indices IH]; intros mask Hk;
    cbn [foldl addressed existsb].
  - reflexivity.
  - rewrite IH by (by rewrite length_insert). fold (addressed indices mask_size k).
    destruct (addressed indices mask_size k); [by rewrite orb_true_r|].
    rewrite orb_false_r. destruct (Nat.eqb_spec (Z.to_nat (i `mod` mask_size)) k) as [->|Hne].
    + by apply list_lookup_insert_eq.
    + by apply list_lookup_insert_ne.
Qed.

(** What a returned mask looks like. *)
Lemma map_indices_to_mask_returns (indices : list Z) (mask_size : Z) (mask : list Q) :
  map_indices_to_mask indices mask_size = Returns mask →
  (0 ≤ mask_size)%Z
  ∧ (∀ i, i ∈ indices → (- mask_size ≤ i < mask_size)%Z)
  ∧ length mask = Z.to_nat mask_size
  ∧ ∀ k, (k < Z.to_nat mask_size)%nat →
         mask !! k = Some (if addressed indices mask_size k then 1 else 0).
Proof.
  unfold map_indices_to_mask.
  destruct (Z.ltb_spec mask_size 0) as [Hneg|Hsize]; [discriminate|].
  destruct (forallb _ indices) eqn:Hall; [|discriminate]. intros [= <-].
  split; [exact Hsize|]. split; [|split].
  - intros i Hi. rewrite forallb_forall in Hall.
    apply list_elem_of_In, Hall, andb_true_iff in Hi as [Hlo Hhi].
    apply Z.leb_le in Hlo. apply Z.ltb_lt in Hhi. lia.
  - by rewrite mask_fold_length, length_replicate.
  - intros k Hk. rewrite mask_fold_lookup by (by rewrite length_replicate).
    destruct (addressed indices mask_size k); [reflexivity|].
    by apply lookup_replicate_2.
Qed.

Lemma addressed_true (indices : list Z) (mask_size : Z) (k : nat) :
  addressed indices mask_size k = true
  ↔ ∃ i, i ∈ indices ∧ Z.to_nat (i `mod` mask_size) = k.
Proof.
  unfold addressed. rewrite existsb_exists. split.
  - intros (i & Hi & Heq). exists i. split; [by apply list_elem_of_In|].
    by apply Nat.eqb_eq.
  - intros (i & Hi & Heq). exists i. split; [by apply list_elem_of_In|].
    by apply Nat.eqb_eq.
Qed.

(** X14. For a non-negative size and indices that all lie between
    [-mask_size] and [mask_size - 1], [map_indices_to_mask] returns an
    array of [mask_size] entries that is 1 at the positions addressed by
    some index and 0 at every other position; repeated indices and the
    order of the indices make no difference. *)
Theorem map_indices_to_mask_entries (indices : list Z) (mask_size : Z) :
  (0 ≤ mask_size)%Z →
  Forall (λ i, (- mask_size ≤ i < mask_size)%Z) indices →
  ∃ mask, map_indices_to_mask indices mask_size = Returns mask
          ∧ length mask = Z.to_nat mask_size
          ∧ ∀ k, (k < Z.to_nat mask_size)%nat →
                 mask !! k = Some (if addressed indices mask_size k then 1 else 0).
Proof.
  intros Hsize Hrange. unfold map_indices_to_mask.
  destruct (Z.ltb_spec mask_size 0) as [Hneg|_]; [lia|].
  assert (Hall : forallb (λ i, (- mask_size <=? i)%Z && (i <? mask_size)%Z) indices = true).
  { apply forallb_forall. intros i Hi. apply list_elem_of_In in Hi.
    rewrite Forall_forall in Hrange. specialize (Hrange i Hi). cbn beta in Hrange.
    apply andb_true_iff. split; [apply Z.leb_le | apply Z.ltb_lt]; lia. }
  rewrite Hall. eexists. split; [reflexivity|]. split.
  - by rewrite mask_fold_length, length_replicate.
  - intros k Hk. rewrite mask_fold_lookup by (by rewrite length_replicate).
    destruct (addressed indices mask_size k); [reflexivity|].
    by apply lookup_replicate_2.
Qed.

Lemma convert_round_trip (X : spmatrix) (i j : nat) :
  stv_get (convert_sparse_matrix_to_sparse_tensor X) i j = sp_get X i j.
Proof.
  unfold convert_sparse_matrix_to_sparse_tensor, stv_get, sp_get.
  cbn [stv_indices stv_values]. by rewrite zip_fst_snd, list_to_map_to_list.
Qed.

(** X15. The sparse tensor value built from a sparse matrix holds
    the matrix: every coordinate is listed once, with its value at the
    same position of the value array, so the entry read back at [(i, j)]
    is the entry of the matrix, and the dense shape is the shape of the
    matrix. *)
Theorem convert_sparse_matrix_to_sparse_tensor_entries (X : spmatrix) :
  stv_dense_shape (convert_sparse_matrix_to_sparse_tensor X) = (sp_rows X, sp_cols X)
  ∧ NoDup (stv_indices (convert_sparse_matrix_to_sparse_tensor X))
  ∧ length (stv_indices (convert_sparse_matrix_to_sparse_tensor X)) = size (sp_data X)
  ∧ length (stv_values (convert_sparse_matrix_to_sparse_tensor X)) = size (sp_data X)
  ∧ ∀ i j, stv_get (convert_sparse_matrix_to_sparse_tensor X) i j = sp_get X i j.
Proof.
  unfold convert_sparse_matrix_to_sparse_tensor, stv_get, sp_get.
  cbn [stv_dense_shape stv_indices stv_values].
  split; [reflexivity|]. split; [apply NoDup_fst_map_to_list|].
  rewrite !length_fmap, length_map_to_list. split; [reflexivity|].
  split; [reflexivity|]. intros i j.
  by rewrite zip_fst_snd, list_to_map_to_list.
Qed.

(** ** The populated feed dicts *)

Lemma sp_take_rows_elem (X : spmatrix) (idx : list nat) (k j : nat) (x : Q) :
  ((k, j), x) ∈ (ri ← imap (λ r i, (r, i)) idx;
                 omap (λ e : nat * nat * Q,
                         if bool_decide (e.1.1 = ri.2)
                         then Some ((ri.1, e.1.2), e.2) else None)
                      (map_to_list (sp_data X)))
  ↔ ∃ i, idx !! k = Some i ∧ sp_data X !! (i, j) = Some x.
Proof.
  rewrite list_elem_of_bind. split.
  - intros ([r i] & Hx & Hri).
    apply elem_of_lookup_imap in Hri as (r' & i' & [= -> ->] & Hr).
    apply list_elem_of_omap in Hx as ([[i0 j0] x0] & Hin & Hsome).
    cbn [fst snd] in Hsome. destruct (bool_decide_reflect (i0 = i')) as [->|]; [|discriminate].
    injection Hsome as -> -> ->. exists i'. split; [exact Hr|].
    by apply elem_of_map_to_list in Hin.
  - intros (i & Hk & Hx). exists (k, i). split.
    + apply list_elem_of_omap. exists ((i, j), x). split.
      * by apply elem_of_map_to_list.
      * cbn [fst snd]. by rewrite bool_decide_eq_true_2.
    + apply elem_of_lookup_imap. by exists k, i.
Qed.

(** The rows gathered by [X[idx]]. *)
Lemma sp_take_rows_get (X Y : spmatrix) (idx : list nat) :
  sp_take_rows X idx = Returns Y →
  sp_rows Y = length idx ∧ sp_cols Y = sp_cols X
  ∧ ∀ k i j, idx !! k = Some i → sp_get Y k j = sp_get X i j.
Proof.
  unfold sp_take_rows. destruct (forallb _ idx); [|discriminate]. intros [= <-].
  cbn [sp_rows sp_cols]. split; [reflexivity|]. split; [reflexivity|].
  intros k i j Hk. unfold sp_get. cbn [sp_data].
  rewrite (list_to_map_lookup_fun (λ kj, default 0 (i' ← idx !! kj.1; sp_data X !! (i', kj.2)))).
  2: { intros x Hx. apply sp_take_rows_elem in Hx as (i' & Hi' & Hx).
       cbn [fst snd]. rewrite Hi'. cbn. by rewrite Hx. }
  cbn [fst snd]. rewrite Hk. cbn [mbind option_bind].
  destruct (decide _) as [Hin|Hnin]; [reflexivity|]. cbn [default].
  destruct (sp_data X !! (i, j)) as [x|] eqn:Hx; [|reflexivity].
  exfalso. apply Hnin. apply list_elem_of_fmap. exists ((k, j), x).
  split; [reflexivity|]. apply sp_take_rows_elem. by exists i.
Qed.

Lemma take_rows_lookup {A} (X Y : list A) (idx : list nat) :
  take_rows X idx = Returns Y →
  length Y = length idx ∧ ∀ k i, idx !! k = Some i → Y !! k = X !! i.
Proof.
  unfold take_rows. intros Hmap. split; [by eapply mapM_outcome_length|].
  intros k i Hk.
  destruct (mapM_outcome_lookup _ _ _ Hmap k i Hk) as (y & Hy & Hitem).
  unfold list_item in Hitem. destruct (X !! i) as [x|]; [|discriminate]. congruence.
Qed.

(** Outside the support placeholders the base feed dict holds the labels
    and the features and nothing else. *)
Lemma get_base_feed_dict_lookup (a b c : nat) (labels : list (list Q))
    (features : SparseTensorValue) (supports : list SparseTensorValue)
    (d : gmap placeholder feed_value) (p : placeholder) :
  get_base_feed_dict (_placeholder_inputs a b c) labels features supports = Returns d →
  (∀ i, p ≠ support_placeholder i) →
  d !! p = (<[features_placeholder := SparseValue features]>
              (<[labels_placeholder := ArrayValue labels]> ∅)
            : gmap placeholder feed_value) !! p.
Proof.
  intros Hd Hp. revert Hd. unfold get_base_feed_dict.
  set (step := λ (acc : outcome (gmap placeholder feed_value)) (i : nat), _).
  cbn [FEATURES LABELS _placeholder_inputs].
  set (d0 := <[features_placeholder := _]> _).
  assert (H0 : ∀ d', Returns d0 = Returns d' → d' !! p = d0 !! p).
  { by intros d' [= <-]. }
  revert H0. generalize (Returns d0). generalize (seq 0 (length supports)).
  intros l. revert d. induction l as [|i l IH]; intros d acc Hacc; cbn [foldl].
  - apply Hacc.
  - apply IH. intros d'. subst step. cbn beta.
    destruct acc as [d1|e]; cbn [mbind outcome_bind]; [|discriminate].
    unfold list_item.
    destruct (SUPPORTS (_placeholder_inputs a b c) !! i) as [q|] eqn:Hq;
      cbn [mbind outcome_bind]; [|discriminate].
    destruct (supports !! i) as [s|]; cbn [mbind outcome_bind]; [|discriminate].
    intros [= <-]. rewrite lookup_insert_ne.
    + by apply Hacc.
    + cbn [SUPPORTS _placeholder_inputs] in Hq. rewrite list_lookup_fmap in Hq.
      destruct (seq 0 c !! i) as [i'|]; [|discriminate]. injection Hq as <-.
      intros Heq. by apply (Hp i').
Qed.

(** Every support is fed at the support placeholder of its position. *)
Lemma get_base_feed_dict_support (a b c : nat) (labels : list (list Q))
    (features : SparseTensorValue) (supports : list SparseTensorValue)
    (d : gmap placeholder feed_value) (i : nat) (s : SparseTensorValue) :
  get_base_feed_dict (_placeholder_inputs a b c) labels features supports = Returns d →
  supports !! i = Some s →
  d !! support_placeholder i = Some (SparseValue s).
Proof.
  unfold get_base_feed_dict.
  set (step := λ (acc : outcome (gmap placeholder feed_value)) (i : nat), _).
  cbn [FEATURES LABELS _placeholder_inputs].
  set (d0 := <[features_placeholder := _]> _).
  assert (Hgen : ∀ m d', foldl step (Returns d0) (seq 0 m) = Returns d' →
            ∀ k t, (k < m)%nat → supports !! k = Some t →
                   d' !! support_placeholder k = Some (SparseValue t)).
  { induction m as [|m IH]; intros d' Hd' k t Hk Ht; [lia|].
    rewrite seq_S, foldl_app in Hd'. cbn [foldl plus] in Hd'.
    destruct (foldl step (Returns d0) (seq 0 m)) as [d1|e] eqn:Hfold;
      [|subst step; cbn in Hd'; discriminate].
    subst step. cbn beta in Hd'. cbn [mbind outcome_bind] in Hd'.
    unfold list_item in Hd'.
    destruct (SUPPORTS (_placeholder_inputs a b c) !! m) as [q|] eqn:Hq;
      cbn [mbind outcome_bind] in Hd'; [|discriminate].
    destruct (supports !! m) as [sm|] eqn:Hm; cbn [mbind outcome_bind] in Hd';
      [|discriminate].
    injection Hd' as <-.
    cbn [SUPPORTS _placeholder_inputs] in Hq. rewrite list_lookup_fmap in Hq.
    destruct (seq 0 c !! m) as [m'|] eqn:Hseq; [|discriminate].
    apply lookup_seq in Hseq as [-> _]. injection Hq as <-. cbn [plus].
    destruct (decide (k = m)) as [->|Hne].
    - rewrite lookup_insert_eq. congruence.
    - rewrite lookup_insert_ne by congruence. apply (IH d1 eq_refl k t); [lia | exact Ht]. }
  intros Hd Hi. apply (Hgen (length supports) d Hd i s); [|exact Hi].
  by apply lookup_lt_Some in Hi.
Qed.

Section FeedDictFacts.

Variable np_power : Q → Q → Q.
Variable eigsh_LM : spmatrix → outcome Q.
Variable GCN_POLY : string.
Variable np_random_shuffle : list nat → list nat.

Local Abbreviation populate :=
  (_populate_feed_dicts np_power eigsh_LM GCN_POLY np_random_shuffle).
Local Abbreviation shuffled F := (np_random_shuffle (seq 0 (sp_rows F))).

Ltac bind_step :=
  match goal with
  | |- context [mbind _ ?m] =>
      let H := fresh "Hstep" in
      destruct m eqn:H; cbn [mbind outcome_bind]; [|discriminate]
  end.

Ltac enter_populate F L A :=
  unfold _populate_feed_dicts;
  bind_step;
  destruct (features (graph _)) as [F|]; [|discriminate];
  destruct (labels (graph _)) as [L|]; [|discriminate];
  destruct (adj (graph _)) as [A|]; [|discriminate];
  repeat bind_step;
  intros [= <-];
  cbn [train_feed_dict validation_feed_dict test_feed_dict placeholder_dict
       graph model_params num_elements MASK DROPOUT _placeholder_inputs].

(** X16. In the three feed dicts the features and the labels are
    the same two values, and both are gathered by the same shuffle of the
    rows: row [k] of the fed labels is row [shuffle[k]] of the labels of
    the graph, and row [k] of the fed features is row [shuffle[k]] of the
    features of the graph, so a node keeps its own labels. *)
Theorem populate_feed_dicts_aligned (self r : DataPipeline) (dataset_splits : list Z) :
  populate self dataset_splits = Returns r →
  ∃ F L L' t,
    features (graph self) = Some F ∧ labels (graph self) = Some L
    ∧ Forall (λ d : gmap placeholder feed_value,
                d !! labels_placeholder = Some (ArrayValue L')
                ∧ d !! features_placeholder = Some (SparseValue t))
             [train_feed_dict r; validation_feed_dict r; test_feed_dict r]
    ∧ length L' = length (shuffled F)
    ∧ stv_dense_shape t = (length (shuffled F), sp_cols F)
    ∧ ∀ k i, shuffled F !! k = Some i →
        L' !! k = L !! i ∧ ∀ j, stv_get t k j = sp_get F i j.
Proof.
  enter_populate F L A.
  match goal with H : sp_take_rows _ _ = Returns ?Y |- _ =>
    apply sp_take_rows_get in H as (Hrows & Hcols & Hget); rename Y into F' end.
  match goal with H : take_rows _ _ = Returns ?Y |- _ =>
    apply take_rows_lookup in H as (HlenL & HgetL); rename Y into L' end.
  match goal with H : get_base_feed_dict _ _ _ _ = Returns ?d |- _ =>
    pose proof (get_base_feed_dict_lookup _ _ _ _ _ _ _ labels_placeholder H) as Hlab;
    pose proof (get_base_feed_dict_lookup _ _ _ _ _ _ _ features_placeholder H) as Hfeat
  end.
  rewrite lookup_insert_ne, lookup_insert_eq in Hlab by discriminate.
  rewrite lookup_insert_eq in Hfeat.
  exists F, L, L', (convert_sparse_matrix_to_sparse_tensor F').
  split; [reflexivity|]. split; [reflexivity|]. split.
  { repeat constructor; rewrite ?lookup_insert_ne by discriminate;
      first [by apply Hlab | by apply Hfeat]. }
  split; [exact HlenL|]. split.
  { cbn [convert_sparse_matrix_to_sparse_tensor stv_dense_shape]. congruence. }
  intros k i Hk. split; [by apply HgetL|]. intros j.
  rewrite convert_round_trip. by apply Hget.
Qed.

(** X17. The three feed dicts differ in the mask and the dropout
    entry only: on every other placeholder they agree, and the support
    computed at position [i] is fed, converted to a sparse tensor value,
    at the support placeholder [i] of each of them.  The graph and the
    model parameters of the pipeline are kept, and [num_elements] is the
    number of stored feature entries for sparse features and 0
    otherwise. *)
Theorem populate_feed_dicts_shared (self r : DataPipeline) (dataset_splits : list Z) :
  populate self dataset_splits = Returns r →
  (∀ p, p ≠ mask_placeholder → p ≠ dropout_placeholder →
        train_feed_dict r !! p = validation_feed_dict r !! p
        ∧ validation_feed_dict r !! p = test_feed_dict r !! p)
  ∧ (∃ F A supports,
       features (graph self) = Some F ∧ adj (graph self) = Some A
       ∧ compute_supports np_power eigsh_LM GCN_POLY A (model_params self)
         = Returns supports
       ∧ (SUPPORTS <$> placeholder_dict r)
         = Some (support_placeholder <$> seq 0 (length supports))
       ∧ (∀ i s, supports !! i = Some (Some s) →
            test_feed_dict r !! support_placeholder i
            = Some (SparseValue (convert_sparse_matrix_to_sparse_tensor s)))
       ∧ num_elements r = (if sparse_features (model_params self)
                           then Z.of_nat (size (sp_data F)) else 0%Z))
  ∧ graph r = graph self ∧ model_params r = model_params self.
Proof.
  enter_populate F L A.
  split; [|split; [|split; reflexivity]].
  - intros p Hmask Hdrop. rewrite !lookup_insert_ne by congruence. by split.
  - match goal with H : compute_supports _ _ _ _ _ = Returns ?l |- _ =>
      rename l into supports end.
    exists F, A, supports. do 2 (split; [reflexivity|]). split; [assumption|].
    split; [reflexivity|].
    split; [|reflexivity]. intros i s Hi.
    rewrite lookup_insert_ne by discriminate.
    match goal with H : mapM_outcome _ supports = Returns _ |- _ =>
      destruct (mapM_outcome_lookup _ _ _ H i (Some s) Hi) as (t & Ht & Hconv) end.
    injection Hconv as <-.
    eapply get_base_feed_dict_support; eassumption.
Qed.

(** X18. The masks of the train and of the validation feed dict
    have one entry per node and never select the same position: where
    the train mask is 1 the validation mask is 0. *)
Theorem populate_feed_dicts_masks_disjoint (self r : DataPipeline)
    (dataset_splits : list Z) :
  populate self dataset_splits = Returns r →
  ∃ F train_mask validation_mask,
    features (graph self) = Some F
    ∧ train_feed_dict r !! mask_placeholder = Some (VectorValue train_mask)
    ∧ validation_feed_dict r !! mask_placeholder = Some (VectorValue validation_mask)
    ∧ length train_mask = sp_rows F ∧ length validation_mask = sp_rows F
    ∧ ∀ k, train_mask !! k = Some 1 → validation_mask !! k = Some 0.
Proof.
  enter_populate F L A.
  match goal with H : split_indices _ _ = Returns ?idx |- _ =>
    destruct idx as [[train_index val_index] test_index];
    apply split_indices_blocks in H
      as (s0 & s1 & s2 & n0 & n1 & n2 & _ & _ & _ & _ & _ & _ & -> & -> & _) end.
  cbn [fst snd] in *.
  repeat match goal with H : map_indices_to_mask _ _ = Returns _ |- _ =>
    apply map_indices_to_mask_returns in H end.
  match goal with
  | Ht : context [np_arange 0 n0], Hv : context [np_arange n0 (n0 + n1)] |- _ =>
      destruct Ht as (Hsize & Hrange_t & Hlen_t & Hget_t);
      destruct Hv as (_ & Hrange_v & Hlen_v & Hget_v)
  end.
  rewrite Nat2Z.id in Hlen_t, Hlen_v, Hget_t, Hget_v.
  eexists F, _, _. split; [reflexivity|].
  split; [by rewrite lookup_insert_ne, lookup_insert_ne, lookup_insert_ne,
             lookup_insert_eq by discriminate|].
  split; [by rewrite lookup_insert_eq|].
  split; [exact Hlen_t|]. split; [exact Hlen_v|].
  intros k Hk.
  assert (Hlt : (k < sp_rows F)%nat) by (rewrite <- Hlen_t; by eapply lookup_lt_Some).
  rewrite Hget_t in Hk by exact Hlt. rewrite Hget_v by exact Hlt.
  destruct (addressed (np_arange 0 n0) _ k) eqn:Ht; [|discriminate].
  destruct (addressed (np_arange n0 (n0 + n1)) _ k) eqn:Hv; [|reflexivity].
  exfalso.
  apply addressed_true in Ht as (i & Hi & Hik). apply addressed_true in Hv as (i' & Hi' & Hik').
  pose proof (Hrange_t i Hi) as Hri. pose proof (Hrange_v i' Hi') as Hri'.
  unfold np_arange in Hi, Hi'. apply elem_of_seqZ in Hi, Hi'.
  rewrite Z.mod_small in Hik by lia. rewrite Z.mod_small in Hik' by lia. lia.
Qed.

End FeedDictFacts.

(** ** Predictions and accuracy *)

Lemma correct_predictions_finite (predictions labels : list tfloat) :
  zip_with (λ p l, tf_cast (tf_equal p l)) predictions labels
  = Finite <$> correct predictions labels.
Proof.
  unfold correct. revert labels.
  induction predictions as [|p ps IH]; intros [|l ls]; cbn; try reflexivity.
  rewrite IH. unfold tf_cast. by destruct (tf_equal p l).
Qed.

Lemma length_correct (predictions labels : list tfloat) :
  length predictions = length labels →
  length (correct predictions labels) = length predictions.
Proof. intros Hlen. unfold correct. rewrite length_zip_with. lia. Qed.

Lemma Qsum_correct_bounds (predictions labels : list tfloat) :
  0 <= Qsum (correct predictions labels)
  ∧ Qsum (correct predictions labels)
    <= inject_Z (Z.of_nat (length (correct predictions labels))).
Proof.
  unfold correct. revert labels.
  induction predictions as [|p ps IH]; intros [|l ls]; cbn [zip_with Qsum foldr length];
    try (split; apply Qle_refl).
  destruct (IH ls) as [Hlo Hhi]. fold (Qsum (zip_with (λ p l, if tf_equal p l then 1 else 0) ps ls)).
  rewrite Nat2Z.inj_succ, <- Z.add_1_l, inject_Z_plus.
  change (inject_Z 1) with 1.
  destruct (tf_equal p l); split.
  - apply (Qle_trans _ (0 + 0)); [apply Qle_refl|]. apply Qplus_le_compat; [discriminate | exact Hlo].
  - apply Qplus_le_compat; [apply Qle_refl | exact Hhi].
  - apply (Qle_trans _ (0 + 0)); [apply Qle_refl|]. apply Qplus_le_compat; [apply Qle_refl | exact Hlo].
  - apply Qplus_le_compat; [discriminate | exact Hhi].
Qed.

Section MetricsFacts.

Variable tf_sigmoid : tfloat → tfloat.
Variable TRAIN : string.
Variable sparse_div_checks_zero : bool.

(** X19. The prediction operator gives one prediction per output
    and every prediction is 0.0 or 1.0, whatever the outputs are; an
    output whose sigmoid is NaN is predicted 0.0. *)
Theorem prediction_op_binary (self : Base_Model) :
  length (_prediction_op tf_sigmoid self) = length (outputs self)
  ∧ Forall (λ p, p = Finite 0 ∨ p = Finite 1) (_prediction_op tf_sigmoid self)
  ∧ ∀ k o, outputs self !! k = Some o → tf_sigmoid o = NaN →
           _prediction_op tf_sigmoid self !! k = Some (Finite 0).
Proof.
  unfold _prediction_op. split; [by rewrite length_fmap|]. split.
  - apply Forall_fmap, Forall_forall. intros o _. cbn [compose].
    unfold tf_cast. destruct (tf_greater_equal _ _); [by right | by left].
  - intros k o Hk Hnan. rewrite list_lookup_fmap, Hk. cbn. by rewrite Hnan.
Qed.

(** X20. For predictions of the shape of the labels (and at least
    one of them) the accuracy operator returns, in train mode, the
    fraction of the positions at which the prediction equals the label, a
    number between 0 and 1, without reading the mask; in any other mode,
    for a valid mask of that shape with finite values of non-zero sum, it
    returns the sum of the mask over the correct positions divided by the
    sum of the mask. *)
Theorem accuracy_op_value (self : Base_Model) (predictions : list tfloat) (ms : list Q) :
  length predictions = length (bm_labels self) →
  predictions ≠ [] →
  (mode self ≠ TRAIN →
     st_values (mask self) = Finite <$> ms
     ∧ valid_sparse (mask self)
     ∧ st_dense_size (mask self) = length predictions
     ∧ ¬ Qsum ms == 0) →
  ∃ q, _accuracy_op TRAIN sparse_div_checks_zero self predictions = Returns (Finite q)
       ∧ q == (if bool_decide (mode self = TRAIN)
               then Qsum (correct predictions (bm_labels self))
                    / inject_Z (Z.of_nat (length predictions))
               else Qsum (zip_with Qmult (correct predictions (bm_labels self))
                            (dense_mask (st_indices (mask self)) ms (length predictions)))
                    / Qsum ms)
       ∧ (mode self = TRAIN → 0 <= q <= 1).
Proof.
  intros Hlen Hne Hmask. unfold _accuracy_op.
  rewrite (bool_decide_eq_true_2 _ Hlen). cbn [mbind outcome_bind].
  rewrite correct_predictions_finite.
  pose proof (length_correct _ _ Hlen) as Hlc.
  destruct (decide (mode self = TRAIN)) as [Htrain|Heval].
  - rewrite !(bool_decide_eq_true_2 _ Htrain).
    unfold tf_reduce_mean. rewrite tf_reduce_sum_finite, length_fmap, Hlc.
    cbn [tf_div]. rewrite inject_nat_nonzero by (by destruct predictions).
    eexists. split; [reflexivity|]. split; [reflexivity|]. intros _.
    destruct (Qsum_correct_bounds predictions (bm_labels self)) as [Hlo Hhi].
    rewrite Hlc in Hhi.
    assert (Hpos : 0 < inject_Z (Z.of_nat (length predictions))).
    { change 0 with (inject_Z 0). rewrite <- Zlt_Qlt. destruct predictions; [done|].
      cbn [length]. lia. }
    split.
    + apply Qle_shift_div_l; [exact Hpos|]. by rewrite Qmult_0_l.
    + apply Qle_shift_div_r; [exact Hpos|]. by rewrite Qmult_1_l.
  - rewrite !(bool_decide_eq_false_2 _ Heval).
    destruct (Hmask Heval) as (Hvals & (Hlenm & Hinc & Hrange) & Hsize & Hsum).
    unfold tf_sparse_reduce_sum, tf_sparse_div. rewrite Hvals, tf_reduce_sum_finite.
    rewrite (tf_is_zero_false (Finite (Qsum ms)) Hsum), andb_false_r.
    cbn [andb mbind outcome_bind].
    rewrite tf_sparse_tensor_to_dense_valid.
    2: { unfold valid_sparse. cbn [st_indices st_values st_dense_size].
         rewrite Hvals in Hlenm. rewrite length_fmap. repeat split; assumption. }
    cbn [st_indices st_values st_dense_size mbind outcome_bind].
    rewrite tf_div_finite by exact Hsum.
    rewrite dense_finite, Hsize. unfold tf_multiply.
    rewrite bool_decide_eq_true_2.
    2: { unfold dense_mask. by rewrite !length_fmap, length_seq. }
    cbn [mbind outcome_bind mret outcome_ret].
    rewrite zip_with_finite, tf_reduce_sum_finite.
    eexists. split; [reflexivity|]. split; [|contradiction].
    apply (Qsum_zip_scaled (Qsum ms) _ _ _ (dense_mask_scaled _ _ _ _)).
Qed.

End MetricsFacts.

(** ** The Chebyshev polynomials *)

Lemma sp_binop_get (f : Q → Q → Q) (A B C : spmatrix) (i j : nat) :
  f 0 0 == 0 →
  sp_binop f A B = Returns C →
  sp_get C i j == f (sp_get A i j) (sp_get B i j).
Proof.
  intros Hf. unfold sp_binop. destruct (same_shape A B); [|discriminate].
  intros [= <-]. unfold sp_get. cbn [sp_data]. by apply data_zip_lookup.
Qed.

Lemma sp_get_scale (c : Q) (A : spmatrix) (i j : nat) :
  sp_get (sp_scale c A) i j == c * sp_get A i j.
Proof.
  unfold sp_get, sp_scale. cbn [sp_data]. rewrite lookup_fmap.
  destruct (sp_data A !! (i, j)); cbn; [reflexivity | ring].
Qed.

Lemma sp_get_div_scalar (c : Q) (A : spmatrix) (i j : nat) :
  sp_get (sp_div_scalar A c) i j == sp_get A i j / c.
Proof.
  unfold sp_get, sp_div_scalar. cbn [sp_data]. rewrite lookup_fmap.
  destruct (sp_data A !! (i, j)); cbn; [reflexivity | unfold Qdiv; ring].
Qed.

Lemma sp_binop_not_same_shape (f : Q → Q → Q) (A B : spmatrix) :
  sp_rows A ≠ sp_rows B ∨ sp_cols A ≠ sp_cols B →
  sp_binop f A B = Raises ValueError.
Proof.
  intros Hne. unfold sp_binop, same_shape.
  destruct Hne as [Hne|Hne]; rewrite (bool_decide_eq_false_2 _ Hne);
    [reflexivity | by rewrite andb_false_r].
Qed.

Section ChebyshevFacts.

Variable np_power : Q → Q → Q.
Variable eigsh_LM : spmatrix → outcome Q.
Variable GCN_POLY : string.

(** X21. On square matrices of one size the recurrence returns the
    matrix [2 * X.dot(current) - previous] of that size: its entry at
    [(i, j)] is twice the sum of [X[i, k] * current[k, j]] over [k],
    minus [previous[i, j]]. *)
Theorem chebyshev_recurrence_entries (n : nat) (current previous X : spmatrix) :
  has_shape n current → has_shape n previous → has_shape n X →
  ∃ next, _compute_chebyshev_recurrence current previous X = Returns next
          ∧ has_shape n next
          ∧ ∀ i j, (i < n)%nat → (j < n)%nat →
              sp_get next i j
              == 2 * Qsum ((λ k, sp_get X i k * sp_get current k j) <$> seq 0 n)
                 - sp_get previous i j.
Proof.
  intros Hc Hp HX.
  destruct (chebyshev_recurrence_shape n current previous X Hc Hp HX)
    as (next & Hnext & Hshape).
  exists next. split; [exact Hnext|]. split; [exact Hshape|].
  intros i j Hi Hj. revert Hnext. unfold _compute_chebyshev_recurrence.
  destruct (sp_dot X current) as [xc|e] eqn:Hxc; cbn [mbind outcome_bind]; [|discriminate].
  intros Hsub. unfold sp_sub in Hsub.
  rewrite (sp_binop_get Qminus _ _ _ i j (Qplus_opp_r 0) Hsub), sp_get_scale.
  destruct HX as [HXr HXc], Hc as [Hcr Hcc].
  rewrite (sp_dot_get _ _ _ i j Hxc) by lia. rewrite HXc. reflexivity.
Qed.

(** X22. On a square adjacency matrix whose row sums are positive, with
    [R] its renormalisation and [ev], not zero, the eigenvalue that the
    eigensolver returns for [I - R], and for a degree of at least 1, the
    computation returns [degree + 1] matrices: the identity, then the
    scaled Laplacian [T_1 = (2 * (I - R)) / ev - I], and from position 2
    on the matrices given by the recurrence with [T_1] as the operator. *)
Theorem compute_chebyshev_polynomial_terms (adj R L : spmatrix) (ev : Q) (degree : Z) :
  sp_rows adj = sp_cols adj →
  (∀ k, (k < sp_rows adj)%nat → 0 < row_sum adj k) →
  renormalization_trick np_power adj true = Returns (Some R) →
  sp_sub (get_identity (sp_rows adj)) R = Returns L →
  eigsh_LM L = Returns ev →
  ¬ ev == 0 →
  (1 ≤ degree)%Z →
  ∃ Tk T1,
    compute_chebyshev_polynomial np_power eigsh_LM adj degree = Returns Tk
    ∧ length Tk = Z.to_nat (degree + 1)
    ∧ Tk !! 0%nat = Some (get_identity (sp_rows adj))
    ∧ Tk !! 1%nat = Some T1
    ∧ has_shape (sp_rows adj) T1
    ∧ (∀ i j, sp_get T1 i j
              == 2 * (identity_entry (sp_rows adj) i j - sp_get R i j) / ev
                 - identity_entry (sp_rows adj) i j)
    ∧ ∀ i : nat, (2 ≤ i < length Tk)%nat →
        ∃ a b c, Tk !! (i - 2)%nat = Some a ∧ Tk !! (i - 1)%nat = Some b
                 ∧ Tk !! i = Some c
                 ∧ _compute_chebyshev_recurrence b a T1 = Returns c.
Proof.
  intros Hsq _ HR HL Hev _ Hdeg. unfold compute_chebyshev_polynomial.
  assert (Hadj : has_shape (sp_rows adj) adj) by (split; congruence).
  destruct (renormalization_trick_symmetric np_power _ adj Hadj) as (R' & HR' & HRs).
  assert (R' = R) as -> by congruence.
  rewrite HR. cbn [mbind outcome_bind].
  destruct (sp_binop_shape Qminus _ _ R (sp_eye_shape (sp_rows adj)) HRs)
    as (L' & HL' & HLs).
  assert (L' = L) as -> by (unfold sp_sub, get_identity in HL; congruence).
  rewrite HL. cbn [mbind outcome_bind]. rewrite Hev. cbn [mbind outcome_bind].
  assert (Hscaled : has_shape (sp_rows adj) (sp_div_scalar (sp_scale 2 L) ev)).
  { destruct HLs. split; cbn [sp_div_scalar sp_scale sp_rows sp_cols]; assumption. }
  unfold sp_sub, get_identity in *.
  destruct (sp_binop_shape Qminus _ _ _ Hscaled (sp_eye_shape (sp_rows adj)))
    as (T1 & HT1 & HT1s).
  rewrite HT1. cbn [mbind outcome_bind].
  destruct (chebyshev_loop_chain _ T1 (Z.to_nat (degree + 1 - 2)) HT1s []
              (sp_eye (sp_rows adj)) T1 (sp_eye_shape _) HT1s)
    as (ext & Hloop & Hlen & Hchain).
  cbn [app] in Hloop. rewrite Hloop.
  exists (sp_eye (sp_rows adj) :: T1 :: ext), T1.
  split; [reflexivity|].
  split; [cbn [length]; rewrite Hlen; lia|].
  do 2 (split; [reflexivity|]). split; [exact HT1s|]. split.
  - intros i j.
    rewrite (sp_binop_get Qminus _ _ _ i j (Qplus_opp_r 0) HT1).
    rewrite sp_get_div_scalar, sp_get_scale.
    rewrite (sp_binop_get Qminus _ _ _ i j (Qplus_opp_r 0) HL).
    rewrite !sp_get_eye. unfold Qdiv. ring.
  - intros i Hi. cbn [length] in Hi.
    apply (chebyshev_chain_lookup T1 ext (sp_eye (sp_rows adj)) T1 i Hchain). lia.
Qed.

(** X23. An adjacency matrix that is not square is refused
    with [ValueError], by the renormalisation, by the Chebyshev
    polynomials and therefore by [compute_supports] for every model. *)
Theorem compute_supports_not_square (adj : spmatrix) (model_params : ModelParams)
    (degree : Z) :
  sp_rows adj ≠ sp_cols adj →
  renormalization_trick np_power adj true = Raises ValueError
  ∧ transform_adj np_power adj true = Raises ValueError
  ∧ compute_chebyshev_polynomial np_power eigsh_LM adj degree = Raises ValueError
  ∧ compute_supports np_power eigsh_LM GCN_POLY adj model_params = Raises ValueError.
Proof.
  intros Hne.
  assert (Hrenorm : renormalization_trick np_power adj true = Raises ValueError).
  { unfold renormalization_trick, sp_dot. cbn [sp_diags sp_rows].
    rewrite length_fmap, length_sp_row_sums.
    rewrite bool_decide_eq_false_2 by congruence. reflexivity. }
  assert (Htrans : transform_adj np_power adj true = Raises ValueError).
  { unfold transform_adj, sp_add.
    rewrite sp_binop_not_same_shape; [reflexivity|].
    right. cbn [sp_eye sp_cols]. congruence. }
  assert (Hcheb : ∀ d, compute_chebyshev_polynomial np_power eigsh_LM adj d
                       = Raises ValueError).
  { intros d. unfold compute_chebyshev_polynomial. by rewrite Hrenorm. }
  split; [exact Hrenorm|]. split; [exact Htrans|]. split; [apply Hcheb|].
  unfold compute_supports. rewrite Hcheb, Htrans. by destruct (bool_decide _).
Qed.

End ChebyshevFacts.

(** ** Refused inputs *)

(** X24. [symmetic_adj] accepts the square matrices and no
    others: on a square matrix it returns a matrix of the same shape, and
    on any other matrix it raises [ValueError] (the comparison of the
    matrix with its transpose). *)
Theorem symmetic_adj_square_only (adj : spmatrix) :
  if bool_decide (sp_rows adj = sp_cols adj)
  then ∃ S, symmetic_adj adj = Returns S
            ∧ sp_rows S = sp_rows adj ∧ sp_cols S = sp_cols adj
  else symmetic_adj adj = Raises ValueError.
Proof.
  destruct (bool_decide_reflect (sp_rows adj = sp_cols adj)) as [Hsq|Hne].
  - destruct (symmetic_adj_entries adj Hsq) as (S & HS & Hr & Hc & _). by exists S.
  - by apply symmetic_adj_not_square.
Qed.

Section PopulateErrors.

Variable np_power : Q → Q → Q.
Variable eigsh_LM : spmatrix → outcome Q.
Variable GCN_POLY : string.
Variable np_random_shuffle : list nat → list nat.

(** X25. Split weights that sum to zero are refused before the
    graph is read: whatever the pipeline holds, [_populate_feed_dicts]
    raises [ZeroDivisionError] on a non-empty list of such weights. *)
Theorem populate_feed_dicts_zero_sum (self : DataPipeline) (dataset_splits : list Z) :
  dataset_splits ≠ [] →
  foldr Z.add 0%Z dataset_splits = 0%Z →
  _populate_feed_dicts np_power eigsh_LM GCN_POLY np_random_shuffle self dataset_splits
  = Raises ZeroDivisionError.
Proof.
  intros Hne Hsum. unfold _populate_feed_dicts, normalised_splits. rewrite Hsum.
  destruct dataset_splits as [|x splits]; [contradiction|]. reflexivity.
Qed.

End PopulateErrors.

Lemma populate_feed_dicts_zero_sum_witness :
  _populate_feed_dicts (λ x _, x) (λ _, Returns 2) "gcn_poly" (@rev nat)
    four_node_pipeline [1; -1]%Z
  = Raises ZeroDivisionError.
Proof.
  apply (populate_feed_dicts_zero_sum (λ x _, x) (λ _, Returns 2) "gcn_poly" (@rev nat)
           four_node_pipeline [1; -1]%Z).
  - discriminate.
  - reflexivity.
Defined.

(** ** The properties on the small data set *)


Lemma read_network_unknown_node_witness :
  ∃ e, read_network (λ s, Returns (toy_float s)) two_node_graph
         [["a"; "c"]; ["a"; "b"]] = Raises e
       ∧ (length <$> head [["a"; "c"]; ["a"; "b"]] = Some 2%nat → e = TypeError).
Proof.
  apply (read_network_unknown_node (λ s, Returns (toy_float s)) two_node_graph
           (sp_eye 2) [["a"; "c"]; ["a"; "b"]] ["a"; "c"] "c").
  - reflexivity.
  - cbn [length]. lia.
  - by left.
  - cbn [take]. right. by left.
  - reflexivity.
Defined.

Lemma read_labels_records_witness :
  ((∃ s, dict_get 1%nat (node_to_label_map toy_labelled_graph) = Some s ∧ 0%nat ∈ s)
   ↔ ∃ n l, (n, l) ∈ toy_label_data
            ∧ dict_get n (node_to_id_map toy_labelled_graph) = Some 1%nat
            ∧ dict_get l (label_to_id_map toy_labelled_graph) = Some 0%nat)
  ∧ ((∃ t, dict_get 0%nat (label_to_node_map toy_labelled_graph) = Some t ∧ 1%nat ∈ t)
     ↔ ∃ s, dict_get 1%nat (node_to_label_map toy_labelled_graph) = Some s ∧ 0%nat ∈ s).
Proof.
  apply (read_labels_records remove_dups (Graph_init "gcn" true) toy_labelled_graph
           toy_label_data).
  vm_compute. reflexivity.
Defined.

Lemma read_labels_ids_witness :
  (∀ x i, dict_get x (node_to_id_map toy_labelled_graph) = Some i →
          remove_dups toy_label_data.*1 !! i = Some x)
  ∧ (∀ x i, dict_get x (label_to_id_map toy_labelled_graph) = Some i →
            remove_dups toy_label_data.*2 !! i = Some x)
  ∧ (∀ x y i, dict_get x (node_to_id_map toy_labelled_graph) = Some i →
              dict_get y (node_to_id_map toy_labelled_graph) = Some i → x = y)
  ∧ (∀ x y i, dict_get x (label_to_id_map toy_labelled_graph) = Some i →
              dict_get y (label_to_id_map toy_labelled_graph) = Some i → x = y).
Proof.
  apply (read_labels_ids remove_dups (Graph_init "gcn" true) toy_labelled_graph
           toy_label_data).
  vm_compute. reflexivity.
Defined.

Lemma read_labels_returns_witness :
  ∃ g, read_labels remove_dups (Graph_init "gcn" true) toy_label_data = Returns g
       ∧ features g = features (Graph_init "gcn" true)
       ∧ adj g = adj (Graph_init "gcn" true)
       ∧ ∀ n l, (n, l) ∈ toy_label_data →
           is_Some (dict_get n (node_to_id_map g))
           ∧ is_Some (dict_get l (label_to_id_map g)).
Proof.
  apply (read_labels_returns remove_dups).
  - intros xs x Hx. by apply elem_of_remove_dups.
  - cbn [toy_label_data length]. lia.
  - reflexivity.
  - reflexivity.
Defined.

Lemma read_features_rows_witness :
  ∃ F, features (set_features two_node_graph (sp_eye 2)) = Some F
       ∧ sp_rows F = length (dict_keys (id_to_node_map two_node_graph))
       ∧ adj (set_features two_node_graph (sp_eye 2)) = adj two_node_graph
       ∧ labels (set_features two_node_graph (sp_eye 2)) = labels two_node_graph
       ∧ node_to_id_map (set_features two_node_graph (sp_eye 2))
         = node_to_id_map two_node_graph
       ∧ id_to_node_map (set_features two_node_graph (sp_eye 2))
         = id_to_node_map two_node_graph
       ∧ node_to_label_map (set_features two_node_graph (sp_eye 2))
         = node_to_label_map two_node_graph
       ∧ edge_count (set_features two_node_graph (sp_eye 2)) = edge_count two_node_graph.
Proof.
  apply (read_features_rows toy_floats (λ _ _, 0) two_node_graph
           (set_features two_node_graph (sp_eye 2)) None [] true 100).
  reflexivity.
Defined.

Lemma read_features_one_hot_witness :
  if bool_decide (length (dict_keys (id_to_node_map two_node_graph)) = 0%nat)
  then read_features toy_floats (λ _ _, 0) two_node_graph None [] true 7
       = Raises (AssertionError "node count  = ")
  else ∃ F, read_features toy_floats (λ _ _, 0) two_node_graph None [] true 7
            = Returns (set_features two_node_graph F)
            ∧ sp_rows F = length (dict_keys (id_to_node_map two_node_graph))
            ∧ sp_cols F = length (dict_keys (id_to_node_map two_node_graph))
            ∧ ∀ i j, sp_get F i j
                     = identity_entry (length (dict_keys (id_to_node_map two_node_graph)))
                         i j.
Proof.
  apply (read_features_one_hot toy_floats (λ _ _, 0) two_node_graph None [] 7).
  reflexivity.
Defined.

Lemma read_features_file_witness :
  if bool_decide (length toy_feature_file
                  = length (dict_keys (id_to_node_map two_node_graph)))
  then ∃ F, read_features toy_floats (λ _ _, 0) two_node_graph (Some "feature.txt")
              toy_feature_file false 100
            = Returns (set_features two_node_graph F)
            ∧ sp_rows F = length toy_feature_file
            ∧ sp_cols F = length (default [] (head [[5 # 2; 3000000000]; [1; 0]]))
            ∧ ∀ i j row x, [[5 # 2; 3000000000]; [1; 0]] !! i = Some row → row !! j = Some x →
                sp_get F i j == inject_Z (int32_of_float x)
  else read_features toy_floats (λ _ _, 0) two_node_graph (Some "feature.txt")
         toy_feature_file false 100
       = Raises (AssertionError "Missing features for some nodes").
Proof.
  apply (read_features_file toy_floats (λ _ _, 0) two_node_graph (Some "feature.txt")
           toy_feature_file [[5 # 2; 3000000000]; [1; 0]] false 100).
  - reflexivity.
  - cbn [toy_feature_file length]. lia.
  - cbn. lia.
  - reflexivity.
  - reflexivity.
  - repeat constructor.
Defined.

Lemma read_data_consistent_witness :
  ∃ F L S,
    features toy_graph = Some F ∧ labels toy_graph = Some L ∧ adj toy_graph = Some S
    ∧ sp_rows F = length (dict_keys (id_to_node_map toy_graph))
    ∧ length L = sp_rows F
    ∧ has_shape (sp_rows F) S
    ∧ (0 ≤ edge_count toy_graph)%Z.
Proof.
  apply (read_data_consistent remove_dups toy_floats (λ _ _, 0)
           (λ s, Returns (toy_float s)) toy_files
           (λ xs x Hx, proj1 (elem_of_remove_dups xs x) Hx)
           (Graph_init "gcn" true) toy_graph "data" "toy").
  vm_compute. reflexivity.
Defined.

Lemma map_indices_to_mask_entries_witness :
  ∃ mask, map_indices_to_mask [0; 1; -1]%Z 4 = Returns mask
          ∧ length mask = Z.to_nat 4
          ∧ ∀ k, (k < Z.to_nat 4)%nat →
                 mask !! k = Some (if addressed [0; 1; -1]%Z 4 k then 1 else 0).
Proof.
  apply (map_indices_to_mask_entries [0; 1; -1]%Z 4).
  - lia.
  - repeat constructor; lia.
Defined.

Lemma populate_feed_dicts_aligned_witness :
  ∃ F L L' t,
    features (graph four_node_pipeline) = Some F
    ∧ labels (graph four_node_pipeline) = Some L
    ∧ Forall (λ d : gmap placeholder feed_value,
                d !! labels_placeholder = Some (ArrayValue L')
                ∧ d !! features_placeholder = Some (SparseValue t))
             [train_feed_dict four_node_result; validation_feed_dict four_node_result;
              test_feed_dict four_node_result]
    ∧ length L' = length (rev (seq 0 (sp_rows F)))
    ∧ stv_dense_shape t = (length (rev (seq 0 (sp_rows F))), sp_cols F)
    ∧ ∀ k i, rev (seq 0 (sp_rows F)) !! k = Some i →
        L' !! k = L !! i ∧ ∀ j, stv_get t k j = sp_get F i j.
Proof.
  apply (populate_feed_dicts_aligned (λ x _, x) (λ _, Returns 2) "gcn_poly" (@rev nat)
           four_node_pipeline four_node_result [2; 1; 1]%Z).
  vm_compute. reflexivity.
Defined.

Lemma populate_feed_dicts_shared_witness :
  (∀ p, p ≠ mask_placeholder → p ≠ dropout_placeholder →
        train_feed_dict four_node_result !! p = validation_feed_dict four_node_result !! p
        ∧ validation_feed_dict four_node_result !! p
          = test_feed_dict four_node_result !! p)
  ∧ (∃ F A supports,
       features (graph four_node_pipeline) = Some F
       ∧ adj (graph four_node_pipeline) = Some A
       ∧ compute_supports (λ x _, x) (λ _, Returns 2) "gcn_poly" A
           (model_params four_node_pipeline) = Returns supports
       ∧ (SUPPORTS <$> placeholder_dict four_node_result)
         = Some (support_placeholder <$> seq 0 (length supports))
       ∧ (∀ i s, supports !! i = Some (Some s) →
            test_feed_dict four_node_result !! support_placeholder i
            = Some (SparseValue (convert_sparse_matrix_to_sparse_tensor s)))
       ∧ num_elements four_node_result
         = (if sparse_features (model_params four_node_pipeline)
            then Z.of_nat (size (sp_data F)) else 0%Z))
  ∧ graph four_node_result = graph four_node_pipeline
  ∧ model_params four_node_result = model_params four_node_pipeline.
Proof.
  apply (populate_feed_dicts_shared (λ x _, x) (λ _, Returns 2) "gcn_poly" (@rev nat)
           four_node_pipeline four_node_result [2; 1; 1]%Z).
  vm_compute. reflexivity.
Defined.

Lemma populate_feed_dicts_masks_disjoint_witness :
  ∃ F train_mask validation_mask,
    features (graph four_node_pipeline) = Some F
    ∧ train_feed_dict four_node_result !! mask_placeholder
      = Some (VectorValue train_mask)
    ∧ validation_feed_dict four_node_result !! mask_placeholder
      = Some (VectorValue validation_mask)
    ∧ length train_mask = sp_rows F ∧ length validation_mask = sp_rows F
    ∧ ∀ k, train_mask !! k = Some 1 → validation_mask !! k = Some 0.
Proof.
  apply (populate_feed_dicts_masks_disjoint (λ x _, x) (λ _, Returns 2) "gcn_poly"
           (@rev nat) four_node_pipeline four_node_result [2; 1; 1]%Z).
  vm_compute. reflexivity.
Defined.

Lemma accuracy_op_value_witness :
  ∃ q, _accuracy_op "train" true (two_node_model "test" [1; 0]) [Finite 1; Finite 0]
       = Returns (Finite q)
       ∧ q == (if bool_decide (mode (two_node_model "test" [1; 0]) = "train")
               then Qsum (correct [Finite 1; Finite 0]
                            (bm_labels (two_node_model "test" [1; 0])))
                    / inject_Z (Z.of_nat (length [Finite 1; Finite 0]))
               else Qsum (zip_with Qmult
                            (correct [Finite 1; Finite 0]
                               (bm_labels (two_node_model "test" [1; 0])))
                            (dense_mask (st_indices (mask (two_node_model "test" [1; 0])))
                               [1; 0] (length [Finite 1; Finite 0])))
                    / Qsum [1; 0])
       ∧ (mode (two_node_model "test" [1; 0]) = "train" → 0 <= q <= 1).
Proof.
  apply (accuracy_op_value "train" true (two_node_model "test" [1; 0])
           [Finite 1; Finite 0] [1; 0]).
  - reflexivity.
  - discriminate.
  - intros _. split; [reflexivity|]. split; [|split; [reflexivity|]].
    + split; [reflexivity|]. split; [reflexivity|].
      repeat constructor.
    + vm_compute. discriminate.
Defined.

Lemma chebyshev_recurrence_entries_witness :
  ∃ next, _compute_chebyshev_recurrence example_adj (sp_eye 2) example_adj = Returns next
          ∧ has_shape 2 next
          ∧ ∀ i j, (i < 2)%nat → (j < 2)%nat →
              sp_get next i j
              == 2 * Qsum ((λ k, sp_get example_adj i k * sp_get example_adj k j)
                             <$> seq 0 2)
                 - sp_get (sp_eye 2) i j.
Proof.
  apply (chebyshev_recurrence_entries 2 example_adj (sp_eye 2) example_adj);
    split; reflexivity.
Defined.

Lemma compute_chebyshev_polynomial_terms_witness :
  ∃ Tk T1,
    compute_chebyshev_polynomial (λ x _, x) (λ _, Returns 2) example_adj 2 = Returns Tk
    ∧ length Tk = Z.to_nat (2 + 1)
    ∧ Tk !! 0%nat = Some (get_identity (sp_rows example_adj))
    ∧ Tk !! 1%nat = Some T1
    ∧ has_shape (sp_rows example_adj) T1
    ∧ (∀ i j, sp_get T1 i j
              == 2 * (identity_entry (sp_rows example_adj) i j
                      - sp_get example_renormalised i j) / 2
                 - identity_entry (sp_rows example_adj) i j)
    ∧ ∀ i : nat, (2 ≤ i < length Tk)%nat →
        ∃ a b c, Tk !! (i - 2)%nat = Some a ∧ Tk !! (i - 1)%nat = Some b
                 ∧ Tk !! i = Some c
                 ∧ _compute_chebyshev_recurrence b a T1 = Returns c.
Proof.
  apply (compute_chebyshev_polynomial_terms (λ x _, x) (λ _, Returns 2) example_adj
           example_renormalised example_laplacian 2 2).
  - reflexivity.
  - intros [|[|k]] Hk; [reflexivity | reflexivity | cbn in Hk; lia].
  - reflexivity.
  - reflexivity.
  - reflexivity.
  - discriminate.
  - lia.
Defined.

Lemma compute_supports_not_square_witness :
  renormalization_trick (λ x _, x) (SpMatrix 1 2 ∅) true = Raises ValueError
  ∧ transform_adj (λ x _, x) (SpMatrix 1 2 ∅) true = Raises ValueError
  ∧ compute_chebyshev_polynomial (λ x _, x) (λ _, Returns 2) (SpMatrix 1 2 ∅) 3
    = Raises ValueError
  ∧ compute_supports (λ x _, x) (λ _, Returns 2) "gcn_poly" (SpMatrix 1 2 ∅)
      (model_params four_node_pipeline) = Raises ValueError.
Proof.
  apply (compute_supports_not_square (λ x _, x) (λ _, Returns 2) "gcn_poly"
           (SpMatrix 1 2 ∅) (model_params four_node_pipeline) 3).
  cbn [sp_rows sp_cols]. lia.
Defined.
